(** * Project AIM (Fredericton): window manager, overlay registry, PDF tabs
      and session persistence of [static/js/app.js], and the PDF.js viewer
      URL helper.

    The browser program is embedded shallowly: every function of the source
    that the verified properties talk about is a Rocq function on an explicit
    page state.  Platform built-ins (strings, [encodeURIComponent],
    [URLSearchParams], own-property order of objects, Leaflet layers) are
    modelled in the first modules; the functions of the source follow under
    their own names. *)

From Stdlib Require Import List NArith ZArith Bool Ascii String Lia.
From Stdlib Require Import Permutation DecimalString DecimalN DecimalZ FinFun.
From Stdlib Require Import Sorted.
From Stdlib Require Import QArith.
Import ListNotations.
Close Scope Q_scope.
Close Scope string_scope.
Open Scope list_scope.

(* ================================================================== *)
(** * JavaScript strings *)
(* ================================================================== *)

(** A string is the sequence of its Unicode code points.  Well-formed text
    only: a code point stands for a scalar value (no lone surrogate).  Where
    the source works on UTF-16 code units (a regular expression without the
    [u] flag) the definitions below say so. *)
Definition jstr := list N.

Definition jstr_eq_dec : forall a b : jstr, {a = b} + {a <> b} :=
  list_eq_dec N.eq_dec.

(** [a === b] on strings. *)
Definition str_eqb (a b : jstr) : bool :=
  if jstr_eq_dec a b then true else false.

(** A string literal of the source (ASCII text). *)
Definition lit (s : string) : jstr :=
  map N_of_ascii (list_ascii_of_string s).

(** Truthiness of a string: the empty string is the only falsy one. *)
Definition truthy (s : jstr) : bool :=
  match s with [] => false | _ :: _ => true end.

(** [a || b] on strings. *)
Definition str_or (a b : jstr) : jstr := if truthy a then a else b.

(** White space and line terminators: what [String.prototype.trim] strips
    and what [\s] matches. *)
Definition is_ws (c : N) : bool :=
  ((9 <=? c) && (c <=? 13) || (c =? 32) || (c =? 160) || (c =? 5760)
   || (8192 <=? c) && (c <=? 8202) || (c =? 8232) || (c =? 8233)
   || (c =? 8239) || (c =? 8287) || (c =? 12288) || (c =? 65279))%N.

(** [\d]: the ASCII digits. *)
Definition is_digit (c : N) : bool := ((48 <=? c) && (c <=? 57))%N.

Fixpoint drop_while (p : N -> bool) (s : jstr) : jstr :=
  match s with
  | [] => []
  | c :: r => if p c then drop_while p r else s
  end.

Fixpoint take_while (p : N -> bool) (s : jstr) : jstr :=
  match s with
  | [] => []
  | c :: r => if p c then c :: take_while p r else []
  end.

(** [s.trim()]. *)
Definition trim (s : jstr) : jstr :=
  rev (drop_while is_ws (rev (drop_while is_ws s))).

Fixpoint starts_with (p s : jstr) : bool :=
  match p, s with
  | [], _ => true
  | _ :: _, [] => false
  | a :: p', b :: s' => (a =? b)%N && starts_with p' s'
  end.

(** [hay.includes(needle)]. *)
Fixpoint includes (needle hay : jstr) : bool :=
  starts_with needle hay
  || match hay with
     | [] => false
     | _ :: r => includes needle r
     end.

(** [String(n)] for a non-negative integer. *)
Definition dec (n : N) : jstr := lit (NilEmpty.string_of_uint (N.to_uint n)).

(** [String(z)] for an integer. *)
Definition dec_Z (z : Z) : jstr := lit (NilEmpty.string_of_int (Z.to_int z)).

(** [s.toLowerCase()].  Only the letters A-Z are mapped; of the other code
    points the full mapping sends none to an ASCII letter except U+212A
    (Kelvin sign, to [k]) and none of the constants the source compares
    with contains a [k]. *)
Definition toLowerCase (s : jstr) : jstr :=
  map (fun c => if ((65 <=? c) && (c <=? 90))%N then (c + 32)%N else c) s.

(** [/[^a-z0-9_\-]/gi]: the code points [cssSafeId] keeps. *)
Definition css_safe_char (c : N) : bool :=
  (is_digit c || (65 <=? c) && (c <=? 90) || (97 <=? c) && (c <=? 122)
   || (c =? 95) || (c =? 45))%N.

(** [cssSafeId(s)] (app.js 72-74).  The expression has no [u] flag, so a code
    point above U+FFFF is two code units and yields two underscores. *)
Definition cssSafeId (s : jstr) : jstr :=
  flat_map (fun c =>
              if css_safe_char c then [c]
              else if (65535 <? c)%N then [95%N; 95%N] else [95%N]) s.

(* ================================================================== *)
(** * URI encoding *)
(* ================================================================== *)

Module Uri.

(** UTF-8 bytes of a code point.  Outside the scalar values the replacement
    character U+FFFD is encoded, as the conversion to a USVString does. *)
Definition utf8_cp (c : N) : list ascii :=
  let b (n : N) := ascii_of_N n in
  if (c <? 128)%N then [b c]
  else if (c <? 2048)%N then [b (192 + c / 64); b (128 + c mod 64)]%N
  else if ((55296 <=? c) && (c <=? 57343) || (1114111 <? c))%N
       then [b 239; b 191; b 189]%N
  else if (c <? 65536)%N
       then [b (224 + c / 4096); b (128 + (c / 64) mod 64);
             b (128 + c mod 64)]%N
  else [b (240 + c / 262144); b (128 + (c / 4096) mod 64);
        b (128 + (c / 64) mod 64); b (128 + c mod 64)]%N.

Definition utf8 (s : jstr) : list ascii := flat_map utf8_cp s.

Definition hex_digit (n : N) : N :=
  if (n <? 10)%N then (48 + n)%N else (55 + n)%N.

(** [%XX], upper-case hexadecimal. *)
Definition pct (b : ascii) : jstr :=
  let n := N_of_ascii b in [37%N; hex_digit (n / 16); hex_digit (n mod 16)].

Definition is_alnum (c : N) : bool :=
  (is_digit c || (65 <=? c) && (c <=? 90) || (97 <=? c) && (c <=? 122))%N.

(** The characters [encodeURIComponent] leaves alone:
    letters, digits and [- _ . ! ~ * ' ( )]. *)
Definition uri_unreserved (c : N) : bool :=
  (is_alnum c || (c =? 45) || (c =? 95) || (c =? 46) || (c =? 33)
   || (c =? 126) || (c =? 42) || (c =? 39) || (c =? 40) || (c =? 41))%N.

Definition uri_byte (b : ascii) : jstr :=
  let n := N_of_ascii b in if uri_unreserved n then [n] else pct b.

Definition encodeURIComponent (s : jstr) : jstr := flat_map uri_byte (utf8 s).

(** The application/x-www-form-urlencoded byte serializer used by
    [URLSearchParams.prototype.toString]: space becomes [+], letters, digits
    and [* - . _] stay, every other byte is percent-encoded. *)
Definition form_safe (c : N) : bool :=
  (is_alnum c || (c =? 42) || (c =? 45) || (c =? 46) || (c =? 95))%N.

Definition form_byte (b : ascii) : jstr :=
  let n := N_of_ascii b in
  if (n =? 32)%N then [43%N] else if form_safe n then [n] else pct b.

Definition form_encode (s : jstr) : jstr := flat_map form_byte (utf8 s).

(** [params.toString()] of a [URLSearchParams] holding the given pairs. *)
Fixpoint params_toString (ps : list (jstr * jstr)) : jstr :=
  match ps with
  | [] => []
  | [(k, v)] => form_encode k ++ lit "=" ++ form_encode v
  | (k, v) :: r =>
      form_encode k ++ lit "=" ++ form_encode v ++ lit "&" ++ params_toString r
  end.

(** [parts.join(sep)]. *)
Fixpoint join (sep : jstr) (parts : list jstr) : jstr :=
  match parts with
  | [] => []
  | [p] => p
  | p :: r => p ++ sep ++ join sep r
  end.

(** ** Reading a URL back

    What a consumer of the URL does (the viewer page reads [location.search]
    and [location.hash]): cut at the first [#], cut the part before it at the
    first [?], split on [&], split each piece at its first [=], and
    percent-decode. *)

Definition hex_val (c : N) : option N :=
  if is_digit c then Some (c - 48)%N
  else if ((65 <=? c) && (c <=? 70))%N then Some (c - 55)%N
  else if ((97 <=? c) && (c <=? 102))%N then Some (c - 87)%N
  else None.

(** Percent-decoding to bytes; [plus] says whether [+] stands for a space
    (it does in a query string, it does not in a fragment). *)
Fixpoint pct_decode (plus : bool) (s : jstr) : list ascii :=
  match s with
  | [] => []
  | c :: r =>
      if (c =? 37)%N then
        match r with
        | h :: l :: r' =>
            match hex_val h, hex_val l with
            | Some a, Some b => ascii_of_N (16 * a + b) :: pct_decode plus r'
            | _, _ => ascii_of_N c :: pct_decode plus r
            end
        | _ => ascii_of_N c :: pct_decode plus r
        end
      else if plus && (c =? 43)%N then ascii_of_N 32 :: pct_decode plus r
      else ascii_of_N c :: pct_decode plus r
  end.

(** Cut at the first occurrence of [sep]: the part before, and the part
    after when there is one. *)
Fixpoint cut (sep : N) (s : jstr) : jstr * option jstr :=
  match s with
  | [] => ([], None)
  | c :: r =>
      if (c =? sep)%N then ([], Some r)
      else let '(a, b) := cut sep r in (c :: a, b)
  end.

Fixpoint split_on (sep : N) (s : jstr) : list jstr :=
  match s with
  | [] => [[]]
  | c :: r =>
      if (c =? sep)%N then [] :: split_on sep r
      else match split_on sep r with
           | [] => [[c]]
           | p :: ps => (c :: p) :: ps
           end
  end.

(** The decoded [name=value] pairs of a query string or fragment body. *)
Definition pairs_of (plus : bool) (s : jstr)
  : list (list ascii * list ascii) :=
  map (fun piece =>
         let '(k, v) := cut 61 piece in
         (pct_decode plus k,
          pct_decode plus (match v with Some v => v | None => [] end)))
      (split_on 38 s).

Fixpoint assoc_bytes (name : list ascii) (ps : list (list ascii * list ascii))
  : option (list ascii) :=
  match ps with
  | [] => None
  | (k, v) :: r =>
      if list_eq_dec ascii_dec k name then Some v else assoc_bytes name r
  end.

Record url_parts := {
  u_path : jstr;
  u_query : option jstr;
  u_fragment : option jstr
}.

Definition parse_url (s : jstr) : url_parts :=
  let '(before, frag) := cut 35 s in
  let '(path, query) := cut 63 before in
  {| u_path := path; u_query := query; u_fragment := frag |}.

(** The value of the query parameter [name] of [url], as bytes. *)
Definition query_param (name : string) (url : jstr) : option (list ascii) :=
  match u_query (parse_url url) with
  | None => None
  | Some q => assoc_bytes (list_ascii_of_string name) (pairs_of true q)
  end.

(** The value of the fragment parameter [name] of [url], as bytes. *)
Definition fragment_param (name : string) (url : jstr)
  : option (list ascii) :=
  match u_fragment (parse_url url) with
  | None => None
  | Some f => assoc_bytes (list_ascii_of_string name) (pairs_of false f)
  end.

(** The characters that delimit the parts of a URL and of a query:
    [# & = ?]. *)
Definition no_sep (c : N) : bool :=
  (negb (c =? 35) && negb (c =? 38) && negb (c =? 61) && negb (c =? 63))%N.

(** [sep] does not occur in [s]. *)
Definition lacks (sep : N) (s : jstr) : Prop := Forall (fun c => c <> sep) s.

(** A [name=value] piece, both given as they are written in the URL. *)
Definition piece (kv : jstr * jstr) : jstr := fst kv ++ lit "=" ++ snd kv.

End Uri.

(* ================================================================== *)
(** * pdfjs-helper: the viewer launch URL *)
(* ================================================================== *)

(** A value of an option field: the callers pass strings and integers
    ([zoom: 75], [pagemode: 'none']). *)
Inductive jsval :=
| VStr (s : jstr)
| VNum (n : Z).

Definition val_truthy (v : jsval) : bool :=
  match v with
  | VStr s => truthy s
  | VNum n => negb (n =? 0)%Z
  end.

(** [String(v)]. *)
Definition val_string (v : jsval) : jstr :=
  match v with
  | VStr s => s
  | VNum n => dec_Z n
  end.

(** [o || d], where [o] is a possibly absent property. *)
Definition val_or (o : option jsval) (d : option jsval) : option jsval :=
  match o with
  | Some v => if val_truthy v then Some v else d
  | None => d
  end.

Record viewer_opts := {
  o_zoom : option jsval;
  o_page : option jsval;
  o_pagemode : option jsval;
  o_view : option jsval;
  o_aimTitle : option jsval;
  o_title : option jsval
}.

Definition no_opts : viewer_opts :=
  {| o_zoom := None; o_page := None; o_pagemode := None; o_view := None;
     o_aimTitle := None; o_title := None |}.

Definition opt_default (o : option jsval) (d : jsval) : jsval :=
  match val_or o None with Some v => v | None => d end.

Definition viewerBase : jstr := lit "pdfjs/web/viewer.html".

(** The values the function settles on (part_000, 8-12). *)
Definition eff_zoom (o : viewer_opts) : jsval :=
  opt_default (o_zoom o) (VStr (lit "page-width")).
Definition eff_page (o : viewer_opts) : jsval :=
  opt_default (o_page o) (VNum 1).
Definition eff_pagemode (o : viewer_opts) : jsval :=
  opt_default (o_pagemode o) (VStr (lit "none")).
Definition eff_view (o : viewer_opts) : option jsval :=
  val_or (o_view o) None.
Definition eff_title (o : viewer_opts) : option jsval :=
  val_or (o_aimTitle o) (val_or (o_title o) None).

(** [buildPdfJsViewerUrl(fileUrl, opts)] (part_000, 6-29); [opts] absent is
    [None]. *)
Definition buildPdfJsViewerUrl (fileUrl : jstr) (opts : option viewer_opts)
  : jstr :=
  let opts := match opts with Some o => o | None => no_opts end in
  let zoom := eff_zoom opts in
  let page := eff_page opts in
  let pagemode := eff_pagemode opts in
  let view := eff_view opts in
  let aimTitle := eff_title opts in
  let params :=
    (lit "file", fileUrl)
    :: match aimTitle with
       | Some t => [(lit "aimTitle", val_string t)]
       | None => []
       end in
  let enc v := Uri.encodeURIComponent (val_string v) in
  let hashParts :=
    (if val_truthy page then [lit "page=" ++ enc page] else [])
    ++ [lit "zoom=" ++ enc zoom]
    ++ (if val_truthy pagemode then [lit "pagemode=" ++ enc pagemode] else [])
    ++ match view with
       | Some v => [lit "view=" ++ enc v]
       | None => []
       end in
  let hash :=
    match hashParts with
    | [] => []
    | _ :: _ => lit "#" ++ Uri.join (lit "&") hashParts
    end in
  viewerBase ++ lit "?" ++ Uri.params_toString params ++ hash.

(** The [name=value] pieces the function writes into the query and into the
    fragment, values encoded. *)
Definition query_pieces (u : jstr) (o : viewer_opts) : list (jstr * jstr) :=
  (lit "file", Uri.form_encode u)
  :: match eff_title o with
     | Some t => [(lit "aimTitle", Uri.form_encode (val_string t))]
     | None => []
     end.

Definition fragment_pieces (o : viewer_opts) : list (jstr * jstr) :=
  [(lit "page", Uri.encodeURIComponent (val_string (eff_page o)));
   (lit "zoom", Uri.encodeURIComponent (val_string (eff_zoom o)));
   (lit "pagemode", Uri.encodeURIComponent (val_string (eff_pagemode o)))]
  ++ match eff_view o with
     | Some v => [(lit "view", Uri.encodeURIComponent (val_string v))]
     | None => []
     end.

(** The option object the application passes for a tab (app.js 1021). *)
Definition tab_opts (aimTitle : jstr) : option viewer_opts :=
  Some {| o_zoom := Some (VNum 75); o_page := None;
          o_pagemode := Some (VStr (lit "none")); o_view := None;
          o_aimTitle := Some (VStr aimTitle); o_title := None |}.

(* ================================================================== *)
(** * JavaScript objects used as maps *)
(* ================================================================== *)

(** A plain object is the list of its own properties in enumeration order
    ([Object.keys], [for ... in]): the keys that are array indices first, in
    ascending numeric order, then the other keys in the order they were
    created.  Keys are ordinary names: none is the name of a property
    inherited from [Object.prototype]. *)
Module JsObject.

(** The number a string of digits denotes, read after the digits [a]. *)
Definition digits_val (a : N) (k : jstr) : N :=
  fold_left (fun a d => (10 * a + (d - 48))%N) k a.

(** The array index a key stands for: a canonical decimal numeral below
    [2^32 - 1]. *)
Definition array_index (k : jstr) : option N :=
  match k with
  | [] => None
  | c :: r =>
      if forallb is_digit k
         && (negb (c =? 48)%N || match r with [] => true | _ => false end)
      then
        let v := digits_val 0 k in
        if (v <? 4294967295)%N then Some v else None
      else None
  end.

(** [10^n]. *)
Fixpoint pow10 (n : nat) : N :=
  match n with
  | O => 1%N
  | S n' => (10 * pow10 n')%N
  end.


(** [i] is above the bound [lo], when there is one. *)
Definition above (lo : option N) (i : N) : Prop :=
  match lo with Some j => (j < i)%N | None => True end.

Section Obj.
Context {V : Type}.

Definition obj := list (jstr * V).

(** [o[k]], [undefined] being [None]. *)
Fixpoint get (k : jstr) (o : obj) : option V :=
  match o with
  | [] => None
  | (k', v) :: r => if jstr_eq_dec k' k then Some v else get k r
  end.

Definition has (k : jstr) (o : obj) : bool :=
  match get k o with Some _ => true | None => false end.

Fixpoint replace (k : jstr) (v : V) (o : obj) : obj :=
  match o with
  | [] => []
  | (k', v') :: r =>
      if jstr_eq_dec k' k then (k, v) :: r else (k', v') :: replace k v r
  end.

(** Where a new array-index key goes: before the first key that is no
    array index or a larger one. *)
Fixpoint insert_index (i : N) (k : jstr) (v : V) (o : obj) : obj :=
  match o with
  | [] => [(k, v)]
  | (k', v') :: r =>
      match array_index k' with
      | Some j =>
          if (j <? i)%N then (k', v') :: insert_index i k v r
          else (k, v) :: o
      | None => (k, v) :: o
      end
  end.

(** [o[k] = v]. *)
Definition set (k : jstr) (v : V) (o : obj) : obj :=
  if has k o then replace k v o
  else match array_index k with
       | Some i => insert_index i k v o
       | None => o ++ [(k, v)]
       end.

(** [delete o[k]]. *)
Definition delete (k : jstr) (o : obj) : obj :=
  filter (fun kv => if jstr_eq_dec (fst kv) k then false else true) o.

(** [Object.keys(o)]. *)
Definition keys (o : obj) : list jstr := map fst o.

(** [Object.values(o)]. *)
Definition values (o : obj) : list V := map snd o.

(** The keys that are array indices come first and ascend. *)
Fixpoint index_sorted (lo : option N) (ks : list jstr) : Prop :=
  match ks with
  | [] => True
  | k :: r =>
      match array_index k with
      | Some i =>
          match lo with
          | Some j => (j < i)%N
          | None => True
          end /\ index_sorted (Some i) r
      | None => Forall (fun k' => array_index k' = None) r
      end
  end.

(** The shape of every object the program builds. *)
Definition ordered (o : obj) : Prop :=
  NoDup (keys o) /\ index_sorted None (keys o).

End Obj.

Arguments obj V : clear implicits.

End JsObject.

Import JsObject.

(* ================================================================== *)
(** * Leaflet: the map and its layers *)
(* ================================================================== *)

(** The two kinds of layer object the program creates.  A tile layer
    ([L.tileLayer], [L.esri.tiledMapLayer], [L.esri.basemapLayer]) has
    [addTo], [remove], [setOpacity], [setZIndex] and [bringToFront]; a layer
    group ([L.layerGroup], the placeholder) has [addTo], [remove] and
    [setZIndex] only. *)
Inductive layer_class := TileLayer | LayerGroup.

Record layer := { l_id : nat; l_class : layer_class }.

(** A number of the source that is only stored and compared (an opacity). *)
Definition number := Q.

Record leaflet_map := {
  on_map : list nat;               (* the layers on the map, back to front *)
  layer_z : list (nat * Z);        (* options.zIndex of the tile layers *)
  layer_opacity : list (nat * number)  (* options.opacity of the tile layers *)
}.

Definition memb (i : nat) (l : list nat) : bool := existsb (Nat.eqb i) l.

(** [map.hasLayer(l)]. *)
Definition hasLayer (l : layer) (m : leaflet_map) : bool :=
  memb (l_id l) (on_map m).

(** [l.addTo(map)]: nothing happens when the layer is already there. *)
Definition addTo (l : layer) (m : leaflet_map) : leaflet_map :=
  if hasLayer l m then m
  else {| on_map := on_map m ++ [l_id l]; layer_z := layer_z m;
          layer_opacity := layer_opacity m |}.

(** [map.removeLayer(l)], which is also [l.remove()]. *)
Definition map_removeLayer (l : layer) (m : leaflet_map) : leaflet_map :=
  {| on_map := filter (fun i => negb (Nat.eqb i (l_id l))) (on_map m);
     layer_z := layer_z m; layer_opacity := layer_opacity m |}.

Definition has_setOpacity (l : layer) : bool :=
  match l_class l with TileLayer => true | LayerGroup => false end.

Definition has_bringToFront (l : layer) : bool :=
  match l_class l with TileLayer => true | LayerGroup => false end.

(** [l.setZIndex(z)]; on an (empty) layer group it has nothing to do. *)
Definition setZIndex (l : layer) (z : Z) (m : leaflet_map) : leaflet_map :=
  match l_class l with
  | TileLayer =>
      {| on_map := on_map m; layer_z := (l_id l, z) :: layer_z m;
         layer_opacity := layer_opacity m |}
  | LayerGroup => m
  end.

(** [l.setOpacity(v)] of a tile layer. *)
Definition setOpacity (l : layer) (v : number) (m : leaflet_map)
  : leaflet_map :=
  {| on_map := on_map m; layer_z := layer_z m;
     layer_opacity := (l_id l, v) :: layer_opacity m |}.

(** [l.bringToFront()] of a tile layer: last among the layers on the map. *)
Definition layer_bringToFront (l : layer) (m : leaflet_map) : leaflet_map :=
  if hasLayer l m then
    {| on_map :=
         filter (fun i => negb (Nat.eqb i (l_id l))) (on_map m) ++ [l_id l];
       layer_z := layer_z m; layer_opacity := layer_opacity m |}
  else m.

(** The opacity a layer is drawn with; a tile layer starts at [1]. *)
Fixpoint opacity_of (i : nat) (os : list (nat * number)) : number :=
  match os with
  | [] => 1%Q
  | (j, v) :: r => if Nat.eqb j i then v else opacity_of i r
  end.

(* ================================================================== *)
(** * The overlay registry *)
(* ================================================================== *)

(** A row of the imagery feed. *)
Record overlay_entry := {
  collection_location : jstr;
  ui_group : jstr;
  ui_label : jstr;
  service_type : jstr;
  url : jstr;
  default_on : jstr
}.

(** What [overlays[id]] holds: one layer, or the object [{img, lbl}]. *)
Inductive runtime :=
| Single (l : layer)
| Paired (img lbl : layer).

Definition members (r : runtime) : list layer :=
  match r with
  | Single l => [l]
  | Paired img lbl => [img; lbl]
  end.

Record layers_st := {
  overlays : obj runtime;
  overlayMeta : obj overlay_entry;
  lmap : leaflet_map;
  next_layer : nat
}.

Definition with_lmap (m : leaflet_map) (s : layers_st) : layers_st :=
  {| overlays := overlays s; overlayMeta := overlayMeta s; lmap := m;
     next_layer := next_layer s |}.

(** The z-order constants (app.js 54). *)
Definition Z_OSM : Z := 1.
Definition Z_MOSAIC : Z := 100.
Definition Z_IMAGERY : Z := 200.
Definition Z_LABELS : Z := 300.
Definition Z_STREETS : Z := 400.

(** [/^https?:\/\//i.test(val)]. *)
Definition is_http_url (val : jstr) : bool :=
  let v := toLowerCase val in
  starts_with (lit "http://") v || starts_with (lit "https://") v.

(** Registers [r] under [id] with the metadata [entry], having created [n]
    layer objects. *)
Definition register (id : jstr) (entry : overlay_entry) (r : runtime)
    (n : nat) (z : option (layer * Z)) (s : layers_st) : layers_st :=
  {| overlays := set id r (overlays s);
     overlayMeta := set id entry (overlayMeta s);
     lmap := match z with
             | Some (l, v) => setZIndex l v (lmap s)
             | None => lmap s
             end;
     next_layer := next_layer s + n |}.

(** [addLayerForEntry(entry)] (app.js 484-554).  [esri_ok] says whether the
    calls into the Esri library made for this entry return; when one throws
    the [catch] branch registers an empty layer group. *)
Definition addLayerForEntry (esri_ok : bool) (entry : overlay_entry)
    (s : layers_st) : layers_st :=
  let id := ui_label entry in
  let svc := toLowerCase (service_type entry) in
  let fresh c := {| l_id := next_layer s; l_class := c |} in
  let placeholder := register id entry (Single (fresh LayerGroup)) 1 None s in
  if str_eqb svc (lit "tiled") || str_eqb svc (lit "tiles") then
    if esri_ok
    then register id entry (Single (fresh TileLayer)) 1
                  (Some (fresh TileLayer, Z_MOSAIC)) s
    else placeholder
  else if str_eqb svc (lit "basemap") then
    if esri_ok then register id entry (Single (fresh TileLayer)) 1 None s
    else placeholder
  else if str_eqb svc (lit "hybrid") then
    if esri_ok
    then register id entry
                  (Paired (fresh TileLayer)
                          {| l_id := S (next_layer s); l_class := TileLayer |})
                  2 None s
    else placeholder
  else if str_eqb svc (lit "vector-street") then
    if esri_ok then register id entry (Single (fresh TileLayer)) 1 None s
    else placeholder
  else placeholder.

(** [enableLayer(id)] (app.js 557-576). *)
Definition enableLayer (id : jstr) (s : layers_st) : layers_st :=
  match get id (overlays s) with
  | None => s
  | Some (Paired img lbl) =>
      let m := lmap s in
      let m := if hasLayer img m then m else addTo img m in
      let m := if hasLayer lbl m then m else addTo lbl m in
      with_lmap (setZIndex img Z_IMAGERY m) s
  | Some (Single l) =>
      let m := addTo l (lmap s) in
      let street :=
        str_eqb id (lit "Street Overlay")
        || match get id (overlayMeta s) with
           | Some e =>
               str_eqb (toLowerCase (service_type e)) (lit "vector-street")
           | None => false
           end in
      with_lmap (if street && has_bringToFront l
                 then layer_bringToFront l m else m) s
  end.

(** [removeLayer(id)] (app.js 579-596); every layer object has [remove]. *)
Definition removeLayer (id : jstr) (s : layers_st) : layers_st :=
  match get id (overlays s) with
  | None => s
  | Some (Paired img lbl) =>
      let m := lmap s in
      let m := if hasLayer img m then map_removeLayer img m else m in
      let m := if hasLayer lbl m then map_removeLayer lbl m else m in
      with_lmap m s
  | Some (Single l) => with_lmap (map_removeLayer l (lmap s)) s
  end.

(** [setLayerOpacity(id, val)] (app.js 598-604): the object itself when it
    has [setOpacity], else its [img], else its [lbl]. *)
Definition setLayerOpacity (id : jstr) (val : number) (s : layers_st)
  : layers_st :=
  match get id (overlays s) with
  | None => s
  | Some (Single l) =>
      if has_setOpacity l then with_lmap (setOpacity l val (lmap s)) s else s
  | Some (Paired img lbl) =>
      if has_setOpacity img then with_lmap (setOpacity img val (lmap s)) s
      else if has_setOpacity lbl
           then with_lmap (setOpacity lbl val (lmap s)) s
           else s
  end.

(* ================================================================== *)
(** * The page: check boxes, PDF tabs, session store *)
(* ================================================================== *)

(** The check boxes of [#imagery-toggle] and what their [change] handler
    closes over: the street overlay (app.js 625-650), OSM (654-668) and one
    per feed entry, [id] being its [ui_label] (686-709). *)
Inductive box_kind :=
| BoxStreet
| BoxOsm
| BoxEntry (id : jstr).

Record checkbox := { box_kind_of : box_kind; box_checked : bool }.

(** The [id] attribute of the element. *)
Definition box_elem_id (b : checkbox) : jstr :=
  match box_kind_of b with
  | BoxStreet => lit "chk-street-overlay"
  | BoxOsm => lit "chk-osm"
  | BoxEntry id => lit "chk-" ++ cssSafeId id
  end.

(** [dataset.id]. *)
Definition box_data_id (b : checkbox) : jstr :=
  match box_kind_of b with
  | BoxStreet => lit "Street Overlay"
  | BoxOsm => lit "OSM"
  | BoxEntry id => id
  end.

Definition set_checked (c : bool) (b : checkbox) : checkbox :=
  {| box_kind_of := box_kind_of b; box_checked := c |}.

(** A row of the archive feed. *)
Record archive_row := {
  a_ui_group : jstr;
  a_ui_label_1 : jstr;
  a_ui_label_2 : jstr;
  a_filename : jstr
}.

(** The close button of a tab calls [closePdfTab(tabKey)] (app.js 967-970)
    or, on a tab built by the restore, the handler of app.js 1152-1161. *)
Inductive close_handler :=
| CloseDirect (tabKey : jstr)
| CloseRestored (filename : jstr).

(** A tab element of the strip [#pdf-tabs]. *)
Record tab_el := {
  tab_id : nat;
  tab_text : jstr;        (* textContent of its label span *)
  tab_active : bool;      (* whether its class list has [active] *)
  tab_onclose : close_handler
}.

(** A value of [openPdfs]; the restore registers entries without a
    [filename] property. *)
Record pdf_entry := {
  e_tab : nat;
  e_url : jstr;
  e_label : jstr;
  e_filename : option jstr;
  e_aimTitle : jstr
}.

(** The session blob.  [JSON.stringify] then [JSON.parse] gives back these
    arrays of strings as they were, so the store holds the value itself. *)
Record persisted_tab := {
  p_filename : jstr;
  p_url : jstr;
  p_label : jstr;
  p_aimTitle : jstr
}.

Record session_state := {
  enabledLayers : list jstr;
  openTabs : list persisted_tab
}.

Record app := {
  layers : layers_st;
  boxes : list checkbox;
  archiveData : obj (list archive_row);
  openPdfs : obj pdf_entry;
  activePdfKey : option jstr;
  pdfTabs : list tab_el;
  next_tab : nat;                  (* identity of the next element created *)
  viewer_src : jstr;               (* the [src] attribute of [#pdf-viewer] *)
  doc_dir : jstr;                  (* the URL relative ones resolve against *)
  session : option session_state   (* sessionStorage['aim_session'] *)
}.

Definition with_layers (x : layers_st) (s : app) : app :=
  {| layers := x; boxes := boxes s; archiveData := archiveData s;
     openPdfs := openPdfs s; activePdfKey := activePdfKey s;
     pdfTabs := pdfTabs s; next_tab := next_tab s;
     viewer_src := viewer_src s; doc_dir := doc_dir s;
     session := session s |}.

Definition with_boxes (x : list checkbox) (s : app) : app :=
  {| layers := layers s; boxes := x; archiveData := archiveData s;
     openPdfs := openPdfs s; activePdfKey := activePdfKey s;
     pdfTabs := pdfTabs s; next_tab := next_tab s;
     viewer_src := viewer_src s; doc_dir := doc_dir s;
     session := session s |}.

Definition with_openPdfs (x : obj pdf_entry) (s : app) : app :=
  {| layers := layers s; boxes := boxes s; archiveData := archiveData s;
     openPdfs := x; activePdfKey := activePdfKey s;
     pdfTabs := pdfTabs s; next_tab := next_tab s;
     viewer_src := viewer_src s; doc_dir := doc_dir s;
     session := session s |}.

Definition with_active (x : option jstr) (s : app) : app :=
  {| layers := layers s; boxes := boxes s; archiveData := archiveData s;
     openPdfs := openPdfs s; activePdfKey := x;
     pdfTabs := pdfTabs s; next_tab := next_tab s;
     viewer_src := viewer_src s; doc_dir := doc_dir s;
     session := session s |}.

Definition with_pdfTabs (x : list tab_el) (s : app) : app :=
  {| layers := layers s; boxes := boxes s; archiveData := archiveData s;
     openPdfs := openPdfs s; activePdfKey := activePdfKey s;
     pdfTabs := x; next_tab := next_tab s;
     viewer_src := viewer_src s; doc_dir := doc_dir s;
     session := session s |}.

Definition with_next_tab (x : nat) (s : app) : app :=
  {| layers := layers s; boxes := boxes s; archiveData := archiveData s;
     openPdfs := openPdfs s; activePdfKey := activePdfKey s;
     pdfTabs := pdfTabs s; next_tab := x;
     viewer_src := viewer_src s; doc_dir := doc_dir s;
     session := session s |}.

Definition with_viewer (x : jstr) (s : app) : app :=
  {| layers := layers s; boxes := boxes s; archiveData := archiveData s;
     openPdfs := openPdfs s; activePdfKey := activePdfKey s;
     pdfTabs := pdfTabs s; next_tab := next_tab s;
     viewer_src := x; doc_dir := doc_dir s;
     session := session s |}.

Definition with_session (x : option session_state) (s : app) : app :=
  {| layers := layers s; boxes := boxes s; archiveData := archiveData s;
     openPdfs := openPdfs s; activePdfKey := activePdfKey s;
     pdfTabs := pdfTabs s; next_tab := next_tab s;
     viewer_src := viewer_src s; doc_dir := doc_dir s;
     session := x |}.

(** ** Session persistence: writing *)

(** The identifier [persistStateToSession] reads off a check box
    (app.js 1108). *)
Definition persist_id (b : checkbox) : option jstr :=
  if truthy (box_data_id b) then Some (box_data_id b)
  else if str_eqb (box_elem_id b) (lit "chk-street-overlay")
       then Some (lit "Street Overlay")
       else None.

(** The identifiers of the checked boxes, in document order. *)
Definition enabled_ids (bs : list checkbox) : list jstr :=
  flat_map (fun b =>
              match persist_id b with
              | Some id => if truthy id && box_checked b then [id] else []
              | None => []
              end) bs.

Definition persisted_tabs (o : obj pdf_entry) : list persisted_tab :=
  map (fun kv =>
         {| p_filename := fst kv; p_url := e_url (snd kv);
            p_label := e_label (snd kv); p_aimTitle := e_aimTitle (snd kv) |})
      o.

(** [persistStateToSession()] (app.js 1104-1118). *)
Definition persistStateToSession (s : app) : app :=
  with_session
    (Some {| enabledLayers := enabled_ids (boxes s);
             openTabs := persisted_tabs (openPdfs s) |}) s.

(** ** The PDF tab manager *)

Definition set_tab_active (a : bool) (t : tab_el) : tab_el :=
  {| tab_id := tab_id t; tab_text := tab_text t; tab_active := a;
     tab_onclose := tab_onclose t |}.

(** [o.tab.classList.remove('active')] for every entry [o]. *)
Definition clear_active (o : obj pdf_entry) (ts : list tab_el)
  : list tab_el :=
  map (fun t =>
         if memb (tab_id t) (map e_tab (values o))
         then set_tab_active false t else t) ts.

(** [el.classList.add('active')] for the element [i]. *)
Definition add_active (i : nat) (ts : list tab_el) : list tab_el :=
  map (fun t => if Nat.eqb (tab_id t) i then set_tab_active true t else t) ts.

(** The label shown on the tab element [i] of the strip. *)
Definition label_of (i : nat) (ts : list tab_el) : option jstr :=
  option_map tab_text (find (fun t => Nat.eqb (tab_id t) i) ts).

(** [activatePdfTab(tabKey)] (app.js 1012-1023). *)
Definition activatePdfTab (tabKey : jstr) (s : app) : app :=
  match get tabKey (openPdfs s) with
  | None => s
  | Some e =>
      with_viewer
        (buildPdfJsViewerUrl (e_url e) (tab_opts (e_aimTitle e)))
        (with_pdfTabs
           (add_active (e_tab e) (clear_active (openPdfs s) (pdfTabs s)))
           (with_active (Some tabKey) s))
  end.

(** [`${baseKey} (${n})`]. *)
Definition suffixed (baseKey : jstr) (n : N) : jstr :=
  baseKey ++ lit " (" ++ dec n ++ lit ")".

(** The loop of app.js 948-951, [fuel] bounding its iterations. *)
Fixpoint key_loop (fuel : nat) (o : obj pdf_entry) (baseKey tabKey : jstr)
    (n : N) : option jstr :=
  match get tabKey o with
  | None => Some tabKey
  | Some _ =>
      match fuel with
      | O => None
      | S fuel' => key_loop fuel' o baseKey (suffixed baseKey n) (n + 1)%N
      end
  end.

(** The tab key the loop ends with.  One more iteration than there are open
    tabs is always enough ([key_loop_total]). *)
Definition unique_tab_key (o : obj pdf_entry) (filename : jstr) : jstr :=
  match key_loop (S (List.length o)) o filename filename 2%N with
  | Some k => k
  | None => filename
  end.

(** Whether [s] is [(digits)] to its end, and the digits. *)
Definition paren_digits_here (s : jstr) : option jstr :=
  match s with
  | c :: r =>
      if (c =? 40)%N then
        let ds := take_while is_digit r in
        match ds, drop_while is_digit r with
        | _ :: _, [c'] => if (c' =? 41)%N then Some ds else None
        | _, _ => None
        end
      else None
  | [] => None
  end.

(** [s.match(/\((\d+)\)$/)?.[1]]: the first position that matches. *)
Fixpoint match_paren_digits (s : jstr) : option jstr :=
  match paren_digits_here s with
  | Some ds => Some ds
  | None =>
      match s with
      | [] => None
      | _ :: r => match_paren_digits r
      end
  end.

(** The label of the tab (app.js 952-954). *)
Definition tab_label (filename aimTitle : jstr) : jstr :=
  if truthy aimTitle && truthy (trim aimTitle) then trim aimTitle
  else filename.

Definition displayLabel (baseKey tabKey label : jstr) : jstr :=
  if str_eqb tabKey baseKey then label
  else label ++ lit " ("
       ++ match match_paren_digits tabKey with
          | Some ds => str_or ds []
          | None => []
          end
       ++ lit ")".

(** [openPdfInTab(filename, url, aimTitle)] (app.js 943-982). *)
Definition openPdfInTab (filename url aimTitle : jstr) (s : app) : app :=
  let baseKey := filename in
  let tabKey := unique_tab_key (openPdfs s) baseKey in
  let label := tab_label filename aimTitle in
  let shown := displayLabel baseKey tabKey label in
  let tab := {| tab_id := next_tab s; tab_text := shown;
                tab_active := false; tab_onclose := CloseDirect tabKey |} in
  let s := with_next_tab (S (next_tab s)) (with_pdfTabs (pdfTabs s ++ [tab]) s)
  in
  let s :=
    with_openPdfs
      (set tabKey {| e_tab := tab_id tab; e_url := url; e_label := shown;
                     e_filename := Some filename; e_aimTitle := label |}
           (openPdfs s)) s in
  persistStateToSession (activatePdfTab tabKey s).

(** [el.remove()] for the tab element [i]. *)
Definition remove_tab (i : nat) (ts : list tab_el) : list tab_el :=
  filter (fun t => negb (Nat.eqb (tab_id t) i)) ts.

(** [closePdfTab(tabKey)] (app.js 984-1009). *)
Definition closePdfTab (tabKey : jstr) (s : app) : app :=
  match get tabKey (openPdfs s) with
  | None => s
  | Some entry =>
      let s := with_pdfTabs (remove_tab (e_tab entry) (pdfTabs s)) s in
      let s := with_openPdfs (delete tabKey (openPdfs s)) s in
      let s :=
        if match activePdfKey s with
           | Some k => str_eqb k tabKey
           | None => false
           end
        then
          match keys (openPdfs s) with
          | k :: _ => activatePdfTab k s
          | [] => with_viewer [] (with_active None s)
          end
        else
          match keys (openPdfs s) with
          | [] => with_viewer [] (with_active None s)
          | _ :: _ => s
          end in
      persistStateToSession s
  end.

(** ** The [change] handlers of the check boxes *)

Definition box_overlay (k : box_kind) : jstr :=
  match k with
  | BoxStreet => lit "Street Overlay"
  | BoxOsm => lit "OSM"
  | BoxEntry id => id
  end.

(** What the [change] listener of a box does (app.js 646-650, 665-668,
    698-709); the dimming of the opacity slider, which nothing reads, is left
    out. *)
Definition on_change (b : checkbox) (s : app) : app :=
  let id := box_overlay (box_kind_of b) in
  let s :=
    with_layers (if box_checked b then enableLayer id (layers s)
                 else removeLayer id (layers s)) s in
  persistStateToSession s.

(** The box at position [i] gets the checked state [c]. *)
Fixpoint check_at (i : nat) (c : bool) (bs : list checkbox)
  : list checkbox :=
  match bs, i with
  | [], _ => []
  | b :: r, O => set_checked c b :: r
  | b :: r, S i' => b :: check_at i' c r
  end.

(** A click of the user on the box at position [i]. *)
Definition toggle_box (i : nat) (s : app) : app :=
  match nth_error (boxes s) i with
  | None => s
  | Some b =>
      let c := negb (box_checked b) in
      on_change (set_checked c b) (with_boxes (check_at i c (boxes s)) s)
  end.

(** ** Session persistence: reading *)

Fixpoint find_index {A} (p : A -> bool) (l : list A) : option nat :=
  match l with
  | [] => None
  | x :: r => if p x then Some O else option_map S (find_index p r)
  end.

(** The element the restore looks up for [id] (app.js 1128-1130): by
    [data-id], else by the [id] attribute [chk-...], else the street box. *)
Definition find_input (id : jstr) (bs : list checkbox) : option nat :=
  match find_index (fun b => str_eqb (box_data_id b) id) bs with
  | Some i => Some i
  | None =>
      match find_index
              (fun b => str_eqb (box_elem_id b) (lit "chk-" ++ cssSafeId id))
              bs with
      | Some i => Some i
      | None =>
          if str_eqb id (lit "Street Overlay")
          then find_index
                 (fun b => str_eqb (box_elem_id b) (lit "chk-street-overlay"))
                 bs
          else None
      end
  end.

(** One round of the loop of app.js 1127-1135. *)
Definition restore_layer (s : app) (id : jstr) : app :=
  match find_input id (boxes s) with
  | None => s
  | Some i =>
      match nth_error (boxes s) i with
      | None => s
      | Some b =>
          if box_checked b then s
          else on_change (set_checked true b)
                         (with_boxes (check_at i true (boxes s)) s)
      end
  end.

(** Whether [s] is [\s*\(\d+\)\s*] to its end. *)
Definition dup_suffix_here (s : jstr) : bool :=
  match drop_while is_ws s with
  | c :: r =>
      (c =? 40)%N
      && match take_while is_digit r, drop_while is_digit r with
         | _ :: _, c' :: r' =>
             (c' =? 41)%N
             && match drop_while is_ws r' with [] => true | _ => false end
         | _, _ => false
         end
  | [] => false
  end.

(** [s.replace(/\s*\(\d+\)\s*$/, '')]: cut at the first position that
    matches. *)
Fixpoint strip_dup_suffix (s : jstr) : jstr :=
  if dup_suffix_here s then []
  else match s with
       | [] => []
       | c :: r => c :: strip_dup_suffix r
       end.

(** [findArchiveRowByFilename(filename)] (app.js 849-857). *)
Definition findArchiveRowByFilename (archive : obj (list archive_row))
    (filename : jstr) : option archive_row :=
  let fname := trim filename in
  if truthy fname then
    let hit rows :=
      find (fun r => str_eqb (trim (a_filename r)) fname) rows in
    (fix scan (decs : list (jstr * list archive_row)) :=
       match decs with
       | [] => None
       | (_, rows) :: rest =>
           match hit rows with
           | Some r => Some r
           | None => scan rest
           end
       end) archive
  else None.

(** The title the restore gives a tab (app.js 1144-1147, 1168-1171). *)
Definition restoredTitle (archive : obj (list archive_row))
    (t : persisted_tab) : jstr :=
  let baseFilename := trim (strip_dup_suffix (p_filename t)) in
  match findArchiveRowByFilename archive baseFilename with
  | Some row => trim (a_ui_label_2 row)
  | None => str_or (p_aimTitle t) (str_or (p_label t) (p_filename t))
  end.

(** One round of the loop of app.js 1139-1173. *)
Definition restore_tab (s : app) (t : persisted_tab) : app :=
  match get (p_filename t) (openPdfs s) with
  | Some _ => s
  | None =>
      let title := str_or (restoredTitle (archiveData s) t) (p_filename t) in
      let tab := {| tab_id := next_tab s; tab_text := title;
                    tab_active := false;
                    tab_onclose := CloseRestored (p_filename t) |} in
      let s :=
        with_next_tab (S (next_tab s)) (with_pdfTabs (pdfTabs s ++ [tab]) s)
      in
      with_openPdfs
        (set (p_filename t)
             {| e_tab := tab_id tab; e_url := p_url t; e_label := title;
                e_filename := None; e_aimTitle := title |}
             (openPdfs s)) s
  end.

(** [restoreStateFromSession()] (app.js 1120-1180). *)
Definition restoreStateFromSession (s : app) : app :=
  match session s with
  | None => s
  | Some state =>
      let s := fold_left restore_layer (enabledLayers state) s in
      match openTabs state with
      | [] => s
      | first :: _ =>
          activatePdfTab (p_filename first)
                         (fold_left restore_tab (openTabs state) s)
      end
  end.

(** What [pdfViewer.src] reads: the attribute resolved against the
    document. *)
Definition viewer_href (s : app) : jstr := doc_dir s ++ viewer_src s.

(** The close handler of a restored tab (app.js 1152-1161), [i] being the
    tab element it closes over. *)
Definition restored_close (i : nat) (filename : jstr) (s : app) : app :=
  let s := with_pdfTabs (remove_tab i (pdfTabs s)) s in
  let s := with_openPdfs (delete filename (openPdfs s)) s in
  let s := persistStateToSession s in
  if truthy (viewer_href s) && includes filename (viewer_href s) then
    match keys (openPdfs s) with
    | next :: _ =>
        if truthy next then activatePdfTab next s else with_viewer [] s
    | [] => with_viewer [] s
    end
  else s.

(** A click on the close button of the tab element [t]. *)
Definition click_close (t : tab_el) (s : app) : app :=
  match tab_onclose t with
  | CloseDirect k => closePdfTab k s
  | CloseRestored f => restored_close (tab_id t) f s
  end.

(** A click on the tab element itself: both kinds of tab activate their
    key (app.js 975, 1164-1166). *)
Definition click_tab (t : tab_el) (s : app) : app :=
  match tab_onclose t with
  | CloseDirect k => activatePdfTab k s
  | CloseRestored f => activatePdfTab f s
  end.

(* ================================================================== *)
(** * The floating window manager *)
(* ================================================================== *)

(** The computed [z-index] of an element: [auto] or an integer. *)
Inductive zindex := ZAuto | ZInt (z : Z).

(** The inline [display] of an element: not set, [flex] or [none]. *)
Inductive display := DispUnset | DispFlex | DispNone.

(** What the body of a window holds: an [iframe] or markup. *)
Inductive content :=
| PdfFrame (src : jstr)
| Markup (html : jstr).

(** A [.floating-window] element.  [w_dock], [w_key] and [w_title] are also
    what its button handlers close over. *)
Record fwin := {
  w_id : nat;
  w_pane : nat;
  w_dock : nat;
  w_key : jstr;          (* [data-key] *)
  w_title : jstr;
  w_body : content;
  w_display : display;
  w_zIndex : zindex;
  w_left : Z;            (* px *)
  w_top : Z              (* px *)
}.

(** A button of a dock; [b_win] is the window its handler closes over. *)
Record dock_btn := {
  b_id : nat;
  b_key : jstr;          (* [data-key] *)
  b_text : jstr;
  b_win : nat
}.

Record dock_st := { d_display : display; d_buttons : list dock_btn }.

Record page := {
  wins : list fwin;               (* every [.floating-window] of the document *)
  docks : list (nat * dock_st);
  next_el : nat;                  (* identity of the next element created *)
  css_zIndex : zindex             (* what the style sheet gives a new window *)
}.

Definition with_wins (x : list fwin) (p : page) : page :=
  {| wins := x; docks := docks p; next_el := next_el p;
     css_zIndex := css_zIndex p |}.

Fixpoint dock_lookup (d : nat) (ds : list (nat * dock_st)) : option dock_st :=
  match ds with
  | [] => None
  | (d', x) :: r => if Nat.eqb d' d then Some x else dock_lookup d r
  end.

(** The dock element [d]; a dock nothing was added to is empty. *)
Definition dock_of (d : nat) (p : page) : dock_st :=
  match dock_lookup d (docks p) with
  | Some x => x
  | None => {| d_display := DispUnset; d_buttons := [] |}
  end.

Definition with_dock (d : nat) (x : dock_st) (p : page) : page :=
  {| wins := wins p;
     docks := (d, x) :: filter (fun e => negb (Nat.eqb (fst e) d)) (docks p);
     next_el := next_el p; css_zIndex := css_zIndex p |}.

Definition set_zIndex (z : zindex) (w : fwin) : fwin :=
  {| w_id := w_id w; w_pane := w_pane w; w_dock := w_dock w;
     w_key := w_key w; w_title := w_title w; w_body := w_body w;
     w_display := w_display w; w_zIndex := z; w_left := w_left w;
     w_top := w_top w |}.

Definition set_display (d : display) (w : fwin) : fwin :=
  {| w_id := w_id w; w_pane := w_pane w; w_dock := w_dock w;
     w_key := w_key w; w_title := w_title w; w_body := w_body w;
     w_display := d; w_zIndex := w_zIndex w; w_left := w_left w;
     w_top := w_top w |}.

(** Applies [f] to the window element [i]. *)
Definition update_win (i : nat) (f : fwin -> fwin) (ws : list fwin)
  : list fwin :=
  map (fun w => if Nat.eqb (w_id w) i then f w else w) ws.

Definition front_base : Z := 10000.

(** One round of the loop of app.js 219-222: [parseInt] of [auto] is [NaN],
    which is never above [maxZ]. *)
Definition step_max (m : Z) (w : fwin) : Z :=
  match w_zIndex w with
  | ZInt z => if (z >? m)%Z then z else m
  | ZAuto => m
  end.

Definition maxZ (ws : list fwin) : Z := fold_left step_max ws front_base.

(** [bringToFront(winEl)] (app.js 215-224). *)
Definition bringToFront (i : nat) (p : page) : page :=
  with_wins (update_win i (set_zIndex (ZInt (maxZ (wins p) + 1))) (wins p)) p.

(** [ensureDockVisible(dockEl)] (app.js 271-273). *)
Definition ensureDockVisible (d : nat) (p : page) : page :=
  with_dock d {| d_display := DispFlex;
                 d_buttons := d_buttons (dock_of d p) |} p.

(** [maybeHideDock(dockEl)] (app.js 275-279). *)
Definition maybeHideDock (d : nat) (p : page) : page :=
  match d_buttons (dock_of d p) with
  | [] => with_dock d {| d_display := DispNone; d_buttons := [] |} p
  | _ :: _ => p
  end.

(** [paneEl.querySelector('.floating-window[data-key=...]')]. *)
Definition find_window (pane : nat) (key : jstr) (ws : list fwin)
  : option fwin :=
  find (fun w => Nat.eqb (w_pane w) pane && str_eqb (w_key w) key) ws.

(** [dockEl.querySelector('button[data-key=...]')]. *)
Definition find_button (key : jstr) (bs : list dock_btn) : option dock_btn :=
  find (fun b => str_eqb (b_key b) key) bs.

(** [b.remove()] for the button [i] of the dock [d]. *)
Definition remove_button (d i : nat) (p : page) : page :=
  with_dock d
    {| d_display := d_display (dock_of d p);
       d_buttons :=
         filter (fun b => negb (Nat.eqb (b_id b) i))
                (d_buttons (dock_of d p)) |} p.

Record fw_opts := {
  fw_key : jstr;
  fw_title : jstr;
  fw_pane : nat;
  fw_dock : nat;
  fw_type : jstr;
  fw_src : jstr;
  fw_html : jstr
}.

(** The markup of a window opened without any (app.js 339); 34 is the double
    quote. *)
Definition no_content : jstr :=
  lit "<div class=" ++ [34%N] ++ lit "sheet-wrap" ++ [34%N]
  ++ lit ">No content.</div>".

(** [openFloatingWindow(opts)] (app.js 281-386): the page after the call and
    the element returned. *)
Definition openFloatingWindow (o : fw_opts) (p : page) : page * nat :=
  match find_window (fw_pane o) (fw_key o) (wins p) with
  | Some existing =>
      let p := with_wins (update_win (w_id existing) (set_display DispFlex)
                                     (wins p)) p in
      let p := bringToFront (w_id existing) p in
      let p :=
        match find_button (fw_key o) (d_buttons (dock_of (fw_dock o) p)) with
        | Some b => maybeHideDock (fw_dock o) (remove_button (fw_dock o) (b_id b) p)
        | None => p
        end in
      (p, w_id existing)
  | None =>
      let body :=
        if str_eqb (fw_type o) (lit "pdf") then PdfFrame (fw_src o)
        else Markup (str_or (fw_html o) no_content)
      in
      let count :=
        Z.of_nat (List.length
                    (filter (fun w => Nat.eqb (w_pane w) (fw_pane o)) (wins p)))
      in
      let winEl :=
        {| w_id := next_el p; w_pane := fw_pane o; w_dock := fw_dock o;
           w_key := fw_key o; w_title := fw_title o; w_body := body;
           w_display := DispUnset; w_zIndex := css_zIndex p;
           w_left := 20 + count * 18; w_top := 80 + count * 18 |}%Z in
      let p :=
        {| wins := wins p ++ [winEl]; docks := docks p;
           next_el := S (next_el p); css_zIndex := css_zIndex p |} in
      (bringToFront (w_id winEl) p, w_id winEl)
  end.

(** The close button of the window [w] (app.js 351-356). *)
Definition close_window (w : fwin) (p : page) : page :=
  let p :=
    match find_button (w_key w) (d_buttons (dock_of (w_dock w) p)) with
    | Some b => remove_button (w_dock w) (b_id b) p
    | None => p
    end in
  let p :=
    with_wins (filter (fun x => negb (Nat.eqb (w_id x) (w_id w))) (wins p)) p
  in
  maybeHideDock (w_dock w) p.

(** The dock button [b] of the dock [d] (app.js 366-371). *)
Definition dock_click (d : nat) (b : dock_btn) (p : page) : page :=
  let p := with_wins (update_win (b_win b) (set_display DispFlex) (wins p)) p
  in
  let p := bringToFront (b_win b) p in
  maybeHideDock d (remove_button d (b_id b) p).

(** The minimize button of the window [w] (app.js 358-374). *)
Definition minimize_window (w : fwin) (p : page) : page :=
  let p := with_wins (update_win (w_id w) (set_display DispNone) (wins p)) p
  in
  let p := ensureDockVisible (w_dock w) p in
  match find_button (w_key w) (d_buttons (dock_of (w_dock w) p)) with
  | Some _ => p
  | None =>
      let dockBtn := {| b_id := next_el p; b_key := w_key w;
                        b_text := w_title w; b_win := w_id w |} in
      {| wins := wins p;
         docks := docks (with_dock (w_dock w)
                           {| d_display := d_display (dock_of (w_dock w) p);
                              d_buttons :=
                                d_buttons (dock_of (w_dock w) p) ++ [dockBtn] |}
                           p);
         next_el := S (next_el p); css_zIndex := css_zIndex p |}
  end.

(* ================================================================== *)
(** * Shapes the states of a running page have *)
(* ================================================================== *)

(** No two elements of the window layer are the same element, and elements
    created later are new. *)
Definition page_wf (p : page) : Prop :=
  NoDup (map w_id (wins p))
  /\ Forall (fun w => w_id w < next_el p) (wins p).

(** At most one window per key in a pane. *)
Definition pane_unique (ws : list fwin) : Prop :=
  NoDup (map (fun w => (w_pane w, w_key w)) ws).

(** [m] is the largest integer z-index among the windows [ws]. *)
Definition is_max_z (ws : list fwin) (m : Z) : Prop :=
  (exists w, In w ws /\ w_zIndex w = ZInt m)
  /\ forall w z, In w ws -> w_zIndex w = ZInt z -> (z <= m)%Z.

(** The z-index of the window element [i]. *)
Definition zIndex_of (i : nat) (ws : list fwin) : option zindex :=
  option_map w_zIndex (find (fun w => Nat.eqb (w_id w) i) ws).

(** The tab table and the tab strip of a running page: the keys are in
    enumeration order, the entries and the elements of the strip are the same
    elements, one per entry, every close button closes over the key of the
    entry of its tab, and elements created later are new. *)
Definition close_key (t : tab_el) : jstr :=
  match tab_onclose t with
  | CloseDirect k => k
  | CloseRestored f => f
  end.

Definition tabs_wf (s : app) : Prop :=
  ordered (openPdfs s)
  /\ NoDup (map tab_id (pdfTabs s))
  /\ NoDup (map e_tab (values (openPdfs s)))
  /\ (forall i, In i (map tab_id (pdfTabs s))
                <-> In i (map e_tab (values (openPdfs s))))
  /\ Forall (fun t => tab_id t < next_tab s) (pdfTabs s)
  /\ Forall (fun t => exists e, get (close_key t) (openPdfs s) = Some e
                                /\ e_tab e = tab_id t) (pdfTabs s).

(** What the shape of the tab strip depends on: the identity of each tab
    element and the key its handlers close over. *)
Definition strip_sig (ts : list tab_el) : list (nat * jstr) :=
  map (fun t => (tab_id t, close_key t)) ts.

Definition tabs_wf_core (o : obj pdf_entry) (sig : list (nat * jstr))
    (next : nat) : Prop :=
  ordered o
  /\ NoDup (map fst sig)
  /\ NoDup (map e_tab (values o))
  /\ (forall i, In i (map fst sig) <-> In i (map e_tab (values o)))
  /\ Forall (fun x => fst x < next) sig
  /\ Forall (fun x => exists e, get (snd x) o = Some e /\ e_tab e = fst x) sig.

(** The check boxes after the restore has replayed the identifiers [ids]
    over the boxes [bs] (the loop of app.js 1127-1135, on the boxes alone). *)
Definition check_restored (ids : list jstr) (bs : list checkbox)
  : list checkbox :=
  fold_left (fun bs id =>
               match find_input id bs with
               | Some i => check_at i true bs
               | None => bs
               end) ids bs.

(** The states a page goes through: it loads with no tab open (whatever the
    feeds, the defaults of the check boxes and the session store are), and
    then the user clicks check boxes, opens documents, clicks tabs and their
    close buttons, and the session is restored. *)
Inductive reachable : app -> Prop :=
| reach_load s :
    openPdfs s = [] -> pdfTabs s = [] -> activePdfKey s = None ->
    reachable s
| reach_toggle s i : reachable s -> reachable (toggle_box i s)
| reach_open s filename url aimTitle :
    reachable s -> reachable (openPdfInTab filename url aimTitle s)
| reach_click_tab s t :
    reachable s -> In t (pdfTabs s) -> reachable (click_tab t s)
| reach_click_close s t :
    reachable s -> In t (pdfTabs s) -> reachable (click_close t s)
| reach_restore s : reachable s -> reachable (restoreStateFromSession s).


(** The page after a reload of the page [s], once both feeds are loaded: the
    registry and the map [fresh_layers] and the check boxes [fresh] as the
    page load leaves them (the street overlay box checked, those of the
    default-on rows too), no tab, and the session store as [s] left it. *)
Definition reload (fresh_layers : layers_st) (fresh : list checkbox) (s : app)
  : app :=
  {| layers := fresh_layers; boxes := fresh; archiveData := archiveData s;
     openPdfs := []; activePdfKey := None; pdfTabs := []; next_tab := 0;
     viewer_src := []; doc_dir := doc_dir s; session := session s |}.

(* ================================================================== *)
(** * Restoring tabs and replaying them *)
(* ================================================================== *)

(** The tab half of [restoreStateFromSession] (app.js 1138-1176). *)
Definition restore_tabs (ts : list persisted_tab) (s : app) : app :=
  match ts with
  | [] => s
  | first :: _ =>
      activatePdfTab (p_filename first) (fold_left restore_tab ts s)
  end.

(** What the specification describes instead: [openPdfInTab] applied to the
    persisted (filename, url, title) in turn, then the first tab
    activated. *)
Definition replay_openPdfInTab (ts : list persisted_tab) (s : app) : app :=
  let s' :=
    fold_left (fun s t =>
                 openPdfInTab (p_filename t) (p_url t) (p_aimTitle t) s)
              ts s in
  match ts with
  | [] => s'
  | first :: _ => activatePdfTab (p_filename first) s'
  end.

(** A persisted tab whose document the archive feed has no row for and whose
    persisted title is not empty and has no white space around it. *)
Definition plain_title (archive : obj (list archive_row)) (t : persisted_tab)
  : Prop :=
  findArchiveRowByFilename archive (trim (strip_dup_suffix (p_filename t)))
  = None
  /\ truthy (p_aimTitle t) = true
  /\ trim (p_aimTitle t) = p_aimTitle t.

(** Two entries agree on their tab element and URL, and on label and title
    when [T] holds. *)
Definition entry_agree (T : Prop) (x y : pdf_entry) : Prop :=
  e_tab x = e_tab y /\ e_url x = e_url y
  /\ (T -> e_label x = e_label y /\ e_aimTitle x = e_aimTitle y).

Definition tab_agree (T : Prop) (x y : tab_el) : Prop :=
  tab_id x = tab_id y /\ (T -> tab_text x = tab_text y).

(** Two objects have the same keys in the same order, with values related
    by [P]. *)
Definition obj_agree {V} (P : V -> V -> Prop) (o1 o2 : obj V) : Prop :=
  Forall2 (fun x y => fst x = fst y /\ P (snd x) (snd y)) o1 o2.

(** The restore and the replay, part of the way through the same tabs. *)
Definition in_step (T : Prop) (archive : obj (list archive_row)) (a b : app)
  : Prop :=
  obj_agree (entry_agree T) (openPdfs a) (openPdfs b)
  /\ Forall2 (tab_agree T) (pdfTabs a) (pdfTabs b)
  /\ next_tab a = next_tab b
  /\ tabs_wf a /\ tabs_wf b
  /\ archiveData a = archive.

(* ================================================================== *)
(** * Sample pages *)
(* ================================================================== *)

Definition empty_map : leaflet_map :=
  {| on_map := []; layer_z := []; layer_opacity := [] |}.

Definition no_layers : layers_st :=
  {| overlays := []; overlayMeta := []; lmap := empty_map; next_layer := 0 |}.

(** A feed row of service kind [hybrid], and the registry holding it. *)
Definition hybrid_entry : overlay_entry :=
  {| collection_location := lit "Fredericton"; ui_group := lit "Basemaps";
     ui_label := lit "Imagery Hybrid"; service_type := lit "hybrid";
     url := []; default_on := lit "false" |}.

Definition hybrid_layers : layers_st :=
  addLayerForEntry true hybrid_entry no_layers.

(** The registry and the map as the page load leaves them with an empty
    imagery feed: OSM on the map (app.js 57-63) and the street overlay
    registered and enabled (app.js 640-644). *)
Definition builtin_layers : layers_st :=
  enableLayer (lit "Street Overlay")
    {| overlays :=
         set (lit "Street Overlay") (Single {| l_id := 1; l_class := TileLayer |})
             (set (lit "OSM") (Single {| l_id := 0; l_class := TileLayer |}) []);
       overlayMeta := [];
       lmap := addTo {| l_id := 0; l_class := TileLayer |} empty_map;
       next_layer := 2 |}.

Definition street_box (c : bool) : checkbox :=
  {| box_kind_of := BoxStreet; box_checked := c |}.

Definition osm_box (c : bool) : checkbox :=
  {| box_kind_of := BoxOsm; box_checked := c |}.

(** The page as it loads with an empty imagery feed: the street overlay box
    is checked (app.js 629), the OSM box is not. *)
Definition page0 : app :=
  {| layers := builtin_layers; boxes := [street_box true; osm_box false];
     archiveData := []; openPdfs := []; activePdfKey := None; pdfTabs := [];
     next_tab := 0; viewer_src := []; doc_dir := lit "http://localhost:8000/";
     session := None |}.

Definition report_url : jstr := lit "/static/pdfs/1920s/report.pdf".

Definition annual_url : jstr :=
  lit "/static/pdfs/1920s/Annual Report 1927.pdf".

(** [report.pdf] opened once, and opened twice. *)
Definition page1 : app :=
  openPdfInTab (lit "report.pdf") report_url (lit "Report") page0.

Definition page2 : app :=
  openPdfInTab (lit "report.pdf") report_url (lit "Report") page1.

(** The page reloaded with [report.pdf] open, its tab restored. *)
Definition restored1 : app :=
  restoreStateFromSession (reload builtin_layers (boxes page0) page1).

(** Two documents open, the first with spaces in its file name, and the page
    reloaded and restored. *)
Definition two_docs : app :=
  openPdfInTab (lit "b.pdf") (lit "/static/pdfs/1920s/b.pdf") (lit "B")
    (openPdfInTab (lit "Annual Report 1927.pdf") annual_url
                  (lit "Annual Report") page0).

Definition restored2 : app :=
  restoreStateFromSession (reload builtin_layers (boxes page0) two_docs).

(** A window layer with one window that was never raised. *)
Definition fresh_window (z : zindex) : fwin :=
  {| w_id := 0; w_pane := 0; w_dock := 0; w_key := lit "mosaic-meta-1924";
     w_title := lit "Mosaic Metadata (1924)"; w_body := Markup [];
     w_display := DispUnset; w_zIndex := z; w_left := 20; w_top := 80 |}.

Definition one_window (z : zindex) : page :=
  {| wins := [fresh_window z]; docks := []; next_el := 1; css_zIndex := z |}.

Definition meta_opts : fw_opts :=
  {| fw_key := lit "mosaic-meta-1924"; fw_title := lit "Mosaic Metadata (1924)";
     fw_pane := 0; fw_dock := 0; fw_type := lit "html"; fw_src := [];
     fw_html := [] |}.


(* ================================================================== *)
(** * URI decoding and the path helpers *)
(* ================================================================== *)

(** The octet two hexadecimal digits denote. *)
Definition hex_octet (h l : N) : option N :=
  match Uri.hex_val h, Uri.hex_val l with
  | Some a, Some b => Some (16 * a + b)%N
  | _, _ => None
  end.

(** The number of leading 1 bits of an octet (5 stands for five or more). *)
Definition leading_ones (b : N) : nat :=
  if (b <? 128)%N then 0
  else if (b <? 192)%N then 1
  else if (b <? 224)%N then 2
  else if (b <? 240)%N then 3
  else if (b <? 248)%N then 4
  else 5.

(** The bits the first octet of a sequence of [n] octets contributes. *)
Definition lead_payload (n : nat) (b : N) : N :=
  match n with
  | 2 => (b - 192)%N
  | 3 => (b - 224)%N
  | _ => (b - 240)%N
  end.

(** The [n] continuation octets of a sequence, each written [%XX] and of the
    form 10xxxxxx: the value read after [acc], and the rest of the string. *)
Fixpoint continuation (n : nat) (acc : N) (s : jstr) : option (N * jstr) :=
  match n with
  | O => Some (acc, s)
  | S n' =>
      match s with
      | p :: h :: l :: r =>
          if (p =? 37)%N then
            match hex_octet h l with
            | Some b =>
                if ((128 <=? b) && (b <=? 191))%N
                then continuation n' (64 * acc + (b - 128))%N r
                else None
            | None => None
            end
          else None
      | _ => None
      end
  end.

(** Whether [n] octets are the UTF-8 encoding of the code point [v]: not an
    overlong form, not a surrogate, not above U+10FFFF. *)
Definition utf8_valid (n : nat) (v : N) : bool :=
  match n with
  | 2 => (128 <=? v)%N
  | 3 => ((2048 <=? v) && negb ((55296 <=? v) && (v <=? 57343)))%N
  | 4 => ((65536 <=? v) && (v <=? 1114111))%N
  | _ => false
  end.

(** [decodeURIComponent(s)], [None] standing for the [URIError] it throws;
    [fuel] bounds the characters of the result. *)
Fixpoint decode_from (fuel : nat) (s : jstr) : option jstr :=
  match s with
  | [] => Some []
  | c :: r =>
      match fuel with
      | O => None
      | S fuel' =>
          if (c =? 37)%N then
            match r with
            | h :: l :: r1 =>
                match hex_octet h l with
                | None => None
                | Some b =>
                    match leading_ones b with
                    | O => option_map (cons b) (decode_from fuel' r1)
                    | S O => None
                    | S (S m) as n =>
                        if Nat.ltb 4 n then None
                        else
                          match continuation (S m) (lead_payload n b) r1 with
                          | Some (v, r2) =>
                              if utf8_valid n v
                              then option_map (cons v) (decode_from fuel' r2)
                              else None
                          | None => None
                          end
                    end
                end
            | _ => None
            end
          else option_map (cons c) (decode_from fuel' r)
      end
  end.

(** One unit of fuel per character of the string is enough
    ([decode_from_enough]). *)
Definition decodeURIComponent (s : jstr) : option jstr :=
  decode_from (List.length s) s.

(** The loop of [deepDecode] (app.js 106-114) with [rounds] rounds to go. *)
Fixpoint deepDecode_loop (rounds : nat) (out : jstr) : jstr :=
  match rounds with
  | O => out
  | S i =>
      match decodeURIComponent out with
      | Some dec => if str_eqb dec out then out else deepDecode_loop i dec
      | None => out
      end
  end.

(** [deepDecode(value, maxRounds = 3)] (app.js 104-116) on a string. *)
Definition deepDecode (value : jstr) (maxRounds : option nat) : jstr :=
  deepDecode_loop (match maxRounds with Some n => n | None => 3 end) value.

(** [encSeg(seg)] (app.js 118-123). *)
Definition encSeg (seg : jstr) : jstr :=
  Uri.encodeURIComponent (deepDecode seg None).

Definition is_slash (c : N) : bool := (c =? 47)%N.

(** The string does not begin with a slash. *)
Definition no_leading_slash (s : jstr) : bool :=
  match s with
  | c :: _ => negb (is_slash c)
  | [] => true
  end.

(** [s.replace(/\/+$/, '/')]: the first position from which the string is
    slashes to its end, if there is one, is where a single slash is put. *)
Fixpoint squeeze_trailing_slashes (s : jstr) : jstr :=
  match s with
  | [] => []
  | c :: r =>
      if is_slash c && forallb is_slash r then lit "/"
      else c :: squeeze_trailing_slashes r
  end.

(** [aimJoinPath(basePath, relPath)] (app.js 35-39). *)
Definition aimJoinPath (basePath relPath : jstr) : jstr :=
  let b := str_or basePath (lit "/") in
  let r := str_or relPath [] in
  squeeze_trailing_slashes b ++ drop_while is_slash r.

(** [s.endsWith('/')]. *)
Definition ends_with_slash (s : jstr) : bool :=
  match rev s with
  | c :: _ => is_slash c
  | [] => false
  end.

(** [path.replace(/[^/]*$/, '')]: cut at the first position from which the
    string has no slash. *)
Fixpoint drop_last_segment (s : jstr) : jstr :=
  if forallb (fun c => negb (is_slash c)) s then []
  else match s with
       | [] => []
       | c :: r => c :: drop_last_segment r
       end.

(** Where the base path is read from: the [pathname] of the URL the [href]
    of a [base] element resolves to ([None] when the [URL] constructor
    throws), or no such element. *)
Inductive base_element :=
| BaseHref (pathname : option jstr)
| NoBaseElement.

(** [AIM_BASE_PATH] (app.js 15-33), [location_pathname] being the [pathname]
    of the page. *)
Definition AIM_BASE_PATH (baseEl : base_element) (location_pathname : jstr)
  : jstr :=
  match baseEl with
  | BaseHref None => lit "/"
  | BaseHref (Some pathname) =>
      if ends_with_slash pathname then pathname else pathname ++ lit "/"
  | NoBaseElement =>
      let path := location_pathname in
      let base := if ends_with_slash path then path
                  else drop_last_segment path in
      if ends_with_slash base then base else base ++ lit "/"
  end.

(** [aimStaticUrl(relPath)] (app.js 41-43), [base] being [AIM_BASE_PATH]. *)
Definition aimStaticUrl (base relPath : jstr) : jstr :=
  aimJoinPath base (aimJoinPath (lit "static/") relPath).

(** [pdfUrl(pathSegments)] (app.js 130-137). *)
Definition pdfUrl (base : jstr) (pathSegments : list jstr) : jstr :=
  let clean :=
    Uri.join (lit "/")
             (map (fun s => deepDecode (str_or s []) None) pathSegments) in
  aimStaticUrl base (lit "pdfs/" ++ clean).

(** [mosaicProvenanceUrl(year)] (app.js 394-396). *)
Definition mosaicProvenanceUrl (base year : jstr) : jstr :=
  pdfUrl base [lit "Provenance"; lit "Historical Mosaics";
               lit "AIMFredericton_HAPMosaic_Provenance_" ++ year
               ++ lit ".pdf"].

(** A code point that is a scalar value. *)
Definition scalar (c : N) : bool :=
  ((c <? 55296) || (57344 <=? c) && (c <=? 1114111))%N.

(** [withPdfView(url, zoomPct = 100)] (app.js 87-97); [zoomPct] is a
    non-negative integer, as at the one call. *)
Definition withPdfView (url : jstr) (zoomPct : option N) : jstr :=
  let zoomPct := match zoomPct with Some z => z | None => 100%N end in
  let parts := Uri.split_on 35 url in
  let base := match parts with b :: _ => b | [] => [] end in
  let frag := match parts with _ :: f :: _ => Some f | _ => None end in
  let add :=
    lit "view=FitH&zoom=" ++ dec zoomPct ++ lit "&navpanes=0&pagemode=none" in
  match frag with
  | Some f =>
      if truthy f then base ++ lit "#" ++ f ++ lit "&" ++ add
      else base ++ lit "#" ++ add
  | None => base ++ lit "#" ++ add
  end.

(** The [iframe] [#pdf-viewer] as its [load] listener sees it: the [src]
    attribute and [dataset.appliedOnce]. *)
Record viewer_frame := {
  f_src : option jstr;
  f_appliedOnce : option jstr
}.

(** The [load] listener of the viewer (app.js 819-839). *)
Definition viewer_onload (v : viewer_frame) : viewer_frame :=
  let src := match f_src v with Some s => str_or s [] | None => [] end in
  if negb (truthy src) then v
  else if match f_appliedOnce v with
          | Some a => str_eqb a src
          | None => false
          end
  then v
  else if includes (lit "view=") src && includes (lit "zoom=") src
  then {| f_src := f_src v; f_appliedOnce := Some src |}
  else
    let fixed := withPdfView src (Some 75%N) in
    {| f_src := Some fixed; f_appliedOnce := Some fixed |}.

(** Whether [s] begins with a year of the pattern [19\d{2}|20\d{2}], and
    the year. *)
Definition year_here (s : jstr) : option jstr :=
  match s with
  | a :: b :: c :: d :: _ =>
      if ((a =? 49) && (b =? 57) || (a =? 50) && (b =? 48))%N
         && is_digit c && is_digit d
      then Some [a; b; c; d]
      else None
  | _ => None
  end.

(** [s.match(/(19\d{2}|20\d{2})/)]: the first position that matches. *)
Fixpoint first_year (s : jstr) : option jstr :=
  match year_here s with
  | Some y => Some y
  | None =>
      match s with
      | [] => None
      | _ :: r => first_year r
      end
  end.

(** The text [getYearFromEntry] searches. *)
Definition year_text (entry : overlay_entry) : jstr :=
  str_or (ui_label entry) [] ++ lit " " ++ str_or (ui_group entry) [].

(** [getYearFromEntry(entry)] (app.js 399-403). *)
Definition getYearFromEntry (entry : overlay_entry) : option jstr :=
  first_year (year_text entry).

(** A year as the buttons of a mosaic understand it: [19] or [20] and two
    digits. *)
Definition is_year (y : jstr) : Prop :=
  exists c d,
    (y = lit "19" ++ [c; d] \/ y = lit "20" ++ [c; d])
    /\ is_digit c = true /\ is_digit d = true.

(** A path segment as a feed may give it: the text [plain], or [plain]
    percent-encoded up to three times over. *)
Definition encoded_upto3 (seg plain : jstr) : Prop :=
  forallb scalar plain = true
  /\ ~ In 37%N plain
  /\ exists k, k <= 3 /\ seg = Nat.iter k Uri.encodeURIComponent plain.

(* ================================================================== *)
(** * The archive feed and the document list *)
(* ================================================================== *)

(** The decade a row of the archive feed is filed under (app.js 870). *)
Definition decade_of (r : archive_row) : jstr :=
  str_or (a_ui_group r) (lit "unknown").

(** One round of the loop of app.js 869-873.  An array, even an empty one,
    is truthy; [push] changes the array the property holds. *)
Definition file_row (archive : obj (list archive_row)) (r : archive_row)
  : obj (list archive_row) :=
  let d := decade_of r in
  let archive :=
    match get d archive with
    | Some _ => archive
    | None => set d [] archive
    end in
  match get d archive with
  | Some rows => set d (rows ++ [r]) archive
  | None => archive
  end.

(** [archiveData] once the feed [rows] is read (app.js 869-873). *)
Definition load_archive (rows : list archive_row)
    (archive : obj (list archive_row)) : obj (list archive_row) :=
  fold_left file_row rows archive.


(** [s.replace(/^searchable\s+/i, '')]; without the [u] flag the letters
    match in either case and no other character does. *)
Definition strip_searchable (s : jstr) : jstr :=
  if starts_with (lit "searchable") (toLowerCase s) then
    match skipn 10 s with
    | c :: r => if is_ws c then drop_while is_ws r else s
    | [] => s
    end
  else s.

(** [s.replace(/\s+/g, ' ')]: a white-space character followed by another
    goes, the last of a run becomes a space. *)
Fixpoint collapse_ws (s : jstr) : jstr :=
  match s with
  | [] => []
  | c :: r =>
      if is_ws c then
        match r with
        | c' :: _ => if is_ws c' then collapse_ws r else 32%N :: collapse_ws r
        | [] => [32%N]
        end
      else c :: collapse_ws r
  end.

(** The text of the option [populatePdfSelect] makes for a document
    (app.js 897-909). *)
Definition option_text (doc : archive_row) : jstr :=
  let ui1 := trim (str_or (a_ui_label_1 doc) []) in
  let ui2 := trim (str_or (a_ui_label_2 doc) []) in
  let ui1 := trim (strip_searchable ui1) in
  let label :=
    if truthy ui1 && truthy ui2
    then trim (collapse_ws (ui1 ++ lit " " ++ ui2))
    else str_or ui1 (str_or ui2 []) in
  str_or label (lit "Untitled document").

(** No white space at either end. *)
Definition trimmed (s : jstr) : Prop :=
  match s with
  | [] => True
  | c :: _ => is_ws c = false
  end
  /\ match rev s with
     | [] => True
     | c :: _ => is_ws c = false
     end.

(** Every white-space character is a single space between two others. *)
Fixpoint single_spaced (s : jstr) : Prop :=
  match s with
  | [] => True
  | c :: r =>
      (is_ws c = true ->
       c = 32%N /\ match r with
                   | c' :: _ => is_ws c' = false
                   | [] => True
                   end)
      /\ single_spaced r
  end.

(* ================================================================== *)
(** * The window layer as it runs *)
(* ================================================================== *)

(** A dock of a running page: its buttons are elements created before
    [next], no two are the same element or have the same key, and the dock
    is displayed exactly when it has a button. *)
Definition dock_ok (next : nat) (x : dock_st) : Prop :=
  Forall (fun b => b_id b < next) (d_buttons x)
  /\ NoDup (map b_id (d_buttons x))
  /\ NoDup (map b_key (d_buttons x))
  /\ (d_display x = DispFlex <-> d_buttons x <> []).

(** A dock after one of its buttons is removed and the dock hidden if that
    leaves it empty. *)
Definition without_button (i : nat) (x : dock_st) : dock_st :=
  match filter (fun b => negb (Nat.eqb (b_id b) i)) (d_buttons x) with
  | [] => {| d_display := DispNone; d_buttons := [] |}
  | bs => {| d_display := d_display x; d_buttons := bs |}
  end.

Definition window_layer_ok (p : page) : Prop :=
  page_wf p
  /\ pane_unique (wins p)
  /\ forall d, dock_ok (next_el p) (dock_of d p).

(** The pages the window layer goes through: no window at first, and then
    windows are opened, raised (a press of the mouse on a window, app.js 348
    and 229-231), closed, minimized and brought back from a dock. *)
Inductive win_reachable : page -> Prop :=
| win_start n z :
    win_reachable {| wins := []; docks := []; next_el := n; css_zIndex := z |}
| win_open o p :
    win_reachable p -> win_reachable (fst (openFloatingWindow o p))
| win_press w p :
    win_reachable p -> In w (wins p) -> win_reachable (bringToFront (w_id w) p)
| win_close w p :
    win_reachable p -> In w (wins p) -> win_reachable (close_window w p)
| win_minimize w p :
    win_reachable p -> In w (wins p) -> win_reachable (minimize_window w p)
| win_dock d b p :
    win_reachable p -> In b (d_buttons (dock_of d p)) ->
    win_reachable (dock_click d b p).

(** A page without floating windows, the metadata window of 1924 opened on
    it, and that window as the page then holds it. *)
Definition empty_page : page :=
  {| wins := []; docks := []; next_el := 0; css_zIndex := ZAuto |}.

Definition opened_page : page := fst (openFloatingWindow meta_opts empty_page).

Definition opened_window : fwin :=
  {| w_id := 0; w_pane := 0; w_dock := 0; w_key := lit "mosaic-meta-1924";
     w_title := lit "Mosaic Metadata (1924)"; w_body := Markup no_content;
     w_display := DispUnset; w_zIndex := ZInt 10001; w_left := 20;
     w_top := 80 |}.

(* ================================================================== *)
(** * Opening documents: the provenance windows and the archive buttons *)
(* ================================================================== *)

(** The panes and the docks of the page: [#left-pane] goes with
    [#map-window-dock], [#right-pane] with [#doc-window-dock]. *)
Definition left_pane : nat := 0.
Definition right_pane : nat := 1.
Definition map_window_dock : nat := 0.
Definition doc_window_dock : nat := 1.

(** The options of a provenance window: [{ zoom: 75, pagemode: 'none' }]. *)
Definition provenance_opts : option viewer_opts :=
  Some {| o_zoom := Some (VNum 75); o_page := None;
          o_pagemode := Some (VStr (lit "none")); o_view := None;
          o_aimTitle := None; o_title := None |}.

(** [openMosaicProvenanceWindow(year)] (app.js 470-481), [base] being
    [AIM_BASE_PATH]. *)
Definition openMosaicProvenanceWindow (base year : jstr) (p : page) : page :=
  fst (openFloatingWindow
         {| fw_key := lit "mosaic-prov-" ++ year;
            fw_title := lit "Mosaic Provenance (" ++ year ++ lit ")";
            fw_pane := left_pane; fw_dock := map_window_dock;
            fw_type := lit "pdf";
            fw_src := buildPdfJsViewerUrl (mosaicProvenanceUrl base year)
                                          provenance_opts;
            fw_html := [] |} p).




(** Text without a percent sign, every code point a scalar value. *)
Definition plain_text (s : jstr) : Prop :=
  forallb scalar s = true /\ ~ In 37%N s.



(* ================================================================== *)
(** * The overlay registry as it runs *)
(* ================================================================== *)

(** The registry when the script starts (app.js 50-63): OSM registered and on
    the map. *)
Definition osm_registry : layers_st :=
  {| overlays := set (lit "OSM") (Single {| l_id := 0; l_class := TileLayer |}) [];
     overlayMeta := [];
     lmap := addTo {| l_id := 0; l_class := TileLayer |} empty_map;
     next_layer := 1 |}.

(** [overlays['Street Overlay'] = L.esri.tiledMapLayer(...)] (app.js
    640-643). *)
Definition register_street (s : layers_st) : layers_st :=
  {| overlays := set (lit "Street Overlay")
                     (Single {| l_id := next_layer s; l_class := TileLayer |})
                     (overlays s);
     overlayMeta := overlayMeta s;
     lmap := lmap s;
     next_layer := S (next_layer s) |}.

(** The layer objects the registry holds were created before [next_layer],
    and no two identifiers share one. *)
Definition registry_wf (s : layers_st) : Prop :=
  (forall id r l,
      get id (overlays s) = Some r -> In l (members r) ->
      l_id l < next_layer s)
  /\ (forall id id' r r' l l',
         id <> id' ->
         get id (overlays s) = Some r -> get id' (overlays s) = Some r' ->
         In l (members r) -> In l' (members r') -> l_id l <> l_id l').

(** The registries of a running page: the script registers OSM, the feed
    rows and the street overlay, and then layers are enabled, removed and
    their opacity set. *)
Inductive registry_reachable : layers_st -> Prop :=
| reg_start : registry_reachable osm_registry
| reg_add ok entry s :
    registry_reachable s -> registry_reachable (addLayerForEntry ok entry s)
| reg_street s : registry_reachable s -> registry_reachable (register_street s)
| reg_enable id s :
    registry_reachable s -> registry_reachable (enableLayer id s)
| reg_remove id s :
    registry_reachable s -> registry_reachable (removeLayer id s)
| reg_opacity id v s :
    registry_reachable s -> registry_reachable (setLayerOpacity id v s).

(* ================================================================== *)
(** * The tab strip as it runs *)
(* ================================================================== *)

(** A tab marked active is the tab of the entry [activePdfKey] names. *)
Definition active_ok (s : app) : Prop :=
  forall t, In t (pdfTabs s) -> tab_active t = true ->
    exists k e,
      activePdfKey s = Some k /\ get k (openPdfs s) = Some e
      /\ e_tab e = tab_id t.

(** The session store holds the check boxes and the tabs of the page as
    they are. *)
Definition in_sync (s : app) : Prop :=
  session s
  = Some {| enabledLayers := enabled_ids (boxes s);
            openTabs := persisted_tabs (openPdfs s) |}.


(* ================================================================== *)
(** * The imagery feed: building the layer list *)
(* ================================================================== *)

(** The group a row of the imagery feed is listed under (app.js 611). *)
Definition group_of (row : overlay_entry) : jstr :=
  str_or (ui_group row) (lit "ungrouped").

(** One round of the loop of app.js 610-615: the row is filed under its group
    and its layer registered.  [esri_ok] says for which rows the calls into
    the Esri library return. *)
Definition group_row (esri_ok : overlay_entry -> bool)
    (st : obj (list overlay_entry) * layers_st) (row : overlay_entry)
  : obj (list overlay_entry) * layers_st :=
  let (grouped, l) := st in
  let g := group_of row in
  let grouped :=
    match get g grouped with
    | Some _ => grouped
    | None => set g [] grouped
    end in
  let grouped :=
    match get g grouped with
    | Some rows => set g (rows ++ [row]) grouped
    | None => grouped
    end in
  (grouped, addLayerForEntry (esri_ok row) row l).

(** The UTF-16 code units of a string. *)
Definition utf16 (s : jstr) : list N :=
  flat_map (fun c =>
              if (c <? 65536)%N then [c]
              else [(55296 + (c - 65536) / 1024)%N;
                    (56320 + (c - 65536) mod 1024)%N]) s.

Fixpoint units_ltb (a b : list N) : bool :=
  match a, b with
  | _, [] => false
  | [], _ :: _ => true
  | x :: a', y :: b' => (x <? y)%N || (x =? y)%N && units_ltb a' b'
  end.

(** [a < b] on strings: code unit by code unit, as the default comparison of
    [Array.prototype.sort] does. *)
Definition str_ltb (a b : jstr) : bool := units_ltb (utf16 a) (utf16 b).

Fixpoint insert_sorted (k : jstr) (l : list jstr) : list jstr :=
  match l with
  | [] => [k]
  | x :: r => if str_ltb x k then x :: insert_sorted k r else k :: l
  end.

(** [keys.sort()]: ascending, equal keys in the order they had. *)
Definition sort_keys (l : list jstr) : list jstr :=
  fold_right insert_sorted [] l.


(** The rows in the order the list shows them (app.js 671, 680): group by
    group, the groups sorted. *)
Definition listed (grouped : obj (list overlay_entry)) : list overlay_entry :=
  flat_map (fun group =>
              match get group grouped with
              | Some rows => rows
              | None => []
              end)
           (sort_keys (keys grouped)).

(** Whether the box of a row starts checked (app.js 691-692). *)
Definition default_checked (entry : overlay_entry) : bool :=
  let def := toLowerCase (str_or (default_on entry) []) in
  str_eqb def (lit "true") || str_eqb def (lit "yes") || str_eqb def (lit "1").

(** The check box made for a row (app.js 686-692). *)
Definition entry_box (entry : overlay_entry) : checkbox :=
  {| box_kind_of := BoxEntry (ui_label entry);
     box_checked := default_checked entry |}.

(** One round of the loop of app.js 680-782 on the page and the timers set
    so far: the check box of the row is added to the list, and a timer set
    that enables its layer if the box starts checked.  The opacity slider and
    the buttons of a mosaic, which the check boxes and the map do not depend
    on, are left out. *)
Definition add_entry_box (esri_ok : overlay_entry -> bool)
    (st : app * list jstr) (entry : overlay_entry) : app * list jstr :=
  let (s, timers) := st in
  let id := ui_label entry in
  let s :=
    match get id (overlays (layers s)) with
    | Some _ => s
    | None =>
        with_layers (addLayerForEntry (esri_ok entry) entry (layers s)) s
    end in
  let input := entry_box entry in
  (with_boxes (boxes s ++ [input]) s,
   if box_checked input then timers ++ [id] else timers).

(** The check box app.js 793 looks up for [key]: by [data-id], else by the
    [id] attribute [chk-...]. *)
Definition find_chk (key : jstr) (bs : list checkbox) : option nat :=
  match find_index (fun b => str_eqb (box_data_id b) key) bs with
  | Some i => Some i
  | None =>
      find_index
        (fun b => str_eqb (box_elem_id b) (lit "chk-" ++ cssSafeId key)) bs
  end.

(** Whether the rule of app.js 790-792 applies to a row.  The lower-case
    mapping yields an ASCII letter for A-Z, for U+212A (a [k]) and for U+0130
    (an [i] that U+0307 follows) only, so [imagery] is found exactly where
    it is after the mapping of A-Z. *)
Definition imagery_row (entry : overlay_entry) : bool :=
  let key := str_or (ui_label entry) [] in
  let urlVal := toLowerCase (str_or (url entry) []) in
  includes (lit "imagery") (toLowerCase key)
  || includes (lit "imagery") urlVal
  || includes (lit "imagerylabels") urlVal.

(** One round of the loop of app.js 789-799: the box of an imagery row that
    is not checked is checked and its [change] listener run. *)
Definition imagery_rule (s : app) (entry : overlay_entry) : app :=
  let key := str_or (ui_label entry) [] in
  if imagery_row entry then
    match find_chk key (boxes s) with
    | None => s
    | Some i =>
        match nth_error (boxes s) i with
        | None => s
        | Some chk =>
            if box_checked chk then s
            else on_change (set_checked true chk)
                           (with_boxes (check_at i true (boxes s)) s)
        end
    end
  else s.

(** App.js 617-799 once the street overlay is created: the list is emptied,
    the street box (checked, its layer registered and enabled) and the OSM
    box are put first, then the boxes of the rows, and the imagery rule is
    applied.  The result is the page and the timers set. *)
Definition build_boxes (esri_ok : overlay_entry -> bool)
    (grouped : obj (list overlay_entry)) (rows : list overlay_entry)
    (s : app) : app * list jstr :=
  let s := with_boxes [street_box true] s in
  let s :=
    with_layers (enableLayer (lit "Street Overlay")
                             (register_street (layers s))) s in
  let s := with_boxes (boxes s ++ [osm_box false]) s in
  let (s, timers) := fold_left (add_entry_box esri_ok) (listed grouped) (s, [])
  in
  (fold_left imagery_rule rows s, timers).

(** What the page does when the imagery feed [rows] arrives (app.js
    607-806).  [street_ok] says whether the layer of the street overlay can
    be created (app.js 640); when it cannot, the [catch] of app.js 803-806
    replaces the list by a message and the session is not restored. *)
Definition load_imagery (esri_ok : overlay_entry -> bool) (street_ok : bool)
    (rows : list overlay_entry) (s : app) : app * list jstr :=
  let (grouped, l) := fold_left (group_row esri_ok) rows ([], layers s) in
  let s := with_layers l s in
  if street_ok then
    let (s, timers) := build_boxes esri_ok grouped rows s in
    (restoreStateFromSession s, timers)
  else (with_boxes [] s, []).

(** The timers of the load fire (app.js 781), in the order they were set. *)
Definition run_timers (timers : list jstr) (s : app) : app :=
  fold_left (fun s id => with_layers (enableLayer id (layers s)) s) timers s.

(** Every layer object registered under [id] is on the map. *)
Definition shown (id : jstr) (s : layers_st) : Prop :=
  forall r l,
    get id (overlays s) = Some r -> In l (members r) ->
    hasLayer l (lmap s) = true.

(** Every checked box has its layers on the map or a timer pending that
    will put them there. *)
Definition boxes_shown (pending : list jstr) (s : app) : Prop :=
  forall b,
    In b (boxes s) -> box_checked b = true ->
    shown (box_data_id b) (layers s) \/ In (box_data_id b) pending.






(* ================================================================== *)
(** * Properties: the overlay registry *)
(* ================================================================== *)

Section Leaflet_facts.

Lemma memb_In i l : memb i l = true <-> In i l.
Proof.
  unfold memb. rewrite existsb_exists. split.
  - intros [x [Hx He]]. apply Nat.eqb_eq in He. now subst.
  - intros H. exists i. split; [assumption | apply Nat.eqb_refl].
Qed.

Lemma memb_app_self i l : memb i (l ++ [i]) = true.
Proof. apply memb_In, in_or_app. right. now left. Qed.

Lemma memb_app_l i l l' : memb i l = true -> memb i (l ++ l') = true.
Proof. rewrite !memb_In. intros H. apply in_or_app. now left. Qed.

Lemma hasLayer_addTo l m : hasLayer l (addTo l m) = true.
Proof.
  unfold addTo. destruct (hasLayer l m) eqn:E; [assumption |].
  unfold hasLayer. simpl. apply memb_app_self.
Qed.

Lemma hasLayer_addTo_mono l l' m :
  hasLayer l m = true -> hasLayer l (addTo l' m) = true.
Proof.
  intros H. unfold addTo. destruct (hasLayer l' m); [assumption |].
  unfold hasLayer in *. simpl. now apply memb_app_l.
Qed.

Lemma hasLayer_setZIndex l l' z m :
  hasLayer l (setZIndex l' z m) = hasLayer l m.
Proof. unfold setZIndex. now destruct (l_class l'). Qed.

Lemma hasLayer_bringToFront l l' m :
  hasLayer l m = true -> hasLayer l (layer_bringToFront l' m) = true.
Proof.
  intros H. unfold layer_bringToFront.
  destruct (hasLayer l' m) eqn:E; [| assumption].
  unfold hasLayer in *. simpl. apply memb_In.
  apply memb_In in H. apply in_or_app.
  destruct (Nat.eq_dec (l_id l) (l_id l')) as [e | n].
  - right. rewrite e. now left.
  - left. apply filter_In. split; [assumption |].
    apply negb_true_iff, Nat.eqb_neq. exact n.
Qed.

Lemma hasLayer_removed l m : hasLayer l (map_removeLayer l m) = false.
Proof.
  unfold hasLayer, map_removeLayer. simpl.
  destruct (memb _ _) eqn:E; [| reflexivity].
  apply memb_In, filter_In in E. destruct E as [_ E].
  now rewrite Nat.eqb_refl in E.
Qed.

Lemma hasLayer_remove_other l l' m :
  hasLayer l m = false -> hasLayer l (map_removeLayer l' m) = false.
Proof.
  unfold hasLayer, map_removeLayer. simpl. intros H.
  destruct (memb (l_id l) (filter _ _)) eqn:E; [| reflexivity].
  apply memb_In, filter_In in E. destruct E as [E _].
  apply memb_In in E. congruence.
Qed.

Lemma overlays_enableLayer id s :
  overlays (enableLayer id s) = overlays s.
Proof.
  unfold enableLayer. destruct (get id (overlays s)) as [[l | a b] |];
    reflexivity.
Qed.

End Leaflet_facts.

(** C6.  For every registered overlay identifier, [enableLayer] puts every
    member layer of its runtime on the map, and [removeLayer] after it leaves
    none of them there; the two members of a paired runtime go on and off
    together. *)
Theorem enable_then_remove_detaches (s : layers_st) (id : jstr) (r : runtime) :
  get id (overlays s) = Some r ->
  (forall l, In l (members r) ->
             hasLayer l (lmap (enableLayer id s)) = true)
  /\ (forall l, In l (members r) ->
                hasLayer l (lmap (removeLayer id (enableLayer id s))) = false).
Proof.
  intros Hr. split.
  - intros l Hl. unfold enableLayer. rewrite Hr.
    destruct r as [l0 | img lbl]; simpl in Hl.
    + destruct Hl as [E | []]. subst l0. simpl.
      destruct (_ && _); [apply hasLayer_bringToFront |]; apply hasLayer_addTo.
    + simpl. rewrite hasLayer_setZIndex.
      destruct Hl as [E | [E | []]]; subst l.
      * destruct (hasLayer img (lmap s)) eqn:E.
        -- destruct (hasLayer lbl (lmap s)); [assumption |].
           now apply hasLayer_addTo_mono.
        -- destruct (hasLayer lbl (addTo img (lmap s)));
             [| apply hasLayer_addTo_mono]; apply hasLayer_addTo.
      * destruct (hasLayer img (lmap s)) eqn:E;
          match goal with
          | |- context [if hasLayer lbl ?m then _ else _] =>
              destruct (hasLayer lbl m) eqn:E';
                [assumption | apply hasLayer_addTo]
          end.
  - intros l Hl. unfold removeLayer. rewrite overlays_enableLayer, Hr.
    destruct r as [l0 | img lbl]; simpl in Hl.
    + destruct Hl as [E | []]. subst l0. simpl. apply hasLayer_removed.
    + simpl. set (m := lmap (enableLayer id s)).
      destruct Hl as [E | [E | []]]; subst l.
      * destruct (hasLayer img m) eqn:E.
        -- destruct (hasLayer lbl (map_removeLayer img m));
             [apply hasLayer_remove_other |]; apply hasLayer_removed.
        -- destruct (hasLayer lbl m); [apply hasLayer_remove_other |];
             assumption.
      * match goal with
        | |- context [if hasLayer lbl ?m' then _ else _] =>
            destruct (hasLayer lbl m') eqn:E';
              [apply hasLayer_removed | assumption]
        end.
Qed.

Lemma enable_then_remove_detaches_witness :
  get (lit "Imagery Hybrid") (overlays hybrid_layers)
  = Some (Paired {| l_id := 0; l_class := TileLayer |}
                 {| l_id := 1; l_class := TileLayer |})
  /\ on_map (lmap (enableLayer (lit "Imagery Hybrid") hybrid_layers)) = [0; 1]
  /\ on_map (lmap (removeLayer (lit "Imagery Hybrid")
                     (enableLayer (lit "Imagery Hybrid") hybrid_layers))) = []
  /\ hasLayer {| l_id := 1; l_class := TileLayer |}
       (lmap (removeLayer (lit "Imagery Hybrid")
                (enableLayer (lit "Imagery Hybrid") hybrid_layers))) = false.
Proof.
  split; [reflexivity |]. split; [reflexivity |]. split; [reflexivity |].
  apply (proj2 (enable_then_remove_detaches hybrid_layers
                  (lit "Imagery Hybrid") _ eq_refl)).
  simpl. right. left. reflexivity.
Defined.

(** The map after [setLayerOpacity] differs from the map before at most in
    the opacity of layers. *)
Lemma setLayerOpacity_on_map id v s :
  on_map (lmap (setLayerOpacity id v s)) = on_map (lmap s).
Proof.
  unfold setLayerOpacity.
  destruct (get id (overlays s)) as [[l | img lbl] |]; try reflexivity.
  - now destruct (has_setOpacity l).
  - destruct (has_setOpacity img); [reflexivity |].
    now destruct (has_setOpacity lbl).
Qed.

Lemma opacity_of_set_same i v os : opacity_of i ((i, v) :: os) = v.
Proof. simpl. now rewrite Nat.eqb_refl. Qed.

Lemma opacity_of_set_other i j v os :
  j <> i -> opacity_of i ((j, v) :: os) = opacity_of i os.
Proof. intros H. simpl. apply Nat.eqb_neq in H. now rewrite H. Qed.

(** C7, as stated, fails: the registry holding the [hybrid] row has the pair
    of two tile layers, both with [setOpacity], under [Imagery Hybrid];
    [setLayerOpacity] at one half sets the imagery member and leaves the label
    member at its opacity [1]. *)
Lemma setLayerOpacity_pair_skips_labels :
  let s := hybrid_layers in
  let img := {| l_id := 0; l_class := TileLayer |} in
  let lbl := {| l_id := 1; l_class := TileLayer |} in
  let s' := setLayerOpacity (lit "Imagery Hybrid") (1 # 2)%Q s in
  get (lit "Imagery Hybrid") (overlays s) = Some (Paired img lbl)
  /\ has_setOpacity img = true
  /\ has_setOpacity lbl = true
  /\ opacity_of (l_id img) (layer_opacity (lmap s')) = (1 # 2)%Q
  /\ opacity_of (l_id lbl) (layer_opacity (lmap s')) = 1%Q
  /\ opacity_of (l_id lbl) (layer_opacity (lmap s')) <> (1 # 2)%Q.
Proof.
  cbv zeta. repeat split; try reflexivity. discriminate.
Qed.

(** C7, amended.  [setLayerOpacity(id, v)] gives [v] to one layer, the first
    of these that has an opacity control: the registered object itself, its
    imagery member, its label member.  So the only member of a single-layer
    runtime receives [v] when it has the control, the imagery member of a
    pair receives [v] when it has the control and then the label member keeps
    the opacity it had, and the label member receives [v] only when the
    imagery member has no control.  No other layer changes. *)
Theorem setLayerOpacity_first_with_control
    (s : layers_st) (id : jstr) (r : runtime) (v : number) :
  get id (overlays s) = Some r ->
  let before i := opacity_of i (layer_opacity (lmap s)) in
  let after i := opacity_of i (layer_opacity (lmap (setLayerOpacity id v s))) in
  match r with
  | Single l =>
      if has_setOpacity l
      then after (l_id l) = v /\ forall i, i <> l_id l -> after i = before i
      else forall i, after i = before i
  | Paired img lbl =>
      if has_setOpacity img
      then after (l_id img) = v
           /\ forall i, i <> l_id img -> after i = before i
      else if has_setOpacity lbl
           then after (l_id lbl) = v
                /\ forall i, i <> l_id lbl -> after i = before i
           else forall i, after i = before i
  end.
Proof.
  intros Hr before after. subst before after. unfold setLayerOpacity.
  rewrite Hr. destruct r as [l | img lbl].
  - destruct (has_setOpacity l); [| reflexivity]. simpl. split.
    + now rewrite Nat.eqb_refl.
    + intros i Hi. apply Nat.neq_sym, Nat.eqb_neq in Hi. now rewrite Hi.
  - destruct (has_setOpacity img).
    + simpl. split.
      * now rewrite Nat.eqb_refl.
      * intros i Hi. apply Nat.neq_sym, Nat.eqb_neq in Hi. now rewrite Hi.
    + destruct (has_setOpacity lbl); [| reflexivity]. simpl. split.
      * now rewrite Nat.eqb_refl.
      * intros i Hi. apply Nat.neq_sym, Nat.eqb_neq in Hi. now rewrite Hi.
Qed.

Lemma setLayerOpacity_first_with_control_witness :
  get (lit "Imagery Hybrid") (overlays hybrid_layers)
  = Some (Paired {| l_id := 0; l_class := TileLayer |}
                 {| l_id := 1; l_class := TileLayer |})
  /\ opacity_of 0 (layer_opacity
                     (lmap (setLayerOpacity (lit "Imagery Hybrid") (1 # 2)%Q
                                            hybrid_layers))) = (1 # 2)%Q
  /\ opacity_of 1 (layer_opacity
                     (lmap (setLayerOpacity (lit "Imagery Hybrid") (1 # 2)%Q
                                            hybrid_layers)))
     = opacity_of 1 (layer_opacity (lmap hybrid_layers)).
Proof.
  split; [reflexivity |].
  pose proof (setLayerOpacity_first_with_control hybrid_layers
                (lit "Imagery Hybrid") _ (1 # 2)%Q eq_refl) as H.
  cbv beta iota zeta in H.
  change (has_setOpacity {| l_id := 0; l_class := TileLayer |}) with true in H.
  destruct H as [H1 H2]. split.
  - exact H1.
  - apply (H2 1). discriminate.
Defined.

(* ================================================================== *)
(** * Properties: the floating window manager *)
(* ================================================================== *)

Section Window_facts.

Lemma maxZ_fold ws : maxZ ws = fold_left step_max ws front_base.
Proof. reflexivity. Qed.

Lemma step_max_ge m w : (m <= step_max m w)%Z.
Proof.
  unfold step_max. destruct (w_zIndex w) as [| z]; [lia |].
  destruct (Z.gtb_spec z m); lia.
Qed.

Lemma fold_max_ge_init ws : forall m, (m <= fold_left step_max ws m)%Z.
Proof.
  induction ws as [| w ws IH]; intros m; simpl; [lia |].
  specialize (IH (step_max m w)). pose proof (step_max_ge m w). lia.
Qed.

Lemma fold_max_ge ws :
  forall m w z, In w ws -> w_zIndex w = ZInt z ->
                (z <= fold_left step_max ws m)%Z.
Proof.
  induction ws as [| x ws IH]; intros m w z Hin Hz; [contradiction |].
  simpl. destruct Hin as [-> | Hin].
  - pose proof (fold_max_ge_init ws (step_max m w)) as H.
    assert (z <= step_max m w)%Z; [| lia].
    unfold step_max. rewrite Hz. destruct (Z.gtb_spec z m); lia.
  - now apply IH with (w := w).
Qed.

Lemma fold_max_attained ws :
  forall m, fold_left step_max ws m = m
            \/ exists w, In w ws
                         /\ w_zIndex w = ZInt (fold_left step_max ws m).
Proof.
  induction ws as [| x ws IH]; intros m; simpl; [now left |].
  destruct (IH (step_max m x)) as [E | [w [Hin Hw]]].
  - rewrite E. unfold step_max.
    destruct (w_zIndex x) as [| z] eqn:Hz; [now left |].
    destruct (Z.gtb_spec z m); [| now left].
    right. exists x. split; [now left | assumption].
  - right. exists w. split; [now right | assumption].
Qed.

Lemma maxZ_floor ws : (front_base <= maxZ ws)%Z.
Proof. rewrite maxZ_fold. apply fold_max_ge_init. Qed.

Lemma maxZ_bounds ws w z :
  In w ws -> w_zIndex w = ZInt z -> (z <= maxZ ws)%Z.
Proof. rewrite maxZ_fold. apply fold_max_ge. Qed.

Lemma maxZ_of_max ws m : is_max_z ws m -> maxZ ws = Z.max front_base m.
Proof.
  intros [[w [Hin Hw]] Hub].
  pose proof (maxZ_floor ws) as Hf.
  pose proof (maxZ_bounds ws w m Hin Hw) as Hm.
  rewrite maxZ_fold in *.
  destruct (fold_max_attained ws front_base) as [E | [x [Hx Hzx]]].
  - lia.
  - specialize (Hub x _ Hx Hzx). lia.
Qed.

Lemma maxZ_no_integer ws :
  (forall w z, In w ws -> w_zIndex w <> ZInt z) -> maxZ ws = front_base.
Proof.
  intros H. rewrite maxZ_fold.
  destruct (fold_max_attained ws front_base) as [E | [x [Hx Hzx]]];
    [assumption |].
  now elim (H x _ Hx Hzx).
Qed.

Lemma find_update_win_same i f ws w :
  In w ws -> w_id w = i -> (forall x, w_id (f x) = w_id x) ->
  exists x, In x ws /\ w_id x = i
            /\ find (fun y => Nat.eqb (w_id y) i) (update_win i f ws)
               = Some (f x)
            /\ find (fun y => Nat.eqb (w_id y) i) ws = Some x.
Proof.
  intros Hin Hid Hf. induction ws as [| y ws IH]; [contradiction |].
  simpl. destruct (Nat.eqb (w_id y) i) eqn:E.
  - exists y. rewrite Hf, E. apply Nat.eqb_eq in E.
    split; [now left |]. split; [exact E |]. split; reflexivity.
  - rewrite E. destruct Hin as [-> | Hin].
    + apply Nat.eqb_neq in E. contradiction.
    + destruct (IH Hin) as [x [Hx [Hxi [H1 H2]]]].
      exists x. split; [now right |]. split; [exact Hxi |].
      split; assumption.
Qed.

Lemma find_update_win_other i j f ws :
  j <> i -> (forall x, w_id (f x) = w_id x) ->
  find (fun y => Nat.eqb (w_id y) j) (update_win i f ws)
  = find (fun y => Nat.eqb (w_id y) j) ws.
Proof.
  intros Hne Hf. induction ws as [| y ws IH]; [reflexivity |].
  simpl. destruct (Nat.eqb (w_id y) i) eqn:E.
  - rewrite Hf. apply Nat.eqb_eq in E.
    assert (Nat.eqb (w_id y) j = false) as ->
        by (apply Nat.eqb_neq; congruence).
    exact IH.
  - destruct (Nat.eqb (w_id y) j); [reflexivity | exact IH].
Qed.

Lemma map_update_win {B} (g : fwin -> B) i f ws :
  (forall x, g (f x) = g x) -> map g (update_win i f ws) = map g ws.
Proof.
  intros H. unfold update_win. rewrite map_map. apply map_ext.
  intros x. destruct (Nat.eqb (w_id x) i); [apply H | reflexivity].
Qed.

Lemma zIndex_of_In i ws z :
  zIndex_of i ws = Some z ->
  exists w, In w ws /\ w_id w = i /\ w_zIndex w = z.
Proof.
  unfold zIndex_of. destruct (find _ ws) as [w |] eqn:E; [| discriminate].
  intros [= <-]. apply find_some in E. destruct E as [Hin Hid].
  apply Nat.eqb_eq in Hid. now exists w.
Qed.

End Window_facts.

(** C8, as stated, fails below the floor of 10000 the function starts its
    maximum at: a page whose only window has z-index 3 has the maximum 3, and
    raising the window gives it 10001, not 4; and where no window has an
    integer z-index (the window was never raised and the style sheet gives it
    none) there is no maximum to be one above, and the window gets 10001. *)
Lemma bringToFront_not_one_above_max :
  (is_max_z (wins (one_window (ZInt 3))) 3
   /\ zIndex_of 0 (wins (bringToFront 0 (one_window (ZInt 3))))
      = Some (ZInt 10001)
   /\ ~ exists m, is_max_z (wins (one_window (ZInt 3))) m
                  /\ zIndex_of 0 (wins (bringToFront 0 (one_window (ZInt 3))))
                     = Some (ZInt (m + 1)))
  /\ (zIndex_of 0 (wins (bringToFront 0 (one_window ZAuto)))
      = Some (ZInt 10001)
      /\ ~ exists m, is_max_z (wins (one_window ZAuto)) m
                     /\ zIndex_of 0 (wins (bringToFront 0 (one_window ZAuto)))
                        = Some (ZInt (m + 1))).
Proof.
  split; [split; [| split] | split].
  - split.
    + exists (fresh_window (ZInt 3)). split; [now left | reflexivity].
    + intros w z [<- | []] [= <-]. lia.
  - reflexivity.
  - intros [m [[[w [[<- | []] Hw]] _] Hz]].
    injection Hw as <-. discriminate Hz.
  - reflexivity.
  - intros [m [[[w [[<- | []] Hw]] _] _]]. discriminate Hw.
Qed.

(** C8, amended.  [bringToFront(w)] sets the z-index of [w] to one more than
    the larger of 10000 and the largest integer z-index among all floating
    windows of the page, whatever their pane: it is above 10000 and above
    every window's z-index, it is one more than the maximum when that is at
    least 10000, and it is 10001 when no window has an integer z-index.  No
    other window changes. *)
Theorem bringToFront_above_all (p : page) (w : fwin) :
  In w (wins p) ->
  exists z',
    zIndex_of (w_id w) (wins (bringToFront (w_id w) p)) = Some (ZInt z')
    /\ (10000 < z')%Z
    /\ (forall x z, In x (wins p) -> w_zIndex x = ZInt z -> (z < z')%Z)
    /\ (forall m, is_max_z (wins p) m -> z' = (Z.max 10000 m + 1)%Z)
    /\ ((forall x z, In x (wins p) -> w_zIndex x <> ZInt z) -> z' = 10001%Z)
    /\ (forall i, i <> w_id w ->
                  find (fun y => Nat.eqb (w_id y) i)
                       (wins (bringToFront (w_id w) p))
                  = find (fun y => Nat.eqb (w_id y) i) (wins p)).
Proof.
  intros Hin. exists (maxZ (wins p) + 1)%Z. repeat split.
  - unfold bringToFront, zIndex_of. simpl.
    destruct (find_update_win_same (w_id w)
                (set_zIndex (ZInt (maxZ (wins p) + 1))) (wins p) w Hin eq_refl)
      as [x [_ [_ [H _]]]]; [reflexivity |].
    now rewrite H.
  - pose proof (maxZ_floor (wins p)). unfold front_base in *. lia.
  - intros x z Hx Hz. pose proof (maxZ_bounds _ _ _ Hx Hz). lia.
  - intros m Hm. rewrite (maxZ_of_max _ _ Hm). reflexivity.
  - intros Hno. now rewrite (maxZ_no_integer _ Hno).
  - intros i Hi. unfold bringToFront. simpl.
    now apply find_update_win_other.
Qed.

Lemma bringToFront_above_all_witness :
  In (fresh_window (ZInt 3)) (wins (one_window (ZInt 3)))
  /\ exists z',
      zIndex_of 0 (wins (bringToFront 0 (one_window (ZInt 3))))
      = Some (ZInt z')
      /\ (3 < z')%Z.
Proof.
  assert (In (fresh_window (ZInt 3)) (wins (one_window (ZInt 3)))) as Hin
      by (simpl; left; reflexivity).
  split; [exact Hin |].
  destruct (bringToFront_above_all (one_window (ZInt 3))
              (fresh_window (ZInt 3)) Hin) as [z' [H1 [_ [H3 _]]]].
  exists z'. split; [exact H1 |].
  apply (H3 (fresh_window (ZInt 3)) 3%Z Hin eq_refl).
Defined.

Section Open_window_facts.

Lemma dock_lookup_filter_ne d d' ds :
  d' <> d ->
  dock_lookup d' (filter (fun e => negb (Nat.eqb (fst e) d)) ds)
  = dock_lookup d' ds.
Proof.
  intros Hne. induction ds as [| [k x] ds IH]; [reflexivity |].
  simpl. destruct (Nat.eqb k d) eqn:E; simpl.
  - apply Nat.eqb_eq in E. subst k.
    assert (Nat.eqb d d' = false) as -> by (apply Nat.eqb_neq; congruence).
    exact IH.
  - destruct (Nat.eqb k d'); [reflexivity | exact IH].
Qed.

Lemma dock_of_with_dock d x p : dock_of d (with_dock d x p) = x.
Proof. unfold dock_of, with_dock. simpl. now rewrite Nat.eqb_refl. Qed.

Lemma dock_of_with_dock_ne d d' x p :
  d' <> d -> dock_of d' (with_dock d x p) = dock_of d' p.
Proof.
  intros Hne. unfold dock_of, with_dock. simpl.
  assert (Nat.eqb d d' = false) as -> by (apply Nat.eqb_neq; congruence).
  now rewrite dock_lookup_filter_ne.
Qed.


Lemma wins_maybeHideDock d p : wins (maybeHideDock d p) = wins p.
Proof.
  unfold maybeHideDock. now destruct (d_buttons (dock_of d p)).
Qed.

Lemma In_update_win_other i f ws x :
  In x (update_win i f ws) -> (forall y, w_id (f y) = w_id y) ->
  w_id x <> i -> In x ws.
Proof.
  unfold update_win. intros Hin Hf Hne. apply in_map_iff in Hin.
  destruct Hin as [y [Hy Hin]].
  destruct (Nat.eqb (w_id y) i) eqn:E.
  - apply Nat.eqb_eq in E. subst x. rewrite Hf in Hne. contradiction.
  - now subst y.
Qed.

Lemma In_update_win_same i f ws w :
  In w ws -> w_id w = i -> In (f w) (update_win i f ws).
Proof.
  intros Hin Hid. unfold update_win. apply in_map_iff. exists w.
  split; [| exact Hin]. rewrite Hid. now rewrite Nat.eqb_refl.
Qed.


Lemma find_window_none pane key ws :
  find_window pane key ws = None ->
  ~ In (pane, key) (map (fun w => (w_pane w, w_key w)) ws).
Proof.
  unfold find_window. intros H Hin. apply in_map_iff in Hin.
  destruct Hin as [w [Hw Hin]]. injection Hw as H1 H2.
  pose proof (find_none _ _ H w Hin) as Hf. simpl in Hf.
  rewrite H1, Nat.eqb_refl in Hf. unfold str_eqb in Hf.
  destruct (jstr_eq_dec (w_key w) key); [discriminate | contradiction].
Qed.

Lemma NoDup_snoc {A} (l : list A) (x : A) :
  NoDup l -> ~ In x l -> NoDup (l ++ [x]).
Proof.
  intros Hl Hx. apply NoDup_rev in Hl.
  rewrite <- (rev_involutive (l ++ [x])). apply NoDup_rev.
  rewrite rev_app_distr. simpl. constructor; [| assumption].
  now rewrite <- in_rev.
Qed.

End Open_window_facts.



(* ================================================================== *)
(** * Properties: the viewer launch URL *)
(* ================================================================== *)

Section Uri_facts.
Import Uri.

Lemma form_byte_decode b rest :
  pct_decode true (form_byte b ++ rest) = b :: pct_decode true rest.
Proof. destruct b as [[] [] [] [] [] [] [] []]; reflexivity. Qed.

Lemma uri_byte_decode b rest :
  pct_decode false (uri_byte b ++ rest) = b :: pct_decode false rest.
Proof. destruct b as [[] [] [] [] [] [] [] []]; reflexivity. Qed.

Lemma form_byte_no_sep b : forallb no_sep (form_byte b) = true.
Proof. destruct b as [[] [] [] [] [] [] [] []]; reflexivity. Qed.

Lemma uri_byte_no_sep b : forallb no_sep (uri_byte b) = true.
Proof. destruct b as [[] [] [] [] [] [] [] []]; reflexivity. Qed.

(** Decoding undoes both encoders. *)
Lemma form_decode_encode s : pct_decode true (form_encode s) = utf8 s.
Proof.
  unfold form_encode. induction (utf8 s) as [| b bs IH]; [reflexivity |].
  simpl. now rewrite form_byte_decode, IH.
Qed.

Lemma uri_decode_encode s :
  pct_decode false (encodeURIComponent s) = utf8 s.
Proof.
  unfold encodeURIComponent.
  induction (utf8 s) as [| b bs IH]; [reflexivity |].
  simpl. now rewrite uri_byte_decode, IH.
Qed.

Lemma form_encode_no_sep s : forallb no_sep (form_encode s) = true.
Proof.
  unfold form_encode. induction (utf8 s) as [| b bs IH]; [reflexivity |].
  simpl. now rewrite forallb_app, form_byte_no_sep, IH.
Qed.

Lemma uri_encode_no_sep s : forallb no_sep (encodeURIComponent s) = true.
Proof.
  unfold encodeURIComponent.
  induction (utf8 s) as [| b bs IH]; [reflexivity |].
  simpl. now rewrite forallb_app, uri_byte_no_sep, IH.
Qed.

Lemma no_sep_lacks s sep :
  forallb no_sep s = true -> no_sep sep = false -> lacks sep s.
Proof.
  intros H Hs. apply Forall_forall. intros c Hc ->.
  rewrite forallb_forall in H. specialize (H _ Hc). congruence.
Qed.

Lemma lacks_app sep a b : lacks sep a -> lacks sep b -> lacks sep (a ++ b).
Proof. intros. now apply Forall_app. Qed.

Lemma cut_found sep a b :
  lacks sep a -> cut sep (a ++ sep :: b) = (a, Some b).
Proof.
  induction 1 as [| c a Hc _ IH]; simpl.
  - now rewrite N.eqb_refl.
  - apply N.eqb_neq in Hc. now rewrite Hc, IH.
Qed.

Lemma cut_missing sep a : lacks sep a -> cut sep a = (a, None).
Proof.
  induction 1 as [| c a Hc _ IH]; simpl; [reflexivity |].
  apply N.eqb_neq in Hc. now rewrite Hc, IH.
Qed.

Lemma split_on_found sep a b :
  lacks sep a -> split_on sep (a ++ sep :: b) = a :: split_on sep b.
Proof.
  induction 1 as [| c a Hc _ IH]; simpl.
  - now rewrite N.eqb_refl.
  - apply N.eqb_neq in Hc. now rewrite Hc, IH.
Qed.

Lemma split_on_missing sep a : lacks sep a -> split_on sep a = [a].
Proof.
  induction 1 as [| c a Hc _ IH]; simpl; [reflexivity |].
  apply N.eqb_neq in Hc. now rewrite Hc, IH.
Qed.

(** Pieces joined by [&] are read back one by one. *)
Lemma pairs_of_join plus (kvs : list (jstr * jstr)) :
  kvs <> [] ->
  Forall (fun kv => forallb no_sep (fst kv) = true
                    /\ forallb no_sep (snd kv) = true) kvs ->
  pairs_of plus (join (lit "&") (map piece kvs))
  = map (fun kv => (pct_decode plus (fst kv), pct_decode plus (snd kv))) kvs.
Proof.
  intros Hne Hall. unfold pairs_of.
  assert (Hpiece : forall kv,
             forallb no_sep (fst kv) = true /\ forallb no_sep (snd kv) = true ->
             lacks 38 (piece kv)
             /\ cut 61 (piece kv) = (fst kv, Some (snd kv))).
  { intros [k v] [Hk Hv]. simpl in *. split.
    - unfold piece. simpl. apply lacks_app.
      + now apply no_sep_lacks.
      + constructor; [discriminate |]. now apply no_sep_lacks.
    - unfold piece. simpl. apply cut_found. now apply no_sep_lacks. }
  induction Hall as [| kv kvs Hkv Hall IH]; [contradiction |].
  destruct (Hpiece kv Hkv) as [Hl Hc].
  destruct kvs as [| kv' kvs'].
  - simpl. rewrite (split_on_missing 38 _ Hl). simpl. now rewrite Hc.
  - change (join (lit "&") (map piece (kv :: kv' :: kvs')))
      with (piece kv ++ 38%N :: join (lit "&") (map piece (kv' :: kvs'))).
    rewrite (split_on_found 38 _ _ Hl).
    rewrite (map_cons _ (piece kv)), (map_cons _ kv), Hc.
    f_equal. apply IH. discriminate.
Qed.

Lemma params_toString_join ps :
  params_toString ps
  = join (lit "&")
         (map piece (map (fun kv => (form_encode (fst kv),
                                     form_encode (snd kv))) ps)).
Proof.
  induction ps as [| [k v] ps IH]; [reflexivity |].
  destruct ps as [| kv' ps']; [reflexivity |].
  change (params_toString ((k, v) :: kv' :: ps'))
    with (form_encode k ++ lit "=" ++ form_encode v ++ lit "&"
          ++ params_toString (kv' :: ps')).
  rewrite IH.
  change (map piece (map (fun kv => (form_encode (fst kv),
                                     form_encode (snd kv)))
                         ((k, v) :: kv' :: ps')))
    with (piece (form_encode k, form_encode v)
          :: map piece (map (fun kv => (form_encode (fst kv),
                                        form_encode (snd kv)))
                            (kv' :: ps'))).
  set (rest := map piece (map _ (kv' :: ps'))).
  assert (exists x r, rest = x :: r) as [x [r Hr]]
    by (subst rest; simpl; eauto).
  rewrite Hr.
  change (join (lit "&") (piece (form_encode k, form_encode v) :: x :: r))
    with (piece (form_encode k, form_encode v) ++ lit "&"
          ++ join (lit "&") (x :: r)).
  unfold piece. simpl fst. simpl snd. now rewrite <- !app_assoc.
Qed.

Lemma join_no_sep_but_amp ps :
  Forall (fun kv => forallb no_sep (fst kv) = true
                    /\ forallb no_sep (snd kv) = true) ps ->
  lacks 35 (join (lit "&") (map piece ps))
  /\ lacks 63 (join (lit "&") (map piece ps)).
Proof.
  induction 1 as [| [k v] ps [Hk Hv] _ IH]; [split; constructor |].
  simpl in Hk, Hv.
  assert (lacks 35 (piece (k, v)) /\ lacks 63 (piece (k, v))) as [P1 P2].
  { unfold piece. simpl. split; apply lacks_app;
      try (now apply no_sep_lacks);
      (constructor; [discriminate | now apply no_sep_lacks]). }
  destruct ps as [| kv' ps']; [now split |].
  change (join (lit "&") (map piece ((k, v) :: kv' :: ps')))
    with (piece (k, v) ++ 38%N :: join (lit "&") (map piece (kv' :: ps'))).
  destruct IH as [I1 I2]. split; apply lacks_app; auto;
    (constructor; [discriminate | assumption]).
Qed.

End Uri_facts.

Section Viewer_url_facts.
Import Uri.

Lemma opt_default_truthy o d :
  val_truthy d = true -> val_truthy (opt_default o d) = true.
Proof.
  intros Hd. unfold opt_default, val_or.
  destruct o as [v |]; [| exact Hd].
  destruct (val_truthy v) eqn:E; [exact E | exact Hd].
Qed.

Lemma buildPdfJsViewerUrl_pieces u opts :
  let o := match opts with Some o => o | None => no_opts end in
  buildPdfJsViewerUrl u opts
  = viewerBase ++ 63%N :: join (lit "&") (map piece (query_pieces u o))
  ++ 35%N :: join (lit "&") (map piece (fragment_pieces o)).
Proof.
  intros o. unfold buildPdfJsViewerUrl. fold o.
  assert (Hp : val_truthy (eff_page o) = true)
    by (apply opt_default_truthy; reflexivity).
  assert (Hm : val_truthy (eff_pagemode o) = true)
    by (apply opt_default_truthy; reflexivity).
  rewrite Hp, Hm, params_toString_join.
  unfold query_pieces, fragment_pieces.
  destruct (eff_title o) as [t |]; destruct (eff_view o) as [v |];
    reflexivity.
Qed.

Lemma query_pieces_no_sep u o :
  Forall (fun kv => forallb no_sep (fst kv) = true
                    /\ forallb no_sep (snd kv) = true) (query_pieces u o).
Proof.
  unfold query_pieces. constructor.
  - split; [reflexivity | apply form_encode_no_sep].
  - destruct (eff_title o); constructor; [| constructor].
    split; [reflexivity | apply form_encode_no_sep].
Qed.

Lemma fragment_pieces_no_sep o :
  Forall (fun kv => forallb no_sep (fst kv) = true
                    /\ forallb no_sep (snd kv) = true) (fragment_pieces o).
Proof.
  unfold fragment_pieces.
  repeat (constructor; [split; [reflexivity | apply uri_encode_no_sep] |]).
  destruct (eff_view o); constructor; [| constructor].
  split; [reflexivity | apply uri_encode_no_sep].
Qed.

Lemma parse_buildPdfJsViewerUrl u opts :
  let o := match opts with Some o => o | None => no_opts end in
  parse_url (buildPdfJsViewerUrl u opts)
  = {| u_path := viewerBase;
       u_query := Some (join (lit "&") (map piece (query_pieces u o)));
       u_fragment := Some (join (lit "&") (map piece (fragment_pieces o))) |}.
Proof.
  intros o. rewrite buildPdfJsViewerUrl_pieces. fold o.
  unfold parse_url.
  destruct (join_no_sep_but_amp _ (query_pieces_no_sep u o)) as [L35 L63].
  assert (Hb35 : lacks 35 viewerBase)
    by (apply Forall_forall; intros c Hc;
        repeat (destruct Hc as [<- | Hc]; [discriminate |]); destruct Hc).
  assert (Hb63 : lacks 63 viewerBase)
    by (apply Forall_forall; intros c Hc;
        repeat (destruct Hc as [<- | Hc]; [discriminate |]); destruct Hc).
  rewrite app_comm_cons, app_assoc.
  rewrite cut_found.
  - rewrite (cut_found 63 viewerBase _ Hb63). reflexivity.
  - apply lacks_app; [exact Hb35 |].
    constructor; [discriminate | exact L35].
Qed.

End Viewer_url_facts.

Section Viewer_url_read_back.
Import Uri.

Let bytes (s : string) : list ascii := list_ascii_of_string s.

Lemma decoded_query u o :
  map (fun kv => (pct_decode true (fst kv), pct_decode true (snd kv)))
  (query_pieces u o)
  = (bytes "file", utf8 u)
  :: match eff_title o with
       | Some t => [(bytes "aimTitle", utf8 (val_string t))]
       | None => []
       end.
Proof.
  unfold query_pieces. destruct (eff_title o) as [t |]; cbn [map fst snd];
    rewrite !form_decode_encode; reflexivity.
Qed.

Lemma decoded_fragment o :
  map (fun kv => (pct_decode false (fst kv), pct_decode false (snd kv)))
  (fragment_pieces o)
  = [(bytes "page", utf8 (val_string (eff_page o)));
       (bytes "zoom", utf8 (val_string (eff_zoom o)));
       (bytes "pagemode", utf8 (val_string (eff_pagemode o)))]
  ++ match eff_view o with
       | Some v => [(bytes "view", utf8 (val_string v))]
       | None => []
       end.
Proof.
  unfold fragment_pieces. destruct (eff_view o) as [v |];
    cbn [map fst snd List.app]; rewrite !uri_decode_encode; reflexivity.
Qed.



End Viewer_url_read_back.

(** The URL of a tab whose document has a space in its name and an ampersand
    in its title. *)
Example buildPdfJsViewerUrl_tab :
  buildPdfJsViewerUrl (lit "/static/pdfs/1920s/Annual Report 1927.pdf")
                      (tab_opts (lit "Roads & Bridges"))
  = lit "pdfjs/web/viewer.html?file=%2Fstatic%2Fpdfs%2F1920s%2FAnnual+Report+1927.pdf&aimTitle=Roads+%26+Bridges#page=1&zoom=75&pagemode=none".
Proof. vm_compute. reflexivity. Qed.

(** Called without options. *)
Example buildPdfJsViewerUrl_defaults :
  buildPdfJsViewerUrl (lit "a.pdf") None
  = lit "pdfjs/web/viewer.html?file=a.pdf#page=1&zoom=page-width&pagemode=none".
Proof. vm_compute. reflexivity. Qed.

(* ================================================================== *)
(** * Properties: objects used as maps *)
(* ================================================================== *)

Section Object_facts.
Context {V : Type}.
Implicit Types (o : obj V) (k : jstr) (v : V).

Lemma get_In_keys k o : get k o <> None <-> In k (keys o).
Proof.
  induction o as [| [k' v'] o IH]; simpl.
  - split; [congruence | tauto].
  - destruct (jstr_eq_dec k' k) as [-> | n].
    + split; [now left | discriminate].
    + rewrite IH. split; [now right | intros [E | H]; [contradiction | exact H]].
Qed.

Lemma get_None_keys k o : get k o = None <-> ~ In k (keys o).
Proof.
  rewrite <- get_In_keys. destruct (get k o); split; try congruence.
  intros H. now elim H.
Qed.

Lemma get_app_fresh k v o : get k o = None -> get k (o ++ [(k, v)]) = Some v.
Proof.
  induction o as [| [k' v'] o IH]; simpl.
  - intros _. now destruct (jstr_eq_dec k k).
  - destruct (jstr_eq_dec k' k); [discriminate | exact IH].
Qed.

Lemma get_app_other k k' v o :
  k' <> k -> get k' (o ++ [(k, v)]) = get k' o.
Proof.
  intros Hne. induction o as [| [k2 v2] o IH]; simpl.
  - destruct (jstr_eq_dec k k'); [congruence | reflexivity].
  - destruct (jstr_eq_dec k2 k'); [reflexivity | exact IH].
Qed.

Lemma get_replace_same k v o :
  get k o <> None -> get k (replace k v o) = Some v.
Proof.
  induction o as [| [k' v'] o IH]; simpl; [congruence |].
  destruct (jstr_eq_dec k' k) as [-> | n]; simpl.
  - intros _. now destruct (jstr_eq_dec k k).
  - destruct (jstr_eq_dec k' k); [contradiction | exact IH].
Qed.

Lemma get_replace_other k k' v o :
  k' <> k -> get k' (replace k v o) = get k' o.
Proof.
  intros Hne. induction o as [| [k2 v2] o IH]; simpl; [reflexivity |].
  destruct (jstr_eq_dec k2 k) as [-> | n]; simpl.
  - destruct (jstr_eq_dec k k'); [congruence |].
    reflexivity.
  - destruct (jstr_eq_dec k2 k'); [reflexivity | exact IH].
Qed.

Lemma keys_replace k v o : keys (replace k v o) = keys o.
Proof.
  induction o as [| [k' v'] o IH]; simpl; [reflexivity |].
  destruct (jstr_eq_dec k' k) as [-> | n]; simpl; [reflexivity |].
  now rewrite IH.
Qed.

Lemma get_insert_index_same i k v o :
  get k o = None -> get k (insert_index i k v o) = Some v.
Proof.
  induction o as [| [k' v'] o IH]; simpl.
  - intros _. now destruct (jstr_eq_dec k k).
  - destruct (jstr_eq_dec k' k) as [-> | n]; [discriminate |]. intros Hk.
    destruct (array_index k') as [j |].
    + destruct (j <? i)%N; simpl.
      * destruct (jstr_eq_dec k' k); [contradiction | now apply IH].
      * now destruct (jstr_eq_dec k k).
    + simpl. now destruct (jstr_eq_dec k k).
Qed.

Lemma get_insert_index_other i k k' v o :
  k' <> k -> get k' (insert_index i k v o) = get k' o.
Proof.
  intros Hne. induction o as [| [k2 v2] o IH]; simpl.
  - destruct (jstr_eq_dec k k'); [congruence | reflexivity].
  - destruct (array_index k2) as [j |].
    + destruct (j <? i)%N; simpl.
      * destruct (jstr_eq_dec k2 k'); [reflexivity | exact IH].
      * destruct (jstr_eq_dec k k'); [congruence | reflexivity].
    + simpl. destruct (jstr_eq_dec k k'); [congruence | reflexivity].
Qed.

Lemma insert_index_perm i k v o :
  Permutation (insert_index i k v o) ((k, v) :: o).
Proof.
  induction o as [| [k' v'] o IH]; simpl; [reflexivity |].
  destruct (array_index k') as [j |]; [| reflexivity].
  destruct (j <? i)%N; [| reflexivity].
  rewrite IH. apply perm_swap.
Qed.

Lemma has_get k o : has k o = true <-> get k o <> None.
Proof. unfold has. destruct (get k o); split; congruence. Qed.

(** ** Reading after writing *)

Lemma get_set_same k v o : get k (set k v o) = Some v.
Proof.
  unfold set. destruct (has k o) eqn:E.
  - apply get_replace_same. now apply has_get.
  - assert (get k o = None) as Hk
        by (unfold has in E; destruct (get k o); congruence).
    destruct (array_index k).
    + now apply get_insert_index_same.
    + now apply get_app_fresh.
Qed.

Lemma get_set_other k k' v o : k' <> k -> get k' (set k v o) = get k' o.
Proof.
  intros Hne. unfold set. destruct (has k o).
  - now apply get_replace_other.
  - destruct (array_index k).
    + now apply get_insert_index_other.
    + now apply get_app_other.
Qed.

Lemma get_delete_same k o : get k (delete k o) = None.
Proof.
  induction o as [| [k' v'] o IH]; simpl; [reflexivity |].
  destruct (jstr_eq_dec k' k) as [-> | n]; simpl; [exact IH |].
  destruct (jstr_eq_dec k' k); [contradiction | exact IH].
Qed.

Lemma get_delete_other k k' o : k' <> k -> get k' (delete k o) = get k' o.
Proof.
  intros Hne. induction o as [| [k2 v2] o IH]; simpl; [reflexivity |].
  destruct (jstr_eq_dec k2 k) as [-> | n]; simpl.
  - destruct (jstr_eq_dec k k'); [congruence | exact IH].
  - destruct (jstr_eq_dec k2 k'); [reflexivity | exact IH].
Qed.

(** ** The properties as a multiset *)

Lemma set_fresh_perm k v o :
  get k o = None -> Permutation (set k v o) ((k, v) :: o).
Proof.
  intros Hk. unfold set.
  assert (has k o = false) as -> by (unfold has; now rewrite Hk).
  destruct (array_index k).
  - apply insert_index_perm.
  - symmetry. apply Permutation_cons_append.
Qed.

Lemma delete_absent k o : get k o = None -> delete k o = o.
Proof.
  induction o as [| [k' v'] o IH]; simpl; [reflexivity |].
  destruct (jstr_eq_dec k' k); [discriminate |].
  intros H. now rewrite IH.
Qed.

Lemma delete_perm k v o :
  NoDup (keys o) -> get k o = Some v ->
  Permutation o ((k, v) :: delete k o).
Proof.
  induction o as [| [k' v'] o IH]; simpl; [discriminate |].
  intros Hnd Hk. inversion Hnd as [| ? ? Hnotin Hnd']; subst.
  destruct (jstr_eq_dec k' k) as [-> | n].
  - injection Hk as ->. rewrite delete_absent; [reflexivity |].
    now apply get_None_keys.
  - rewrite (IH Hnd' Hk) at 1. apply perm_swap.
Qed.

Lemma keys_delete_sub k o x : In x (keys (delete k o)) -> In x (keys o).
Proof.
  unfold keys, delete. rewrite !in_map_iff.
  intros [kv [E Hin]]. apply filter_In in Hin. exists kv. tauto.
Qed.

Lemma NoDup_keys_delete k o : NoDup (keys o) -> NoDup (keys (delete k o)).
Proof.
  induction o as [| [k' v'] o IH]; simpl; [auto |].
  intros Hnd. inversion Hnd as [| ? ? Hnotin Hnd']; subst.
  destruct (jstr_eq_dec k' k); simpl; [now apply IH |].
  constructor; [| now apply IH].
  intros Hin. apply Hnotin. now apply keys_delete_sub in Hin.
Qed.

Lemma NoDup_keys_set k v o : NoDup (keys o) -> NoDup (keys (set k v o)).
Proof.
  intros Hnd. destruct (get k o) as [v0 |] eqn:Hk.
  - unfold set. assert (has k o = true) as -> by (unfold has; now rewrite Hk).
    now rewrite keys_replace.
  - unfold keys.
    eapply Permutation_NoDup;
      [symmetry; apply Permutation_map, set_fresh_perm, Hk |].
    simpl. constructor; [| exact Hnd]. now apply get_None_keys.
Qed.

End Object_facts.

(** ** Array-index keys *)

Section Array_index_facts.

Lemma pow10_pos n : (0 < pow10 n)%N.
Proof.
  induction n as [| n IH]; [reflexivity |].
  change (pow10 (S n)) with (10 * pow10 n)%N. lia.
Qed.

Lemma pow10_S n : pow10 (S n) = (10 * pow10 n)%N.
Proof. reflexivity. Qed.

Lemma is_digit_range c : is_digit c = true -> (48 <= c <= 57)%N.
Proof.
  unfold is_digit. intros H. apply andb_true_iff in H.
  destruct H as [H1 H2]. apply N.leb_le in H1, H2. lia.
Qed.

Lemma digits_val_acc k : forall a,
  digits_val a k = (a * pow10 (List.length k) + digits_val 0 k)%N.
Proof.
  unfold digits_val. induction k as [| c r IH]; intros a.
  - simpl. lia.
  - cbn [fold_left List.length]. rewrite pow10_S.
    rewrite IH. rewrite (IH (10 * 0 + (c - 48))%N). lia.
Qed.

Lemma digits_val_lt k :
  forallb is_digit k = true -> (digits_val 0 k < pow10 (List.length k))%N.
Proof.
  induction k as [| c r IH]; intros H; [reflexivity |].
  cbn [forallb] in H. apply andb_true_iff in H. destruct H as [Hc Hr].
  apply is_digit_range in Hc. specialize (IH Hr).
  change (digits_val 0 (c :: r)) with (digits_val (10 * 0 + (c - 48)) r).
  rewrite digits_val_acc. cbn [List.length]. rewrite pow10_S. nia.
Qed.

Lemma digits_val_cons c r :
  digits_val 0 (c :: r) = ((c - 48) * pow10 (List.length r) + digits_val 0 r)%N.
Proof.
  change (digits_val 0 (c :: r)) with (digits_val (10 * 0 + (c - 48)) r).
  rewrite digits_val_acc. f_equal.
Qed.

Lemma digits_same_length_inj k : forall k',
  forallb is_digit k = true -> forallb is_digit k' = true ->
  List.length k = List.length k' -> digits_val 0 k = digits_val 0 k' -> k = k'.
Proof.
  induction k as [| c r IH]; intros [| c' r'] Hk Hk' Hl Hv;
    try discriminate; [reflexivity |].
  simpl in Hk, Hk', Hl. injection Hl as Hl.
  apply andb_true_iff in Hk, Hk'. destruct Hk as [Hc Hr], Hk' as [Hc' Hr'].
  rewrite !digits_val_cons in Hv. rewrite <- Hl in Hv.
  pose proof (digits_val_lt r Hr) as B. pose proof (digits_val_lt r' Hr') as B'.
  rewrite <- Hl in B'.
  apply is_digit_range in Hc, Hc'.
  assert (c - 48 = c' - 48)%N by nia.
  assert (c = c') by lia. subst c'.
  f_equal. apply IH; auto. nia.
Qed.

Lemma pow10_mono n m : n <= m -> (pow10 n <= pow10 m)%N.
Proof.
  induction 1; [lia |]. rewrite pow10_S. pose proof (pow10_pos m). lia.
Qed.

Lemma array_index_inj k k' i :
  array_index k = Some i -> array_index k' = Some i -> k = k'.
Proof.
  assert (Hspec : forall k i, array_index k = Some i ->
             exists c r, k = c :: r /\ forallb is_digit k = true
                         /\ (c <> 48%N \/ r = []) /\ digits_val 0 k = i).
  { clear. intros [| c r] i; simpl; [discriminate |].
    destruct (is_digit c && forallb is_digit r) eqn:Hd; simpl; [| discriminate].
    destruct (negb (c =? 48)%N || _) eqn:Hz; [| discriminate].
    destruct (_ <? _)%N; [| discriminate]. intros [= <-].
    exists c, r. repeat split; auto.
    apply orb_true_iff in Hz. destruct Hz as [Hz | Hz].
    - left. apply negb_true_iff, N.eqb_neq in Hz. exact Hz.
    - right. now destruct r. }
  intros H H'.
  destruct (Hspec _ _ H) as [c [r [-> [Hd [Hz Hv]]]]].
  destruct (Hspec _ _ H') as [c' [r' [-> [Hd' [Hz' Hv']]]]].
  assert (Hbound : forall c r, forallb is_digit (c :: r) = true ->
             (c <> 48%N \/ r = []) ->
             (r = [] \/ pow10 (List.length r) <= digits_val 0 (c :: r))%N
             /\ (digits_val 0 (c :: r) < pow10 (S (List.length r)))%N).
  { clear. intros c r Hd Hz. split.
    - destruct Hz as [Hz | Hz]; [| now left]. right.
      rewrite digits_val_cons. simpl in Hd. apply andb_true_iff in Hd.
      destruct Hd as [Hc _]. apply is_digit_range in Hc. nia.
    - apply (digits_val_lt (c :: r) Hd). }
  destruct (Hbound _ _ Hd Hz) as [L U], (Hbound _ _ Hd' Hz') as [L' U'].
  apply digits_same_length_inj; auto; [| congruence].
  simpl. f_equal.
  destruct (Nat.lt_trichotomy (List.length r) (List.length r')) as [Hlt | [E | Hlt]];
    [| exact E |].
  - exfalso. destruct L' as [-> | L']; [simpl in Hlt; lia |].
    pose proof (pow10_mono (S (List.length r)) (List.length r') Hlt). lia.
  - exfalso. destruct L as [-> | L]; [simpl in Hlt; lia |].
    pose proof (pow10_mono (S (List.length r')) (List.length r) Hlt). lia.
Qed.

End Array_index_facts.

(** ** The enumeration order is kept *)

Section Order.
Context {V : Type}.
Implicit Types (o : obj V) (k : jstr) (v : V).

Lemma index_sorted_weaken lo lo' ks :
  index_sorted lo ks ->
  (forall i, above lo i -> above lo' i) -> index_sorted lo' ks.
Proof.
  destruct ks as [| k r]; simpl; [auto |].
  destruct (array_index k) as [i |]; [| auto].
  intros [H1 H2] Hw. split; [| exact H2].
  apply (Hw i). exact H1.
Qed.

Lemma index_sorted_tail lo k r : index_sorted lo (k :: r) -> index_sorted lo r.
Proof.
  simpl. destruct (array_index k) as [i |] eqn:E.
  - intros [H1 H2]. apply (index_sorted_weaken (Some i)); [exact H2 |].
    intros i' Hi'. destruct lo as [j |]; simpl in *; [lia | exact I].
  - intros H. destruct r as [| k' r']; simpl; [exact I |].
    inversion H as [| ? ? Hk' Hr']; subst. rewrite Hk'. exact Hr'.
Qed.

Lemma index_sorted_named ks lo :
  Forall (fun k' => array_index k' = None) ks -> index_sorted lo ks.
Proof.
  destruct 1 as [| k r Hk Hr]; simpl; [exact I |]. now rewrite Hk.
Qed.

Lemma index_sorted_delete k o : forall lo,
  index_sorted lo (keys o) -> index_sorted lo (keys (delete k o)).
Proof.
  induction o as [| [k' v'] o IH]; intros lo H; [exact I |].
  simpl. destruct (jstr_eq_dec k' k) as [-> | n]; simpl.
  - apply IH. apply (index_sorted_tail _ _ _ H).
  - simpl in H. destruct (array_index k') as [i |].
    + destruct H as [H1 H2]. split; [exact H1 | now apply IH].
    + clear IH. induction o as [| [k2 v2] o IH2]; [constructor |].
      inversion H as [| ? ? Hk2 Hr]; subst. simpl.
      destruct (jstr_eq_dec k2 k); simpl; [now apply IH2 |].
      constructor; [exact Hk2 | now apply IH2].
Qed.

Lemma index_sorted_snoc_named k ks : forall lo,
  array_index k = None -> index_sorted lo ks -> index_sorted lo (ks ++ [k]).
Proof.
  induction ks as [| k' r IH]; intros lo Hk H; simpl.
  - rewrite Hk. constructor.
  - simpl in H. destruct (array_index k') as [i |].
    + destruct H as [H1 H2]. split; [exact H1 | now apply IH].
    + apply Forall_app. split; [exact H |]. now constructor.
Qed.

Lemma index_sorted_insert i k v o : forall lo,
  array_index k = Some i -> get k o = None -> above lo i ->
  index_sorted lo (keys o) ->
  index_sorted lo (keys (insert_index i k v o)).
Proof.
  induction o as [| [k' v'] o IH]; intros lo Hk Hfresh Hlo H.
  - simpl. rewrite Hk. split; [exact Hlo | exact I].
  - simpl in Hfresh. destruct (jstr_eq_dec k' k) as [-> | n]; [discriminate |].
    simpl in H |- *. destruct (array_index k') as [j |] eqn:Hj.
    + destruct H as [H1 H2]. destruct (N.ltb_spec j i) as [Hlt | Hge].
      * simpl. rewrite Hj. split; [exact H1 |].
        apply IH; auto.
      * simpl. rewrite Hk. split; [exact Hlo |]. rewrite Hj.
        split; [| exact H2].
        assert (j <> i); [| lia].
        intros ->. apply n. now apply (array_index_inj k' k i).
    + simpl. rewrite Hk. split; [exact Hlo |]. rewrite Hj. exact H.
Qed.



Lemma ordered_set k v o : ordered o -> ordered (set k v o).
Proof.
  intros [Hnd Hs]. split; [now apply NoDup_keys_set |].
  unfold set. destruct (has k o) eqn:E.
  - now rewrite keys_replace.
  - assert (get k o = None) as Hk
        by (unfold has in E; destruct (get k o); congruence).
    destruct (array_index k) as [i |] eqn:Hi.
    + apply index_sorted_insert; auto. exact I.
    + unfold keys. rewrite map_app. now apply index_sorted_snoc_named.
Qed.

Lemma ordered_delete k o : ordered o -> ordered (delete k o).
Proof.
  intros [Hnd Hs]. split; [now apply NoDup_keys_delete |].
  now apply index_sorted_delete.
Qed.



End Order.

(* ================================================================== *)
(** * Properties: the PDF tab manager *)
(* ================================================================== *)

Section Key_facts.

Lemma lit_inj a b : lit a = lit b -> a = b.
Proof.
  unfold lit. intros H.
  rewrite <- (string_of_list_ascii_of_string a),
          <- (string_of_list_ascii_of_string b).
  f_equal. revert H.
  generalize (list_ascii_of_string a) (list_ascii_of_string b).
  induction l as [| x l IH]; intros [| y l']; simpl; try discriminate;
    [reflexivity |].
  intros [= Hxy Hl]. f_equal; [| now apply IH].
  rewrite <- (ascii_N_embedding x), <- (ascii_N_embedding y). now rewrite Hxy.
Qed.

Lemma dec_inj n m : dec n = dec m -> n = m.
Proof.
  unfold dec. intros H. apply lit_inj in H.
  assert (Some (N.to_uint n) = Some (N.to_uint m)) as E
      by (rewrite <- !NilEmpty.usu; now rewrite H).
  injection E as E.
  rewrite <- (DecimalN.Unsigned.of_to n), <- (DecimalN.Unsigned.of_to m).
  now rewrite E.
Qed.

Lemma suffixed_inj b n m : suffixed b n = suffixed b m -> n = m.
Proof.
  unfold suffixed. intros H. apply app_inv_head in H.
  apply app_inv_head in H. apply app_inv_tail in H. now apply dec_inj.
Qed.

Lemma array_index_digits k i :
  array_index k = Some i -> forallb is_digit k = true.
Proof.
  destruct k as [| c r]; simpl; [discriminate |].
  destruct (is_digit c && forallb is_digit r); [reflexivity | discriminate].
Qed.

Lemma suffixed_not_index b n : array_index (suffixed b n) = None.
Proof.
  destruct (array_index (suffixed b n)) as [i |] eqn:E; [| reflexivity].
  apply array_index_digits in E. unfold suffixed in E.
  rewrite forallb_app in E. apply andb_true_iff in E.
  destruct E as [_ E]. discriminate E.
Qed.

(** The first argument at which a test succeeds. *)
Lemma least_true (P : nat -> bool) : forall d,
  P d = true ->
  exists d', d' <= d /\ P d' = true /\ forall j, j < d' -> P j = false.
Proof.
  intros d. revert P. induction d as [| d IH]; intros P Hd.
  - exists 0. repeat split; auto. intros j Hj. lia.
  - destruct (P 0) eqn:E0.
    + exists 0. repeat split; auto; [lia |]. intros j Hj. lia.
    + destruct (IH (fun i => P (S i)) Hd) as [d' [Hle [Hd' Hmin]]].
      exists (S d'). repeat split; auto; [lia |].
      intros [| j] Hj; [exact E0 |]. apply Hmin. lia.
Qed.

End Key_facts.

Section Key_loop_facts.
Variable o : obj pdf_entry.
Variable base : jstr.

Let taken (d : nat) : bool :=
  match get (suffixed base (2 + N.of_nat d)) o with
  | Some _ => true
  | None => false
  end.

Lemma bounded_search (P : nat -> bool) n :
  (exists d, d < n /\ P d = true) \/ (forall d, d < n -> P d = false).
Proof.
  induction n as [| n [[d [Hd Hp]] | Hall]].
  - right. intros d Hd. lia.
  - left. exists d. split; [lia | exact Hp].
  - destruct (P n) eqn:E.
    + left. exists n. split; [lia | exact E].
    + right. intros d Hd. destruct (Nat.eq_dec d n) as [-> | Hne];
        [exact E | apply Hall; lia].
Qed.

Lemma base_not_suffixed n : base <> suffixed base n.
Proof.
  unfold suffixed. intros H.
  rewrite <- (app_nil_r base) in H at 1. apply app_inv_head in H.
  discriminate H.
Qed.

(** Not every candidate is taken: there are more candidates than keys. *)
Lemma some_suffix_free :
  get base o <> None ->
  exists d, d < List.length o /\ taken d = false.
Proof.
  intros Hbase.
  destruct (bounded_search (fun d => negb (taken d)) (List.length o))
    as [[d [Hd Hp]] | Hall].
  - exists d. split; [exact Hd |]. now apply negb_true_iff in Hp.
  - exfalso.
    set (cands := base :: map (fun d => suffixed base (2 + N.of_nat d))
                              (seq 0 (List.length o))).
    assert (NoDup cands) as Hnd.
    { unfold cands. constructor.
      - intros Hin. apply in_map_iff in Hin. destruct Hin as [d [E _]].
        symmetry in E. now apply base_not_suffixed in E.
      - apply Finite.Injective_map_NoDup; [| apply seq_NoDup].
        intros a b E. apply suffixed_inj in E. lia. }
    assert (incl cands (keys o)) as Hincl.
    { intros k [<- | Hin].
      - now apply get_In_keys.
      - apply in_map_iff in Hin. destruct Hin as [d [<- Hd]].
        apply in_seq in Hd. apply get_In_keys.
        specialize (Hall d (proj2 Hd)). apply negb_false_iff in Hall.
        unfold taken in Hall.
        destruct (get (suffixed base (2 + N.of_nat d)) o);
          [discriminate | discriminate Hall]. }
    pose proof (NoDup_incl_length Hnd Hincl) as Hlen.
    unfold cands, keys in Hlen. simpl in Hlen.
    rewrite !length_map, length_seq in Hlen. lia.
Qed.

Lemma key_loop_steps : forall d n fuel,
  d <= fuel ->
  (forall j, j < d -> get (suffixed base (n + N.of_nat j)) o <> None) ->
  get (suffixed base (n + N.of_nat d)) o = None ->
  key_loop fuel o base (suffixed base n) (n + 1)
  = Some (suffixed base (n + N.of_nat d)).
Proof.
  induction d as [| d IH]; intros n fuel Hfuel Hused Hfree.
  - change (N.of_nat 0) with 0%N in *. rewrite N.add_0_r in *.
    destruct fuel; cbn [key_loop]; now rewrite Hfree.
  - destruct fuel as [| fuel]; [lia |]. cbn [key_loop].
    pose proof (Hused 0 ltac:(lia)) as H0.
    change (N.of_nat 0) with 0%N in H0. rewrite N.add_0_r in H0.
    destruct (get (suffixed base n) o); [| congruence].
    replace (n + N.of_nat (S d))%N with (n + 1 + N.of_nat d)%N by lia.
    apply IH; [lia | |].
    + intros j Hj.
      replace (n + 1 + N.of_nat j)%N with (n + N.of_nat (S j))%N by lia.
      apply Hused. lia.
    + replace (n + 1 + N.of_nat d)%N with (n + N.of_nat (S d))%N by lia.
      exact Hfree.
Qed.

Lemma unique_tab_key_free :
  get base o = None -> unique_tab_key o base = base.
Proof. intros H. unfold unique_tab_key. cbn [key_loop]. now rewrite H. Qed.

(** The loop ends, with the smallest suffix that is not taken. *)
Lemma key_loop_total :
  get base o <> None ->
  exists n, (2 <= n)%N
            /\ key_loop (S (List.length o)) o base base 2
               = Some (suffixed base n)
            /\ get (suffixed base n) o = None
            /\ forall m, (2 <= m < n)%N ->
                         get (suffixed base m) o <> None.
Proof.
  intros Hbase.
  destruct (some_suffix_free Hbase) as [d0 [Hd0 Hfree0]].
  destruct (least_true (fun d => negb (taken d)) d0) as [d [Hle [Hd Hmin]]];
    [now rewrite Hfree0 |].
  assert (Hfree : get (suffixed base (2 + N.of_nat d)) o = None).
  { apply negb_true_iff in Hd. unfold taken in Hd.
    now destruct (get (suffixed base (2 + N.of_nat d)) o). }
  assert (Hused : forall j, j < d ->
              get (suffixed base (2 + N.of_nat j)) o <> None).
  { intros j Hj. specialize (Hmin j Hj). apply negb_false_iff in Hmin.
    unfold taken in Hmin.
    now destruct (get (suffixed base (2 + N.of_nat j)) o). }
  exists (2 + N.of_nat d)%N. split; [lia |]. split; [| split].
  - cbn [key_loop]. destruct (get base o); [| congruence].
    apply (key_loop_steps d 2); [lia | exact Hused | exact Hfree].
  - exact Hfree.
  - intros m Hm.
    replace m with (2 + N.of_nat (N.to_nat (m - 2)))%N by lia.
    apply Hused. lia.
Qed.

Lemma unique_tab_key_taken :
  get base o <> None ->
  exists n, (2 <= n)%N
            /\ unique_tab_key o base = suffixed base n
            /\ get (suffixed base n) o = None
            /\ forall m, (2 <= m < n)%N ->
                         get (suffixed base m) o <> None.
Proof.
  intros Hbase. destruct (key_loop_total Hbase) as [n [H2 [Hk [Hf Hm]]]].
  exists n. unfold unique_tab_key. rewrite Hk. auto.
Qed.

Lemma unique_tab_key_fresh : get (unique_tab_key o base) o = None.
Proof.
  destruct (get base o) eqn:E.
  - destruct unique_tab_key_taken as [n [_ [-> [H _]]]]; [congruence | exact H].
  - now rewrite unique_tab_key_free.
Qed.

End Key_loop_facts.

Section Tab_facts.

Lemma set_fresh_named {V} k (v : V) o :
  get k o = None -> array_index k = None -> set k v o = o ++ [(k, v)].
Proof.
  intros Hk Hi. unfold set. unfold has. now rewrite Hk, Hi.
Qed.

Lemma delete_app_fresh {V} k (v : V) o :
  get k o = None -> delete k (o ++ [(k, v)]) = o.
Proof.
  intros Hk. unfold delete. rewrite filter_app. simpl.
  destruct (jstr_eq_dec k k); [| contradiction].
  rewrite app_nil_r. now apply delete_absent.
Qed.

Lemma openPdfs_activatePdfTab k s :
  openPdfs (activatePdfTab k s) = openPdfs s.
Proof. unfold activatePdfTab. now destruct (get k (openPdfs s)). Qed.

Lemma next_tab_activatePdfTab k s :
  next_tab (activatePdfTab k s) = next_tab s.
Proof. unfold activatePdfTab. now destruct (get k (openPdfs s)). Qed.

Lemma boxes_activatePdfTab k s : boxes (activatePdfTab k s) = boxes s.
Proof. unfold activatePdfTab. now destruct (get k (openPdfs s)). Qed.

Lemma activatePdfTab_present k e s :
  get k (openPdfs s) = Some e ->
  activatePdfTab k s
  = with_viewer (buildPdfJsViewerUrl (e_url e) (tab_opts (e_aimTitle e)))
      (with_pdfTabs
         (add_active (e_tab e) (clear_active (openPdfs s) (pdfTabs s)))
         (with_active (Some k) s)).
Proof. intros H. unfold activatePdfTab. now rewrite H. Qed.

(** What [openPdfInTab] does, the tab key taken as given. *)
Lemma openPdfInTab_unfold filename url aimTitle s :
  let tabKey := unique_tab_key (openPdfs s) filename in
  let label := tab_label filename aimTitle in
  let shown := displayLabel filename tabKey label in
  let new := {| e_tab := next_tab s; e_url := url; e_label := shown;
                e_filename := Some filename; e_aimTitle := label |} in
  let tab := {| tab_id := next_tab s; tab_text := shown;
                tab_active := false; tab_onclose := CloseDirect tabKey |} in
  let o' := set tabKey new (openPdfs s) in
  openPdfInTab filename url aimTitle s
  = persistStateToSession
      (with_viewer (buildPdfJsViewerUrl url (tab_opts label))
         (with_pdfTabs
            (add_active (next_tab s) (clear_active o' (pdfTabs s ++ [tab])))
            (with_active (Some tabKey)
               (with_openPdfs o'
                  (with_next_tab (S (next_tab s))
                     (with_pdfTabs (pdfTabs s ++ [tab]) s)))))).
Proof.
  cbv zeta. unfold openPdfInTab.
  match goal with
  | |- persistStateToSession (activatePdfTab ?k ?s2) = _ =>
      rewrite (activatePdfTab_present k
                 {| e_tab := next_tab s; e_url := url;
                    e_label := displayLabel filename k
                                 (tab_label filename aimTitle);
                    e_filename := Some filename;
                    e_aimTitle := tab_label filename aimTitle |} s2)
        by apply get_set_same
  end.
  reflexivity.
Qed.

Lemma find_app {A} (p : A -> bool) l1 l2 :
  find p (l1 ++ l2)
  = match find p l1 with Some x => Some x | None => find p l2 end.
Proof.
  induction l1 as [| x l1 IH]; simpl; [reflexivity |].
  now destruct (p x).
Qed.

Lemma label_of_map i (g : tab_el -> tab_el) ts :
  (forall t, tab_id (g t) = tab_id t /\ tab_text (g t) = tab_text t) ->
  label_of i (map g ts) = label_of i ts.
Proof.
  intros Hg. unfold label_of. induction ts as [| t ts IH]; [reflexivity |].
  simpl. destruct (Hg t) as [-> Ht].
  destruct (Nat.eqb (tab_id t) i); [simpl; now rewrite Ht | exact IH].
Qed.

Lemma label_of_clear_active i o ts :
  label_of i (clear_active o ts) = label_of i ts.
Proof.
  apply label_of_map. intros t. now destruct (memb _ _).
Qed.

Lemma label_of_add_active i j ts :
  label_of i (add_active j ts) = label_of i ts.
Proof.
  apply label_of_map. intros t. now destruct (Nat.eqb _ _).
Qed.

Lemma label_of_remove_other i j ts :
  i <> j -> label_of i (remove_tab j ts) = label_of i ts.
Proof.
  intros Hne. unfold label_of, remove_tab.
  induction ts as [| t ts IH]; [reflexivity |]. simpl.
  destruct (Nat.eqb (tab_id t) j) eqn:Ej; simpl.
  - apply Nat.eqb_eq in Ej.
    assert (Nat.eqb (tab_id t) i = false) as ->
        by (apply Nat.eqb_neq; congruence).
    exact IH.
  - destruct (Nat.eqb (tab_id t) i); [reflexivity | exact IH].
Qed.

Lemma label_of_activatePdfTab i k s :
  label_of i (pdfTabs (activatePdfTab k s)) = label_of i (pdfTabs s).
Proof.
  unfold activatePdfTab. destruct (get k (openPdfs s)); [| reflexivity].
  simpl. now rewrite label_of_add_active, label_of_clear_active.
Qed.

(** Closing a tab leaves the entries under the other keys alone. *)
Lemma closePdfTab_get_other k k' s :
  k' <> k ->
  get k' (openPdfs (closePdfTab k s)) = get k' (openPdfs s).
Proof.
  intros Hne. unfold closePdfTab.
  destruct (get k (openPdfs s)) as [e |]; [| reflexivity].
  cbn [openPdfs persistStateToSession with_session].
  match goal with
  | |- get k' (openPdfs (if ?c then ?a else ?b)) = _ =>
      assert (openPdfs (if c then a else b) = delete k (openPdfs s)) as ->
  end.
  { destruct (match activePdfKey _ with Some _ => _ | None => _ end);
      simpl; destruct (keys (delete k (openPdfs s)));
      rewrite ?openPdfs_activatePdfTab; reflexivity. }
  now apply get_delete_other.
Qed.

(** ... and the labels of the other tab elements. *)
Lemma closePdfTab_label_other k e i s :
  get k (openPdfs s) = Some e -> i <> e_tab e ->
  label_of i (pdfTabs (closePdfTab k s)) = label_of i (pdfTabs s).
Proof.
  intros Hk Hne. unfold closePdfTab. rewrite Hk.
  cbn [pdfTabs persistStateToSession with_session].
  match goal with
  | |- label_of i (pdfTabs (if ?c then ?a else ?b)) = _ =>
      assert (label_of i (pdfTabs (if c then a else b))
              = label_of i (remove_tab (e_tab e) (pdfTabs s))) as ->
  end.
  { destruct (match activePdfKey _ with Some _ => _ | None => _ end);
      simpl; destruct (keys (delete k (openPdfs s)));
      rewrite ?label_of_activatePdfTab; reflexivity. }
  now apply label_of_remove_other.
Qed.

End Tab_facts.



Lemma get_In_values {V} k (v : V) (o : obj V) :
  get k o = Some v -> In v (values o).
Proof.
  induction o as [| [k' v'] o IH]; [discriminate |]. simpl.
  destruct (jstr_eq_dec k' k); [intros [= ->]; now left |].
  intros H. right. now apply IH.
Qed.

Section Open_duplicate.

Lemma wf_entry_tab_lt s k e :
  tabs_wf s -> get k (openPdfs s) = Some e -> e_tab e < next_tab s.
Proof.
  intros [_ [_ [_ [Hiff [Hlt _]]]]] Hk.
  assert (In (e_tab e) (map e_tab (values (openPdfs s)))) as Hin
      by (apply in_map; eapply get_In_values; eassumption).
  apply Hiff in Hin. apply in_map_iff in Hin.
  destruct Hin as [t [Ht Hin]]. rewrite Forall_forall in Hlt.
  rewrite <- Ht. now apply Hlt.
Qed.

Lemma clear_active_all o ts :
  (forall t, In t ts -> In (tab_id t) (map e_tab (values o))) ->
  clear_active o ts = map (set_tab_active false) ts.
Proof.
  intros H. unfold clear_active. apply map_ext_in. intros t Ht.
  assert (memb (tab_id t) (map e_tab (values o)) = true) as ->
      by (apply memb_In; auto).
  reflexivity.
Qed.

Lemma add_active_none i ts :
  (forall t, In t ts -> tab_id t <> i) -> add_active i ts = ts.
Proof.
  intros H. unfold add_active. rewrite <- (map_id ts) at 2.
  apply map_ext_in. intros t Ht. specialize (H t Ht).
  apply Nat.eqb_neq in H. now rewrite H.
Qed.

Lemma label_of_absent i ts :
  (forall t, In t ts -> tab_id t <> i) -> label_of i ts = None.
Proof.
  intros H. unfold label_of.
  destruct (find _ ts) as [t |] eqn:E; [| reflexivity].
  apply find_some in E. destruct E as [Hin E]. apply Nat.eqb_eq in E.
  now elim (H t Hin).
Qed.

Lemma label_of_app_found i l1 l2 :
  In i (map tab_id l1) -> label_of i (l1 ++ l2) = label_of i l1.
Proof.
  intros Hin. unfold label_of. rewrite find_app.
  destruct (find _ l1) eqn:E; [reflexivity |].
  apply in_map_iff in Hin. destruct Hin as [t [Ht Hin]].
  pose proof (find_none _ _ E t Hin) as H. simpl in H.
  rewrite Ht, Nat.eqb_refl in H. discriminate.
Qed.

Lemma label_of_app_absent i l1 l2 :
  (forall t, In t l1 -> tab_id t <> i) ->
  label_of i (l1 ++ l2) = label_of i l2.
Proof.
  intros H. unfold label_of. rewrite find_app.
  destruct (find _ l1) as [t |] eqn:E; [| reflexivity].
  apply find_some in E. destruct E as [Hin E]. apply Nat.eqb_eq in E.
  now elim (H t Hin).
Qed.

End Open_duplicate.

(** C4.  When [filename] is the key of an open tab, [openPdfInTab] takes as
    tab key [filename] followed by [ (n)] for the smallest [n], from 2 on,
    whose key is not open; the new entry comes last in [openPdfs], its tab
    last in the strip, and it is the active one: [activePdfKey] is its key,
    its tab is the only one marked active and the viewer shows its document.
    Closing either of the two tabs of [filename] leaves the entry of the
    other under its key and the label of its tab as they were. *)
Theorem openPdfInTab_duplicate (s : app) (filename url aimTitle : jstr)
    (e : pdf_entry) :
  tabs_wf s ->
  get filename (openPdfs s) = Some e ->
  exists n,
    (2 <= n)%N
    /\ let tabKey := suffixed filename n in
       let label := tab_label filename aimTitle in
       let shown := displayLabel filename tabKey label in
       let new := {| e_tab := next_tab s; e_url := url; e_label := shown;
                     e_filename := Some filename; e_aimTitle := label |} in
       let s' := openPdfInTab filename url aimTitle s in
       get tabKey (openPdfs s) = None
       /\ (forall m, (2 <= m < n)%N ->
                     get (suffixed filename m) (openPdfs s) <> None)
       /\ openPdfs s' = openPdfs s ++ [(tabKey, new)]
       /\ activePdfKey s' = Some tabKey
       /\ viewer_src s' = buildPdfJsViewerUrl url (tab_opts label)
       /\ pdfTabs s'
          = map (set_tab_active false) (pdfTabs s)
            ++ [{| tab_id := next_tab s; tab_text := shown;
                   tab_active := true; tab_onclose := CloseDirect tabKey |}]
       /\ get filename (openPdfs (closePdfTab tabKey s')) = Some e
       /\ label_of (e_tab e) (pdfTabs (closePdfTab tabKey s'))
          = label_of (e_tab e) (pdfTabs s)
       /\ get tabKey (openPdfs (closePdfTab filename s')) = Some new
       /\ label_of (next_tab s) (pdfTabs (closePdfTab filename s'))
          = Some shown.
Proof.
  intros Hwf Hf.
  destruct (unique_tab_key_taken (openPdfs s) filename) as [n [Hn [Hkey [Hfree Hmin]]]];
    [congruence |].
  exists n. split; [exact Hn |]. cbv zeta.
  set (tabKey := suffixed filename n) in *.
  set (label := tab_label filename aimTitle).
  set (shown := displayLabel filename tabKey label).
  set (new := {| e_tab := next_tab s; e_url := url; e_label := shown;
                 e_filename := Some filename; e_aimTitle := label |}).
  set (s' := openPdfInTab filename url aimTitle s).
  assert (Hset : set tabKey new (openPdfs s) = openPdfs s ++ [(tabKey, new)])
    by (apply set_fresh_named; [exact Hfree | apply suffixed_not_index]).
  assert (Hne : filename <> tabKey) by apply base_not_suffixed.
  pose proof (wf_entry_tab_lt _ _ _ Hwf Hf) as Hlt.
  destruct Hwf as [_ [_ [_ [Hiff [Hids _]]]]].
  rewrite Forall_forall in Hids.
  assert (Hs' : s' = persistStateToSession
                   (with_viewer (buildPdfJsViewerUrl url (tab_opts label))
                      (with_pdfTabs
                         (map (set_tab_active false) (pdfTabs s)
                          ++ [{| tab_id := next_tab s; tab_text := shown;
                                 tab_active := true;
                                 tab_onclose := CloseDirect tabKey |}])
                         (with_active (Some tabKey)
                            (with_openPdfs (openPdfs s ++ [(tabKey, new)])
                               (with_next_tab (S (next_tab s))
                                  (with_pdfTabs
                                     (pdfTabs s
                                      ++ [{| tab_id := next_tab s;
                                             tab_text := shown;
                                             tab_active := false;
                                             tab_onclose :=
                                               CloseDirect tabKey |}])
                                     s))))))).
  { unfold s'. rewrite openPdfInTab_unfold. cbv zeta.
    rewrite Hkey. fold tabKey. fold label. fold shown. fold new.
    rewrite Hset. do 3 f_equal.
    rewrite clear_active_all.
    - rewrite map_app. simpl.
      unfold add_active. rewrite map_app. simpl.
      rewrite Nat.eqb_refl. f_equal.
      rewrite <- (map_id (map (set_tab_active false) (pdfTabs s))) at 2.
      apply map_ext_in. intros t Ht. apply in_map_iff in Ht.
      destruct Ht as [t0 [<- Ht0]]. simpl.
      specialize (Hids t0 Ht0). simpl in Hids.
      assert (Nat.eqb (tab_id t0) (next_tab s) = false) as ->
          by (apply Nat.eqb_neq; lia).
      reflexivity.
    - intros t Ht. unfold values. rewrite !map_app. simpl.
      apply in_or_app. apply in_app_or in Ht. destruct Ht as [Ht | [<- | []]].
      + left. apply Hiff. now apply in_map.
      + right. now left. }
  assert (Ho' : openPdfs s' = openPdfs s ++ [(tabKey, new)])
    by (rewrite Hs'; reflexivity).
  assert (Ht' : pdfTabs s'
                = map (set_tab_active false) (pdfTabs s)
                  ++ [{| tab_id := next_tab s; tab_text := shown;
                         tab_active := true;
                         tab_onclose := CloseDirect tabKey |}])
    by (rewrite Hs'; reflexivity).
  assert (Hnew : get tabKey (openPdfs s') = Some new)
    by (rewrite Ho'; now apply get_app_fresh).
  assert (Hold : get filename (openPdfs s') = Some e)
    by (rewrite Ho', get_app_other; [exact Hf | congruence]).
  split; [exact Hfree |]. split; [exact Hmin |]. split; [exact Ho' |].
  split; [rewrite Hs'; reflexivity |]. split; [rewrite Hs'; reflexivity |].
  split; [exact Ht' |].
  split; [| split; [| split]].
  - rewrite closePdfTab_get_other; [exact Hold | exact Hne].
  - rewrite (closePdfTab_label_other tabKey new); [| exact Hnew | simpl; lia].
    rewrite Ht'. rewrite label_of_app_found.
    + apply label_of_map. intros t. split; reflexivity.
    + rewrite map_map. simpl. apply Hiff. apply in_map.
      eapply get_In_values; eassumption.
  - rewrite closePdfTab_get_other; [exact Hnew | congruence].
  - rewrite (closePdfTab_label_other filename e); [| exact Hold | lia].
    rewrite Ht'. rewrite label_of_app_absent.
    + unfold label_of. simpl. now rewrite Nat.eqb_refl.
    + intros t Ht. apply in_map_iff in Ht. destruct Ht as [t0 [<- Ht0]].
      specialize (Hids t0 Ht0). simpl in *. lia.
Qed.

(** The page with [report.pdf] open is of the shape above. *)
Lemma page1_wf : tabs_wf page1.
Proof.
  unfold tabs_wf, ordered.
  assert (E : page1 = ltac:(let x := eval vm_compute in page1 in exact x)) by (vm_compute; reflexivity).
  rewrite E. cbn [openPdfs pdfTabs next_tab keys values map fst snd e_tab tab_id].
  repeat split;
    try solve [repeat constructor; simpl; tauto];
    try solve [intros H; exact H];
    try solve [repeat constructor; simpl; lia];
    solve [repeat constructor; eexists; split; reflexivity].
Qed.

Lemma openPdfInTab_duplicate_witness :
  tabs_wf page1
  /\ get (lit "report.pdf") (openPdfs page1)
     = Some {| e_tab := 0; e_url := report_url; e_label := lit "Report";
               e_filename := Some (lit "report.pdf");
               e_aimTitle := lit "Report" |}
  /\ keys (openPdfs page2) = [lit "report.pdf"; lit "report.pdf (2)"]
  /\ map tab_text (pdfTabs page2) = [lit "Report"; lit "Report (2)"]
  /\ exists n, (2 <= n)%N
               /\ activePdfKey page2 = Some (suffixed (lit "report.pdf") n).
Proof.
  split; [exact page1_wf |]. split; [reflexivity |].
  split; [reflexivity |]. split; [reflexivity |].
  destruct (openPdfInTab_duplicate page1 (lit "report.pdf") report_url
              (lit "Report") _ page1_wf eq_refl)
    as [n [Hn [_ [_ [_ [Hact _]]]]]].
  exists n. split; [exact Hn | exact Hact].
Defined.

(** Closing [report.pdf] of the two leaves [report.pdf (2)] as the only tab,
    and the active one. *)
Example close_first_of_two :
  let s := closePdfTab (lit "report.pdf") page2 in
  keys (openPdfs s) = [lit "report.pdf (2)"]
  /\ activePdfKey s = Some (lit "report.pdf (2)")
  /\ map (fun t => (tab_text t, tab_active t)) (pdfTabs s)
     = [(lit "Report (2)", true)].
Proof. vm_compute. repeat split. Qed.

Ltac proj_simpl :=
  cbn [layers boxes archiveData openPdfs activePdfKey pdfTabs next_tab
       viewer_src doc_dir session with_layers with_boxes with_openPdfs
       with_active with_pdfTabs with_next_tab with_viewer with_session
       persistStateToSession].

Section Close_facts.

Lemma e_tabs_delete k e (o : obj pdf_entry) i :
  NoDup (keys o) -> get k o = Some e ->
  (In i (map e_tab (values o))
   <-> i = e_tab e \/ In i (map e_tab (values (delete k o)))).
Proof.
  intros Hnd Hk.
  pose proof (delete_perm k e o Hnd Hk) as P.
  assert (Permutation (map e_tab (values o))
                      (e_tab e :: map e_tab (values (delete k o)))) as P'.
  { unfold values. rewrite !map_map.
    apply (Permutation_map (fun x => e_tab (snd x))) in P. exact P. }
  split; intros H.
  - apply (Permutation_in _ P') in H. destruct H as [<- | H]; auto.
  - apply (Permutation_in _ (Permutation_sym P')). destruct H as [-> | H];
      [now left | now right].
Qed.

Lemma NoDup_e_tabs_delete k e (o : obj pdf_entry) :
  NoDup (keys o) -> get k o = Some e ->
  NoDup (map e_tab (values o)) ->
  NoDup (map e_tab (values (delete k o)))
  /\ ~ In (e_tab e) (map e_tab (values (delete k o))).
Proof.
  intros Hnd Hk Ht.
  pose proof (delete_perm k e o Hnd Hk) as P.
  assert (Permutation (map e_tab (values o))
                      (e_tab e :: map e_tab (values (delete k o)))) as P'.
  { unfold values. rewrite !map_map.
    apply (Permutation_map (fun x => e_tab (snd x))) in P. exact P. }
  apply (Permutation_NoDup P') in Ht. inversion Ht; subst. now split.
Qed.

Lemma In_remove_tab t i ts :
  In t (remove_tab i ts) <-> In t ts /\ tab_id t <> i.
Proof.
  unfold remove_tab. rewrite filter_In.
  rewrite negb_true_iff, Nat.eqb_neq. tauto.
Qed.

Lemma keys_head_get {V} k r (o : obj V) :
  keys o = k :: r -> exists v, get k o = Some v.
Proof.
  destruct o as [| [k' v'] o]; [discriminate |]. simpl.
  intros [= -> _]. exists v'. now destruct (jstr_eq_dec k k).
Qed.

(** [closePdfTab] on the active tab: the first remaining tab becomes the
    active one and the only one marked so, or nothing is left, the active
    key is cleared and the viewer blank. *)
Lemma closePdfTab_active (s : app) (k : jstr) (e : pdf_entry) :
  tabs_wf s ->
  activePdfKey s = Some k ->
  get k (openPdfs s) = Some e ->
  let s' := closePdfTab k s in
  openPdfs s' = delete k (openPdfs s)
  /\ get k (openPdfs s') = None
  /\ match keys (openPdfs s') with
     | [] => activePdfKey s' = None /\ viewer_src s' = []
             /\ pdfTabs s' = []
     | k' :: _ =>
         activePdfKey s' = Some k'
         /\ exists e',
             get k' (openPdfs s') = Some e'
             /\ viewer_src s'
                = buildPdfJsViewerUrl (e_url e') (tab_opts (e_aimTitle e'))
             /\ (exists t, In t (pdfTabs s') /\ tab_id t = e_tab e')
             /\ forall t, In t (pdfTabs s') ->
                          (tab_active t = true <-> tab_id t = e_tab e')
     end.
Proof.
  intros [[Hnd _] [Hids [Hets [Hiff _]]]] Hact Hk s'.
  unfold s', closePdfTab. rewrite Hk.
  proj_simpl. rewrite Hact. unfold str_eqb. destruct (jstr_eq_dec k k); [| contradiction].
  set (s1 := with_openPdfs (delete k (openPdfs s))
               (with_pdfTabs (remove_tab (e_tab e) (pdfTabs s)) s)).
  assert (Hrest : forall t, In t (remove_tab (e_tab e) (pdfTabs s)) ->
             In (tab_id t) (map e_tab (values (delete k (openPdfs s))))).
  { intros t Ht. apply In_remove_tab in Ht. destruct Ht as [Ht Hne].
    assert (In (tab_id t) (map e_tab (values (openPdfs s)))) as Hin
        by (apply Hiff; now apply in_map).
    apply (e_tabs_delete k e _ _ Hnd Hk) in Hin.
    destruct Hin as [E | Hin]; [contradiction | exact Hin]. }
  destruct (keys (delete k (openPdfs s))) as [| k' r] eqn:Hkeys.
  - unfold s1. proj_simpl.
    split; [reflexivity |]. split; [apply get_delete_same |].
    rewrite Hkeys. split; [reflexivity |]. split; [reflexivity |].
    destruct (remove_tab (e_tab e) (pdfTabs s)) as [| t ts] eqn:E;
      [reflexivity |].
    exfalso. specialize (Hrest t (or_introl eq_refl)).
    unfold keys in Hkeys. apply map_eq_nil in Hkeys.
    rewrite Hkeys in Hrest. exact Hrest.
  - destruct (keys_head_get _ _ _ Hkeys) as [e' He'].
    rewrite (activatePdfTab_present k' e' s1 He').
    unfold s1. proj_simpl.
    split; [reflexivity |]. split; [apply get_delete_same |].
    rewrite Hkeys. split; [reflexivity |].
    exists e'. split; [exact He' |]. split; [reflexivity |].
    rewrite (clear_active_all _ _ Hrest).
    assert (Hin' : In (e_tab e') (map tab_id (remove_tab (e_tab e) (pdfTabs s)))).
    { assert (In (e_tab e') (map e_tab (values (delete k (openPdfs s)))))
        as H1 by (apply in_map; eapply get_In_values; exact He').
      assert (In (e_tab e') (map e_tab (values (openPdfs s)))) as H2
          by (apply (e_tabs_delete k e _ _ Hnd Hk); now right).
      apply Hiff in H2. apply in_map_iff in H2.
      destruct H2 as [t [Ht Hin]]. apply in_map_iff. exists t.
      split; [exact Ht |]. apply In_remove_tab. split; [exact Hin |].
      rewrite Ht. intros E.
      destruct (NoDup_e_tabs_delete k e _ Hnd Hk Hets) as [_ Hno].
      apply Hno. now rewrite <- E. }
    split.
    + apply in_map_iff in Hin'. destruct Hin' as [t [Ht Hin]].
      exists (set_tab_active true (set_tab_active false t)).
      split; [| exact Ht].
      unfold add_active. apply in_map_iff.
      exists (set_tab_active false t). split.
      * simpl. rewrite Ht, Nat.eqb_refl. reflexivity.
      * now apply in_map.
    + intros t Ht. unfold add_active in Ht. apply in_map_iff in Ht.
      destruct Ht as [t1 [<- Ht1]]. apply in_map_iff in Ht1.
      destruct Ht1 as [t0 [<- Ht0]]. simpl.
      destruct (Nat.eqb (tab_id t0) (e_tab e')) eqn:E; simpl.
      * apply Nat.eqb_eq in E. tauto.
      * apply Nat.eqb_neq in E. split; [discriminate | contradiction].
Qed.

End Close_facts.

(** C2 fails on the close handler of a restored tab.  With [report.pdf]
    restored as the only and active tab, its close button leaves no tab and a
    blank viewer, but [activePdfKey] still names the removed entry.  With two
    restored tabs of which the active one has spaces in its file name, its
    close button leaves the other tab, not marked active, [activePdfKey]
    naming the removed entry and the viewer on the closed document.
    [closePdfTab] on the same pages clears the key or moves on to the
    remaining tab. *)
Theorem restored_close_keeps_removed_key :
  (exists t,
      pdfTabs restored1 = [t]
      /\ tab_onclose t = CloseRestored (lit "report.pdf")
      /\ activePdfKey restored1 = Some (lit "report.pdf")
      /\ let s' := click_close t restored1 in
         openPdfs s' = [] /\ pdfTabs s' = [] /\ viewer_src s' = []
         /\ activePdfKey s' = Some (lit "report.pdf")
         /\ get (lit "report.pdf") (openPdfs s') = None)
  /\ activePdfKey (closePdfTab (lit "report.pdf") restored1) = None
  /\ (exists t u,
         pdfTabs restored2 = [t; u]
         /\ tab_onclose t = CloseRestored (lit "Annual Report 1927.pdf")
         /\ activePdfKey restored2 = Some (lit "Annual Report 1927.pdf")
         /\ let s' := click_close t restored2 in
            keys (openPdfs s') = [lit "b.pdf"]
            /\ map tab_active (pdfTabs s') = [false]
            /\ activePdfKey s' = Some (lit "Annual Report 1927.pdf")
            /\ get (lit "Annual Report 1927.pdf") (openPdfs s') = None
            /\ viewer_src s' = viewer_src restored2)
  /\ activePdfKey (closePdfTab (lit "Annual Report 1927.pdf") restored2)
     = Some (lit "b.pdf").
Proof.
  split; [| split; [| split]].
  - eexists. split; [vm_compute; reflexivity |]. vm_compute. repeat split.
  - vm_compute. reflexivity.
  - eexists. eexists. split; [vm_compute; reflexivity |].
    vm_compute. repeat split.
  - vm_compute. reflexivity.
Qed.

(* ================================================================== *)
(** * Properties: the shape of the tab table is kept *)
(* ================================================================== *)

Section Shape_facts.

Lemma tabs_wf_core_iff s :
  tabs_wf s <-> tabs_wf_core (openPdfs s) (strip_sig (pdfTabs s)) (next_tab s).
Proof.
  unfold tabs_wf, tabs_wf_core, strip_sig.
  rewrite !map_map. cbn [fst snd]. rewrite !Forall_map. cbn [fst snd].
  reflexivity.
Qed.

Lemma strip_sig_map_active (c : tab_el -> bool) a ts :
  strip_sig (map (fun t => if c t then set_tab_active a t else t) ts)
  = strip_sig ts.
Proof.
  unfold strip_sig. rewrite map_map. apply map_ext. intros t.
  now destruct (c t).
Qed.

Lemma strip_sig_activatePdfTab k s :
  strip_sig (pdfTabs (activatePdfTab k s)) = strip_sig (pdfTabs s).
Proof.
  unfold activatePdfTab. destruct (get k (openPdfs s)); [| reflexivity].
  proj_simpl. unfold add_active, clear_active.
  now rewrite !strip_sig_map_active.
Qed.

Lemma strip_sig_remove_tab i ts :
  strip_sig (remove_tab i ts)
  = filter (fun x => negb (Nat.eqb (fst x) i)) (strip_sig ts).
Proof.
  unfold strip_sig, remove_tab. induction ts as [| t ts IH]; [reflexivity |].
  simpl. destruct (Nat.eqb (tab_id t) i); simpl; now rewrite IH.
Qed.

(** A new entry with a new tab element. *)
Lemma core_add o sig next k e :
  tabs_wf_core o sig next -> get k o = None -> e_tab e = next ->
  tabs_wf_core (set k e o) (sig ++ [(next, k)]) (S next).
Proof.
  intros [Ho [Hids [Hets [Hiff [Hlt Hcl]]]]] Hk He.
  assert (Hfresh : ~ In next (map fst sig)).
  { intros Hin. rewrite Forall_forall in Hlt. apply in_map_iff in Hin.
    destruct Hin as [x [Hx Hin]]. specialize (Hlt x Hin). lia. }
  assert (Hperm : Permutation (map e_tab (values (set k e o)))
                              (next :: map e_tab (values o))).
  { unfold values. rewrite !map_map. rewrite <- He.
    apply (Permutation_map (fun x => e_tab (snd x))
             (set_fresh_perm k e o Hk)). }
  split; [now apply ordered_set |].
  split; [rewrite map_app; simpl; now apply NoDup_snoc |].
  split.
  { apply (Permutation_NoDup (Permutation_sym Hperm)).
    constructor; [| exact Hets]. intros Hin. apply Hfresh. now apply Hiff. }
  split.
  { intros i. rewrite map_app, in_app_iff. simpl. split.
    - intros [Hin | [<- | []]];
        apply (Permutation_in _ (Permutation_sym Hperm));
        [right; now apply Hiff | now left].
    - intros Hin. apply (Permutation_in _ Hperm) in Hin.
      destruct Hin as [<- | Hin]; [right; now left | left; now apply Hiff]. }
  split.
  { apply Forall_app. split.
    - eapply Forall_impl; [| exact Hlt]. intros x Hx. simpl in *. lia.
    - constructor; [simpl; lia | constructor]. }
  apply Forall_app. split.
  - eapply Forall_impl; [| exact Hcl]. intros x [e0 [Hg Ht]].
    exists e0. split; [| exact Ht].
    rewrite get_set_other; [exact Hg |]. intros E. rewrite E in Hg.
    congruence.
  - constructor; [| constructor]. exists e. simpl.
    split; [apply get_set_same | exact He].
Qed.

(** An entry goes, with its tab element. *)
Lemma core_remove o sig next k e :
  tabs_wf_core o sig next -> get k o = Some e ->
  tabs_wf_core (delete k o)
               (filter (fun x => negb (Nat.eqb (fst x) (e_tab e))) sig) next.
Proof.
  intros [Ho [Hids [Hets [Hiff [Hlt Hcl]]]]] Hk.
  destruct Ho as [Hnd Hs].
  destruct (NoDup_e_tabs_delete k e o Hnd Hk Hets) as [Hets' Hno].
  assert (Hfilter : forall i,
             In i (map fst (filter (fun x => negb (Nat.eqb (fst x) (e_tab e)))
                                   sig))
             <-> In i (map fst sig) /\ i <> e_tab e).
  { intros i. rewrite !in_map_iff. split.
    - intros [x [Hx Hin]]. apply filter_In in Hin. destruct Hin as [Hin Hne].
      apply negb_true_iff, Nat.eqb_neq in Hne. split; [eauto | congruence].
    - intros [[x [Hx Hin]] Hne]. exists x. split; [exact Hx |].
      apply filter_In. split; [exact Hin |].
      apply negb_true_iff, Nat.eqb_neq. congruence. }
  split; [now apply ordered_delete |].
  split.
  { clear - Hids. induction sig as [| x sig IH]; [constructor |].
    simpl in *. inversion Hids as [| ? ? Hx Hr]; subst.
    destruct (negb (Nat.eqb (fst x) (e_tab e))); [| now apply IH].
    simpl. constructor; [| now apply IH].
    intros Hin. apply Hx. apply in_map_iff in Hin.
    destruct Hin as [y [Hy Hin]]. apply filter_In in Hin.
    apply in_map_iff. exists y. tauto. }
  split; [exact Hets' |].
  split.
  { intros i. rewrite Hfilter, Hiff, (e_tabs_delete k e o i Hnd Hk).
    split.
    - intros [[E | Hin] Hne]; [contradiction | exact Hin].
    - intros Hin. split; [now right |]. intros ->. contradiction. }
  split.
  { apply Forall_forall. intros x Hx. apply filter_In in Hx.
    rewrite Forall_forall in Hlt. apply Hlt. tauto. }
  apply Forall_forall. intros x Hx. apply filter_In in Hx.
  destruct Hx as [Hx Hne]. apply negb_true_iff, Nat.eqb_neq in Hne.
  rewrite Forall_forall in Hcl. destruct (Hcl x Hx) as [e0 [Hg Ht]].
  exists e0. split; [| exact Ht].
  rewrite get_delete_other; [exact Hg |].
  intros E. rewrite E, Hk in Hg. injection Hg as <-. congruence.
Qed.

Lemma tabs_wf_activatePdfTab k s : tabs_wf s -> tabs_wf (activatePdfTab k s).
Proof.
  rewrite !tabs_wf_core_iff.
  now rewrite openPdfs_activatePdfTab, strip_sig_activatePdfTab,
    next_tab_activatePdfTab.
Qed.

Lemma tabs_wf_persist s : tabs_wf s -> tabs_wf (persistStateToSession s).
Proof. intros H. exact H. Qed.

Lemma tabs_wf_openPdfInTab filename url aimTitle s :
  tabs_wf s -> tabs_wf (openPdfInTab filename url aimTitle s).
Proof.
  intros Hwf. rewrite openPdfInTab_unfold. cbv zeta.
  apply tabs_wf_persist. apply tabs_wf_core_iff. proj_simpl.
  unfold add_active, clear_active. rewrite !strip_sig_map_active.
  unfold strip_sig. rewrite map_app. cbn [map tab_id close_key tab_onclose].
  apply core_add.
  - now apply tabs_wf_core_iff.
  - apply unique_tab_key_fresh.
  - reflexivity.
Qed.

Lemma tabs_wf_closePdfTab k s : tabs_wf s -> tabs_wf (closePdfTab k s).
Proof.
  intros Hwf. unfold closePdfTab.
  destruct (get k (openPdfs s)) as [e |] eqn:Hk; [| exact Hwf].
  apply tabs_wf_persist.
  assert (H1 : tabs_wf (with_openPdfs (delete k (openPdfs s))
                          (with_pdfTabs (remove_tab (e_tab e) (pdfTabs s)) s))).
  { apply tabs_wf_core_iff. proj_simpl. rewrite strip_sig_remove_tab.
    apply core_remove; [now apply tabs_wf_core_iff | exact Hk]. }
  proj_simpl.
  destruct (match activePdfKey s with Some _ => _ | None => _ end);
    destruct (keys (delete k (openPdfs s)));
    try exact H1; try (now apply tabs_wf_activatePdfTab); exact H1.
Qed.

Lemma tabs_wf_restored_close t s :
  tabs_wf s -> In t (pdfTabs s) ->
  tabs_wf (restored_close (tab_id t) (close_key t) s).
Proof.
  intros Hwf Hin.
  assert (exists e, get (close_key t) (openPdfs s) = Some e
                    /\ e_tab e = tab_id t) as [e [Hk He]].
  { destruct Hwf as [_ [_ [_ [_ [_ Hcl]]]]]. rewrite Forall_forall in Hcl.
    now apply Hcl. }
  assert (H1 : tabs_wf (with_openPdfs (delete (close_key t) (openPdfs s))
                          (with_pdfTabs (remove_tab (tab_id t) (pdfTabs s)) s))).
  { apply tabs_wf_core_iff. proj_simpl. rewrite strip_sig_remove_tab.
    rewrite <- He. apply core_remove; [now apply tabs_wf_core_iff | exact Hk]. }
  unfold restored_close. proj_simpl.
  destruct (_ && _); [| exact H1].
  destruct (keys (delete (close_key t) (openPdfs s))) as [| next r];
    [exact H1 |].
  destruct (truthy next); [| exact H1].
  now apply tabs_wf_activatePdfTab.
Qed.

Lemma tabs_wf_click_close t s :
  tabs_wf s -> In t (pdfTabs s) -> tabs_wf (click_close t s).
Proof.
  intros Hwf Hin. unfold click_close.
  pose proof (tabs_wf_restored_close t s Hwf Hin) as H.
  unfold close_key in H.
  destruct (tab_onclose t); [now apply tabs_wf_closePdfTab | exact H].
Qed.

Lemma tabs_wf_click_tab t s : tabs_wf s -> tabs_wf (click_tab t s).
Proof.
  intros Hwf. unfold click_tab.
  destruct (tab_onclose t); now apply tabs_wf_activatePdfTab.
Qed.

Lemma tabs_wf_restore_tab s t : tabs_wf s -> tabs_wf (restore_tab s t).
Proof.
  intros Hwf. unfold restore_tab.
  destruct (get (p_filename t) (openPdfs s)) eqn:Hk; [exact Hwf |].
  apply tabs_wf_core_iff. proj_simpl.
  unfold strip_sig. rewrite map_app. cbn [map tab_id close_key tab_onclose].
  apply core_add; [now apply tabs_wf_core_iff | exact Hk | reflexivity].
Qed.

(** The check boxes and the tabs do not meet. *)
Lemma tabs_on_change b s :
  openPdfs (on_change b s) = openPdfs s
  /\ pdfTabs (on_change b s) = pdfTabs s
  /\ next_tab (on_change b s) = next_tab s
  /\ activePdfKey (on_change b s) = activePdfKey s
  /\ archiveData (on_change b s) = archiveData s
  /\ viewer_src (on_change b s) = viewer_src s
  /\ boxes (on_change b s) = boxes s.
Proof. repeat split. Qed.

Lemma tabs_restore_layer s id :
  openPdfs (restore_layer s id) = openPdfs s
  /\ pdfTabs (restore_layer s id) = pdfTabs s
  /\ next_tab (restore_layer s id) = next_tab s
  /\ activePdfKey (restore_layer s id) = activePdfKey s
  /\ archiveData (restore_layer s id) = archiveData s
  /\ viewer_src (restore_layer s id) = viewer_src s.
Proof.
  unfold restore_layer. destruct (find_input id (boxes s)); [| repeat split].
  destruct (nth_error (boxes s) n) as [b |]; [| repeat split].
  destruct (box_checked b); repeat split.
Qed.

Lemma tabs_restore_layers ids : forall s,
  openPdfs (fold_left restore_layer ids s) = openPdfs s
  /\ pdfTabs (fold_left restore_layer ids s) = pdfTabs s
  /\ next_tab (fold_left restore_layer ids s) = next_tab s
  /\ activePdfKey (fold_left restore_layer ids s) = activePdfKey s
  /\ archiveData (fold_left restore_layer ids s) = archiveData s
  /\ viewer_src (fold_left restore_layer ids s) = viewer_src s.
Proof.
  induction ids as [| id ids IH]; intros s; [repeat split |].
  simpl. destruct (IH (restore_layer s id)) as [A [B [C [D [E F]]]]].
  destruct (tabs_restore_layer s id) as [A' [B' [C' [D' [E' F']]]]].
  repeat split; congruence.
Qed.

Lemma tabs_wf_same s s' :
  openPdfs s' = openPdfs s -> pdfTabs s' = pdfTabs s ->
  next_tab s' = next_tab s -> tabs_wf s -> tabs_wf s'.
Proof. unfold tabs_wf. intros -> -> ->. auto. Qed.

Lemma tabs_wf_restore_tabs ts : forall s,
  tabs_wf s -> tabs_wf (fold_left restore_tab ts s).
Proof.
  induction ts as [| t ts IH]; intros s H; [exact H |].
  simpl. apply IH. now apply tabs_wf_restore_tab.
Qed.

Lemma tabs_wf_restore s : tabs_wf s -> tabs_wf (restoreStateFromSession s).
Proof.
  intros Hwf. unfold restoreStateFromSession.
  destruct (session s) as [state |]; [| exact Hwf].
  destruct (tabs_restore_layers (enabledLayers state) s) as [A [B [C _]]].
  assert (H1 : tabs_wf (fold_left restore_layer (enabledLayers state) s))
    by (now apply (tabs_wf_same s)).
  destruct (openTabs state) as [| first rest] eqn:E; [exact H1 |].
  apply tabs_wf_activatePdfTab. now apply tabs_wf_restore_tabs.
Qed.

Lemma tabs_wf_toggle_box i s : tabs_wf s -> tabs_wf (toggle_box i s).
Proof.
  intros Hwf. unfold toggle_box. destruct (nth_error (boxes s) i); exact Hwf.
Qed.

(** Every state a page goes through has the shape [tabs_wf]. *)
Lemma reachable_tabs_wf s : reachable s -> tabs_wf s.
Proof.
  induction 1 as [s Ho Ht Ha | | | | |].
  - unfold tabs_wf. rewrite Ho, Ht. simpl.
    repeat split; try constructor; try tauto.
  - now apply tabs_wf_toggle_box.
  - now apply tabs_wf_openPdfInTab.
  - now apply tabs_wf_click_tab.
  - now apply tabs_wf_click_close.
  - now apply tabs_wf_restore.
Qed.

End Shape_facts.

(* ================================================================== *)
(** * Properties: session persistence *)
(* ================================================================== *)

Section Box_facts.

Lemma kinds_check_at i c bs :
  map box_kind_of (check_at i c bs) = map box_kind_of bs.
Proof.
  revert i. induction bs as [| b bs IH]; intros [| i]; simpl;
    try reflexivity. now rewrite IH.
Qed.

Lemma nth_check_at_same i c bs :
  nth_error (check_at i c bs) i = option_map (set_checked c) (nth_error bs i).
Proof.
  revert i. induction bs as [| b bs IH]; intros [| i]; simpl;
    try reflexivity. apply IH.
Qed.

Lemma nth_check_at_other i j c bs :
  j <> i -> nth_error (check_at i c bs) j = nth_error bs j.
Proof.
  revert i j. induction bs as [| b bs IH]; intros [| i] [| j] H; simpl;
    try reflexivity; try contradiction. apply IH. congruence.
Qed.

Lemma check_at_checked i bs b :
  nth_error bs i = Some b -> box_checked b = true -> check_at i true bs = bs.
Proof.
  revert i. induction bs as [| x bs IH]; intros [| i]; simpl;
    try discriminate.
  - intros [= ->] H. destruct b as [k c]. simpl in H. now subst c.
  - intros H1 H2. f_equal. now apply IH.
Qed.







Lemma str_eqb_eq a b : str_eqb a b = true <-> a = b.
Proof. unfold str_eqb. destruct (jstr_eq_dec a b); split; congruence. Qed.




Lemma boxes_restore_layer s id :
  boxes (restore_layer s id) = check_restored [id] (boxes s).
Proof.
  unfold restore_layer, check_restored. simpl.
  destruct (find_input id (boxes s)) as [i |]; [| reflexivity].
  destruct (nth_error (boxes s) i) as [b |] eqn:E.
  - destruct (box_checked b) eqn:Ec; [| reflexivity].
    symmetry. now apply (check_at_checked i _ b).
  - symmetry. clear - E. revert i E.
    induction (boxes s) as [| x l IH]; intros [| i]; simpl; try reflexivity;
      try discriminate. intros E. f_equal. now apply IH.
Qed.

Lemma boxes_restore_layers ids : forall s,
  boxes (fold_left restore_layer ids s) = check_restored ids (boxes s).
Proof.
  induction ids as [| id ids IH]; intros s; [reflexivity |].
  simpl. rewrite IH, boxes_restore_layer. reflexivity.
Qed.

Lemma kinds_check_restored ids : forall bs,
  map box_kind_of (check_restored ids bs) = map box_kind_of bs.
Proof.
  induction ids as [| id ids IH]; intros bs; [reflexivity |].
  unfold check_restored in *. simpl. rewrite IH.
  destruct (find_input id bs); [apply kinds_check_at | reflexivity].
Qed.




End Box_facts.

Section Restore_tabs_facts.

Lemma openPdfs_restore_tab s t :
  openPdfs (restore_tab s t)
  = match get (p_filename t) (openPdfs s) with
    | Some _ => openPdfs s
    | None =>
        set (p_filename t)
            {| e_tab := next_tab s; e_url := p_url t;
               e_label := str_or (restoredTitle (archiveData s) t)
                                 (p_filename t);
               e_filename := None;
               e_aimTitle := str_or (restoredTitle (archiveData s) t)
                                    (p_filename t) |}
            (openPdfs s)
    end.
Proof.
  unfold restore_tab. now destruct (get (p_filename t) (openPdfs s)).
Qed.


Lemma boxes_restore_tabs ts : forall s,
  boxes (fold_left restore_tab ts s) = boxes s.
Proof.
  induction ts as [| t ts IH]; intros s; [reflexivity |].
  simpl. rewrite IH. unfold restore_tab.
  now destruct (get (p_filename t) (openPdfs s)).
Qed.

(** Activating a tab marks its element and no other. *)
Lemma activatePdfTab_marks k e s :
  tabs_wf s -> get k (openPdfs s) = Some e ->
  (exists t, In t (pdfTabs (activatePdfTab k s)) /\ tab_id t = e_tab e)
  /\ forall t, In t (pdfTabs (activatePdfTab k s)) ->
               (tab_active t = true <-> tab_id t = e_tab e).
Proof.
  intros [_ [_ [_ [Hiff _]]]] Hk.
  rewrite (activatePdfTab_present k e s Hk). proj_simpl.
  rewrite clear_active_all
    by (intros t Ht; apply Hiff; now apply in_map).
  split.
  - assert (In (e_tab e) (map tab_id (pdfTabs s))) as Hin
        by (apply Hiff, in_map; eapply get_In_values; eassumption).
    apply in_map_iff in Hin. destruct Hin as [t [Ht Hin]].
    exists (set_tab_active true (set_tab_active false t)).
    split; [| exact Ht]. unfold add_active. apply in_map_iff.
    exists (set_tab_active false t). split; [| now apply in_map].
    simpl. now rewrite Ht, Nat.eqb_refl.
  - intros t Ht. unfold add_active in Ht. apply in_map_iff in Ht.
    destruct Ht as [t1 [<- Ht1]]. apply in_map_iff in Ht1.
    destruct Ht1 as [t0 [<- Ht0]]. simpl.
    destruct (Nat.eqb (tab_id t0) (e_tab e)) eqn:E; simpl.
    + apply Nat.eqb_eq in E. tauto.
    + apply Nat.eqb_neq in E. split; [discriminate | contradiction].
Qed.


End Restore_tabs_facts.




(* ================================================================== *)
(** * Properties: the restore against a replay of [openPdfInTab] *)
(* ================================================================== *)

Section Replay_facts.

Lemma obj_agree_keys {V} (P : V -> V -> Prop) o1 o2 :
  obj_agree P o1 o2 -> keys o1 = keys o2.
Proof.
  induction 1 as [| x y o1 o2 [Hk _] _ IH]; [reflexivity |].
  simpl. now rewrite Hk, IH.
Qed.

Lemma obj_agree_get {V} (P : V -> V -> Prop) k o1 o2 :
  obj_agree P o1 o2 ->
  match get k o1, get k o2 with
  | Some v1, Some v2 => P v1 v2
  | None, None => True
  | _, _ => False
  end.
Proof.
  induction 1 as [| [k1 v1] [k2 v2] o1 o2 [Hk Hp] _ IH]; [exact I |].
  simpl in *. subst k2. destruct (jstr_eq_dec k1 k); [exact Hp | exact IH].
Qed.

Lemma obj_agree_insert_index {V} (P : V -> V -> Prop) i k v1 v2 o1 o2 :
  obj_agree P o1 o2 -> P v1 v2 ->
  obj_agree P (insert_index i k v1 o1) (insert_index i k v2 o2).
Proof.
  intros H Hv. induction H as [| [k1 x1] [k2 x2] o1 o2 [Hk Hp] Hr IH].
  - constructor; [now split | constructor].
  - simpl in Hk. subst k2. simpl.
    destruct (array_index k1) as [j |].
    + destruct (j <? i)%N.
      * constructor; [now split | exact IH].
      * constructor; [now split |]. constructor; [now split | exact Hr].
    + constructor; [now split |]. constructor; [now split | exact Hr].
Qed.

(** Writing related values under a new key keeps two objects related. *)
Lemma obj_agree_set_fresh {V} (P : V -> V -> Prop) k v1 v2 o1 o2 :
  obj_agree P o1 o2 -> get k o1 = None -> P v1 v2 ->
  obj_agree P (set k v1 o1) (set k v2 o2).
Proof.
  intros H Hk Hv.
  assert (get k o2 = None) as Hk2.
  { pose proof (obj_agree_get P k o1 o2 H) as G. rewrite Hk in G.
    now destruct (get k o2). }
  unfold set, has. rewrite Hk, Hk2.
  destruct (array_index k).
  - now apply obj_agree_insert_index.
  - apply Forall2_app; [exact H |]. constructor; [now split | constructor].
Qed.

Lemma obj_agree_map {V W} (P : V -> V -> Prop) (g : V -> W) o1 o2 :
  obj_agree P o1 o2 -> (forall x y, P x y -> g x = g y) ->
  map g (values o1) = map g (values o2).
Proof.
  intros H Hg. induction H as [| x y o1 o2 [_ Hp] _ IH]; [reflexivity |].
  simpl. now rewrite (Hg _ _ Hp), IH.
Qed.

Lemma Forall2_map_eq {A B} (R : A -> A -> Prop) (g : A -> B) l1 l2 :
  Forall2 R l1 l2 -> (forall x y, R x y -> g x = g y) ->
  map g l1 = map g l2.
Proof.
  intros H Hg. induction H as [| x y l1 l2 Hr _ IH]; [reflexivity |].
  simpl. now rewrite (Hg _ _ Hr), IH.
Qed.

Lemma Forall2_tab_agree_map T (g : tab_el -> tab_el) l1 l2 :
  (forall t, tab_id (g t) = tab_id t /\ tab_text (g t) = tab_text t) ->
  Forall2 (tab_agree T) l1 l2 -> Forall2 (tab_agree T) l1 (map g l2).
Proof.
  intros Hg H. induction H as [| x y l1 l2 [Hi Ht] _ IH]; [constructor |].
  simpl. constructor; [| exact IH]. destruct (Hg y) as [Gi Gt].
  split; [congruence |]. intros HT. rewrite Gt. now apply Ht.
Qed.

Lemma displayLabel_own_key f label : displayLabel f f label = label.
Proof.
  unfold displayLabel, str_eqb. now destruct (jstr_eq_dec f f).
Qed.

Lemma archiveData_restore_tab s t :
  archiveData (restore_tab s t) = archiveData s.
Proof.
  unfold restore_tab. now destruct (get (p_filename t) (openPdfs s)).
Qed.

(** The title the restore gives a plain tab is the one [openPdfInTab] gives
    it. *)
Lemma plain_title_same archive t :
  plain_title archive t ->
  str_or (restoredTitle archive t) (p_filename t)
  = tab_label (p_filename t) (p_aimTitle t).
Proof.
  intros [Hrow [Ht Htrim]]. unfold restoredTitle, tab_label.
  rewrite Hrow, Htrim, Ht. unfold str_or at 2. rewrite Ht.
  unfold str_or. now rewrite Ht.
Qed.

(** One tab restored, and the same tab opened. *)
Lemma in_step_next T archive a b t :
  in_step T archive a b ->
  get (p_filename t) (openPdfs a) = None ->
  (T -> plain_title archive t) ->
  in_step T archive (restore_tab a t)
          (openPdfInTab (p_filename t) (p_url t) (p_aimTitle t) b).
Proof.
  intros [Ho [Ht [Hn [Hwa [Hwb Har]]]]] Hk Hplain.
  assert (Hkb : get (p_filename t) (openPdfs b) = None).
  { pose proof (obj_agree_get _ (p_filename t) _ _ Ho) as G.
    rewrite Hk in G. now destruct (get (p_filename t) (openPdfs b)). }
  split; [| split; [| split; [| split; [| split]]]].
  - rewrite openPdfs_restore_tab, Hk.
    rewrite openPdfInTab_unfold. cbv zeta. proj_simpl.
    rewrite (unique_tab_key_free _ _ Hkb), displayLabel_own_key.
    apply obj_agree_set_fresh; [exact Ho | exact Hk |].
    split; [exact Hn |]. split; [reflexivity |].
    intros HT. cbn [e_label e_aimTitle]. rewrite Har.
    rewrite (plain_title_same archive t (Hplain HT)). now split.
  - unfold restore_tab at 1. rewrite Hk.
    rewrite openPdfInTab_unfold. cbv zeta. proj_simpl.
    rewrite (unique_tab_key_free _ _ Hkb), displayLabel_own_key.
    unfold add_active, clear_active.
    apply Forall2_tab_agree_map;
      [intros x; now destruct (Nat.eqb _ _) |].
    apply Forall2_tab_agree_map;
      [intros x; now destruct (memb _ _) |].
    apply Forall2_app; [exact Ht |]. constructor; [| constructor].
    split; [exact Hn |]. intros HT. cbn [tab_text]. rewrite Har.
    apply (plain_title_same archive t (Hplain HT)).
  - unfold restore_tab. rewrite Hk.
    rewrite openPdfInTab_unfold. cbv zeta. proj_simpl. now rewrite Hn.
  - now apply tabs_wf_restore_tab.
  - now apply tabs_wf_openPdfInTab.
  - now rewrite archiveData_restore_tab.
Qed.

Lemma keys_restore_tab_sub a t k :
  In k (keys (openPdfs (restore_tab a t))) ->
  k = p_filename t \/ In k (keys (openPdfs a)).
Proof.
  rewrite openPdfs_restore_tab.
  destruct (get (p_filename t) (openPdfs a)) eqn:E; [now right |].
  intros Hin. apply get_In_keys in Hin.
  destruct (jstr_eq_dec k (p_filename t)) as [-> | Hne]; [now left |].
  right. apply get_In_keys. now rewrite get_set_other in Hin.
Qed.

(** All the tabs restored, and the same tabs opened. *)
Lemma in_step_all T archive ts : forall a b,
  in_step T archive a b ->
  NoDup (map p_filename ts) ->
  (forall k, In k (keys (openPdfs a)) -> ~ In k (map p_filename ts)) ->
  (T -> Forall (plain_title archive) ts) ->
  in_step T archive (fold_left restore_tab ts a)
          (fold_left (fun s t =>
                        openPdfInTab (p_filename t) (p_url t) (p_aimTitle t) s)
                     ts b).
Proof.
  induction ts as [| t ts IH]; intros a b Hab Hnd Hfresh Hplain;
    [exact Hab |].
  simpl. inversion Hnd as [| ? ? Hnot Hnd']; subst.
  apply IH.
  - apply in_step_next; [exact Hab | |].
    + apply get_None_keys. intros Hin. apply (Hfresh _ Hin). now left.
    + intros HT. specialize (Hplain HT). now inversion Hplain.
  - exact Hnd'.
  - intros k Hin Hk. apply keys_restore_tab_sub in Hin.
    destruct Hin as [-> | Hin]; [contradiction |].
    apply (Hfresh _ Hin). now right.
  - intros HT. specialize (Hplain HT). now inversion Hplain.
Qed.

Lemma map_active_activatePdfTab k e s :
  tabs_wf s -> get k (openPdfs s) = Some e ->
  map tab_active (pdfTabs (activatePdfTab k s))
  = map (fun t => Nat.eqb (tab_id t) (e_tab e)) (pdfTabs s)
  /\ map tab_id (pdfTabs (activatePdfTab k s)) = map tab_id (pdfTabs s)
  /\ map tab_text (pdfTabs (activatePdfTab k s)) = map tab_text (pdfTabs s).
Proof.
  intros [_ [_ [_ [Hiff _]]]] Hk.
  rewrite (activatePdfTab_present k e s Hk). proj_simpl.
  rewrite clear_active_all
    by (intros t Ht; apply Hiff; now apply in_map).
  unfold add_active. rewrite !map_map. repeat split; apply map_ext;
    intros t; simpl; now destruct (Nat.eqb (tab_id t) (e_tab e)).
Qed.

Lemma restore_entries_no_filename ts : forall a,
  Forall (fun e => e_filename e = None) (values (openPdfs a)) ->
  Forall (fun e => e_filename e = None)
         (values (openPdfs (fold_left restore_tab ts a))).
Proof.
  induction ts as [| t ts IH]; intros a Ha; [exact Ha |].
  simpl. apply IH. rewrite openPdfs_restore_tab.
  destruct (get (p_filename t) (openPdfs a)) eqn:E; [exact Ha |].
  apply Forall_forall. intros x Hx. unfold values in Hx.
  apply (Permutation_in _ (Permutation_map snd (set_fresh_perm _ _ _ E)))
    in Hx.
  destruct Hx as [<- | Hx]; [reflexivity |].
  rewrite Forall_forall in Ha. now apply Ha.
Qed.

End Replay_facts.

Lemma restoreStateFromSession_tabs s state :
  session s = Some state ->
  restoreStateFromSession s
  = restore_tabs (openTabs state)
                 (fold_left restore_layer (enabledLayers state) s).
Proof.
  intros H. unfold restoreStateFromSession, restore_tabs. rewrite H.
  now destruct (openTabs state).
Qed.

(** C3, as stated, fails: the restore is a code path of its own.  For the
    session of the page with [report.pdf] open, the entry the restore
    registers has no [filename] and its tab a close handler of its own,
    while [openPdfInTab] on the same (filename, url, title) registers the
    file name and the handler that calls [closePdfTab]; so the tables differ,
    and so does what closing the tab leaves in [activePdfKey]. *)
Lemma restore_is_not_replay :
  let s := reload builtin_layers (boxes page0) page1 in
  let ts := persisted_tabs (openPdfs page1) in
  let r := restoreStateFromSession s in
  let p := replay_openPdfInTab ts s in
  session s = Some {| enabledLayers := [lit "Street Overlay"]; openTabs := ts |}
  /\ map (fun kv => e_filename (snd kv)) (openPdfs r) = [None]
  /\ map (fun kv => e_filename (snd kv)) (openPdfs p)
     = [Some (lit "report.pdf")]
  /\ openPdfs r <> openPdfs p
  /\ map tab_onclose (pdfTabs r) = [CloseRestored (lit "report.pdf")]
  /\ map tab_onclose (pdfTabs p) = [CloseDirect (lit "report.pdf")]
  /\ (exists t u, pdfTabs r = [t] /\ pdfTabs p = [u]
                  /\ activePdfKey (click_close t r) = Some (lit "report.pdf")
                  /\ activePdfKey (click_close u p) = None).
Proof.
  cbv zeta. split; [reflexivity |]. split; [reflexivity |].
  split; [reflexivity |]. split; [| split; [reflexivity |]].
  - intros H.
    apply (f_equal (map (fun kv => e_filename (snd kv)))) in H.
    vm_compute in H. discriminate H.
  - split; [reflexivity |].
    eexists. eexists. split; [vm_compute; reflexivity |].
    split; [vm_compute; reflexivity |]. split; vm_compute; reflexivity.
Qed.

(** C3, amended.  [restoreStateFromSession] builds the tabs by a code path
    of its own.  Into a page without tabs, and for persisted tabs with
    distinct keys, its loop gives what [openPdfInTab] applied to the same
    (filename, url, title) in turn and an activation of the first tab give,
    in this much: the same keys in the same order, with the same tab elements
    and URLs, the same active key and the same tab marked active; and also
    the same labels, titles and viewer source when the archive feed has no
    row for the documents and the persisted titles are non-empty without
    white space around them.  The entries it registers have no [filename]. *)
Theorem restore_agrees_with_replay (s : app) (state : session_state) :
  session s = Some state ->
  openPdfs s = [] -> pdfTabs s = [] ->
  NoDup (map p_filename (openTabs state)) ->
  let s1 := fold_left restore_layer (enabledLayers state) s in
  let r := restoreStateFromSession s in
  let p := replay_openPdfInTab (openTabs state) s1 in
  keys (openPdfs r) = keys (openPdfs p)
  /\ map e_tab (values (openPdfs r)) = map e_tab (values (openPdfs p))
  /\ map e_url (values (openPdfs r)) = map e_url (values (openPdfs p))
  /\ activePdfKey r = activePdfKey p
  /\ map tab_id (pdfTabs r) = map tab_id (pdfTabs p)
  /\ map tab_active (pdfTabs r) = map tab_active (pdfTabs p)
  /\ (Forall (plain_title (archiveData s)) (openTabs state) ->
      map e_label (values (openPdfs r)) = map e_label (values (openPdfs p))
      /\ map e_aimTitle (values (openPdfs r))
         = map e_aimTitle (values (openPdfs p))
      /\ map tab_text (pdfTabs r) = map tab_text (pdfTabs p)
      /\ viewer_src r = viewer_src p)
  /\ Forall (fun e => e_filename e = None) (values (openPdfs r)).
Proof.
  intros Hs Ho Ht Hnd s1 r p.
  set (T := Forall (plain_title (archiveData s)) (openTabs state)).
  destruct (tabs_restore_layers (enabledLayers state) s)
    as [Ho1 [Ht1 [Hn1 [Ha1 [Har1 Hv1]]]]].
  fold s1 in Ho1, Ht1, Hn1, Ha1, Har1, Hv1.
  assert (Hwf1 : tabs_wf s1).
  { unfold tabs_wf. rewrite Ho1, Ho, Ht1, Ht. simpl.
    repeat split; try constructor; tauto. }
  assert (H0 : in_step T (archiveData s) s1 s1).
  { split; [| split; [| split; [| split; [| split]]]]; auto.
    - rewrite Ho1, Ho. constructor.
    - rewrite Ht1, Ht. constructor. }
  set (a := fold_left restore_tab (openTabs state) s1).
  set (b := fold_left (fun s t => openPdfInTab (p_filename t) (p_url t)
                                               (p_aimTitle t) s)
                      (openTabs state) s1).
  assert (Hab : in_step T (archiveData s) a b).
  { apply in_step_all; [exact H0 | exact Hnd | |].
    - intros k Hin. rewrite Ho1, Ho in Hin. destruct Hin.
    - intros HT. exact HT. }
  assert (Hr : r = restore_tabs (openTabs state) s1)
    by (now apply restoreStateFromSession_tabs).
  assert (Hnof : Forall (fun e => e_filename e = None) (values (openPdfs a))).
  { apply restore_entries_no_filename. rewrite Ho1, Ho. constructor. }
  clearbody r. subst r. unfold p, replay_openPdfInTab, restore_tabs.
  fold a. fold b. cbv zeta. clear p.
  destruct Hab as [Hobj [Htabs [Hn [Hwa [Hwb _]]]]].
  destruct (openTabs state) as [| first rest] eqn:Ets.
  - simpl in a, b. subst a b. repeat split; auto.
  - set (k := p_filename first).
    assert (Hina : get k (openPdfs a) <> None).
    { unfold a. simpl.
      assert (G : get k (openPdfs (restore_tab s1 first)) <> None).
      { rewrite openPdfs_restore_tab. fold k.
        destruct (get k (openPdfs s1)) eqn:E; [congruence |].
        rewrite get_set_same. discriminate. }
      revert G. generalize (restore_tab s1 first). clear.
      induction rest as [| t rest IH]; intros st G; [exact G |].
      simpl. apply IH. rewrite openPdfs_restore_tab.
      destruct (get (p_filename t) (openPdfs st)) eqn:E; [exact G |].
      destruct (jstr_eq_dec k (p_filename t)) as [-> | Hne];
        [now rewrite get_set_same | now rewrite get_set_other]. }
    pose proof (obj_agree_get _ k _ _ Hobj) as G.
    destruct (get k (openPdfs a)) as [ea |] eqn:Ea; [| congruence].
    destruct (get k (openPdfs b)) as [eb |] eqn:Eb; [| contradiction].
    destruct G as [Gt [Gu GT]].
    destruct (map_active_activatePdfTab k ea a Hwa Ea) as [A1 [A2 A3]].
    destruct (map_active_activatePdfTab k eb b Hwb Eb) as [B1 [B2 B3]].
    assert (Hids : map tab_id (pdfTabs a) = map tab_id (pdfTabs b)).
    { apply (Forall2_map_eq _ _ _ _ Htabs). now intros x y [H _]. }
    rewrite !openPdfs_activatePdfTab.
    split; [now apply (obj_agree_keys _ _ _ Hobj) |].
    split; [apply (obj_agree_map _ _ _ _ Hobj); now intros x y [H _] |].
    split; [apply (obj_agree_map _ _ _ _ Hobj); now intros x y [_ [H _]] |].
    split.
    { rewrite (activatePdfTab_present k ea a Ea),
        (activatePdfTab_present k eb b Eb). reflexivity. }
    split; [now rewrite A2, B2 |].
    split.
    { rewrite A1, B1, <- Gt.
      rewrite <- (map_map tab_id (fun i => Nat.eqb i (e_tab ea))).
      rewrite <- (map_map tab_id (fun i => Nat.eqb i (e_tab ea)) (pdfTabs b)).
      now rewrite Hids. }
    split; [| exact Hnof].
    intros HT.
    split; [apply (obj_agree_map _ _ _ _ Hobj); intros x y [_ [_ H]];
            now apply H |].
    split; [apply (obj_agree_map _ _ _ _ Hobj); intros x y [_ [_ H]];
            now apply H |].
    split.
    { rewrite A3, B3. apply (Forall2_map_eq _ _ _ _ Htabs).
      intros x y [_ H]. now apply H. }
    rewrite (activatePdfTab_present k ea a Ea),
      (activatePdfTab_present k eb b Eb). proj_simpl.
    destruct (GT HT) as [_ Gtitle]. now rewrite Gu, Gtitle.
Qed.

Lemma restore_agrees_with_replay_witness :
  let s := reload builtin_layers (boxes page0) page2 in
  let state := {| enabledLayers := [lit "Street Overlay"];
                  openTabs := persisted_tabs (openPdfs page2) |} in
  session s = Some state
  /\ openPdfs s = [] /\ pdfTabs s = []
  /\ NoDup (map p_filename (openTabs state))
  /\ keys (openPdfs (restoreStateFromSession s))
     = keys (openPdfs (replay_openPdfInTab (openTabs state)
                         (fold_left restore_layer (enabledLayers state) s)))
  /\ keys (openPdfs (restoreStateFromSession s))
     = [lit "report.pdf"; lit "report.pdf (2)"].
Proof.
  cbv zeta.
  assert (NoDup (map p_filename (persisted_tabs (openPdfs page2)))) as Hnd.
  { vm_compute. repeat constructor; simpl; intuition discriminate. }
  split; [reflexivity |]. split; [reflexivity |]. split; [reflexivity |].
  split; [exact Hnd |].
  split; [| vm_compute; reflexivity].
  assert (session (reload builtin_layers (boxes page0) page2)
          = Some {| enabledLayers := [lit "Street Overlay"];
                    openTabs := persisted_tabs (openPdfs page2) |}) as Hs
      by (vm_compute; reflexivity).
  pose proof (restore_agrees_with_replay
                (reload builtin_layers (boxes page0) page2)
                {| enabledLayers := [lit "Street Overlay"];
                   openTabs := persisted_tabs (openPdfs page2) |}
                Hs eq_refl eq_refl Hnd) as H.
  cbv zeta in H. destruct H as [H _]. exact H.
Defined.

(* ================================================================== *)
(** * Properties: URI decoding and the path helpers *)
(* ================================================================== *)

Ltac divlia := zify; Z.to_euclidean_division_equations; lia.

Section Decode_facts.
Import Uri.

(** An escape is a percent sign and two digits that read back as the
    octet. *)
Lemma pct_shape b :
  exists h l, pct b = [37%N; h; l] /\ hex_octet h l = Some (N_of_ascii b).
Proof.
  destruct b as [[] [] [] [] [] [] [] []];
    (eexists; eexists; split; [reflexivity | reflexivity]).
Qed.

Lemma N_of_ascii_lt b : (N_of_ascii b < 256)%N.
Proof. destruct b as [[] [] [] [] [] [] [] []]; reflexivity. Qed.

Lemma uri_byte_high b : (128 <= N_of_ascii b)%N -> uri_byte b = pct b.
Proof.
  destruct b as [[] [] [] [] [] [] [] []]; intros H;
    solve [reflexivity | exfalso; vm_compute in H; now apply H].
Qed.

Lemma uri_byte_low b :
  (N_of_ascii b < 128)%N ->
  uri_byte b = pct b
  \/ (uri_byte b = [N_of_ascii b] /\ N_of_ascii b <> 37%N).
Proof.
  intros _. destruct b as [[] [] [] [] [] [] [] []];
    solve [left; reflexivity | right; split; [reflexivity | discriminate]].
Qed.

Lemma uri_byte_ascii b : forallb (fun c => (c <? 128)%N) (uri_byte b) = true.
Proof. destruct b as [[] [] [] [] [] [] [] []]; reflexivity. Qed.

Lemma decode_from_plain f c rest :
  c <> 37%N ->
  decode_from (S f) (c :: rest) = option_map (cons c) (decode_from f rest).
Proof. intros H. apply N.eqb_neq in H. simpl. now rewrite H. Qed.

Lemma decode_from_escape f b rest :
  decode_from (S f) (pct b ++ rest)
  = let n := N_of_ascii b in
    match leading_ones n with
    | O => option_map (cons n) (decode_from f rest)
    | S O => None
    | S (S m) as k =>
        if Nat.ltb 4 k then None
        else match continuation (S m) (lead_payload k n) rest with
             | Some (v, r2) =>
                 if utf8_valid k v then option_map (cons v) (decode_from f r2)
                 else None
             | None => None
             end
    end.
Proof.
  destruct (pct_shape b) as [h [l [E Hh]]]. rewrite E.
  cbn [List.app decode_from]. rewrite N.eqb_refl, Hh. reflexivity.
Qed.

Lemma continuation_escape n acc b rest :
  (128 <= N_of_ascii b <= 191)%N ->
  continuation (S n) acc (pct b ++ rest)
  = continuation n (64 * acc + (N_of_ascii b - 128))%N rest.
Proof.
  intros H. destruct (pct_shape b) as [h [l [E Hh]]]. rewrite E.
  cbn [List.app continuation]. rewrite N.eqb_refl, Hh.
  assert ((128 <=? N_of_ascii b) && (N_of_ascii b <=? 191) = true)%N as ->
      by (apply andb_true_iff; split; apply N.leb_le; lia).
  reflexivity.
Qed.

Lemma N_ascii_small n : (n < 256)%N -> N_of_ascii (ascii_of_N n) = n.
Proof. apply N_ascii_embedding. Qed.

(** What [encodeURIComponent] writes for one code point decodes to it. *)
Lemma decode_from_code_point f c rest :
  scalar c = true ->
  decode_from (S f) (flat_map uri_byte (utf8_cp c) ++ rest)
  = option_map (cons c) (decode_from f rest).
Proof.
  intros Hs. unfold scalar in Hs. unfold utf8_cp.
  destruct (c <? 128)%N eqn:E1.
  { apply N.ltb_lt in E1. cbn [flat_map]. rewrite app_nil_r.
    assert (Hn : N_of_ascii (ascii_of_N c) = c) by (apply N_ascii_small; lia).
    destruct (uri_byte_low (ascii_of_N c)) as [Hp | [Hp Hne]];
      [lia | |]; rewrite Hp.
    - rewrite decode_from_escape, Hn. cbv zeta. unfold leading_ones.
      assert ((c <? 128)%N = true) as -> by (apply N.ltb_lt; lia).
      reflexivity.
    - rewrite Hn in *. cbn [List.app]. now apply decode_from_plain. }
  apply N.ltb_ge in E1.
  destruct (c <? 2048)%N eqn:E2.
  { apply N.ltb_lt in E2. cbn [flat_map]. rewrite app_nil_r.
    set (b0 := (192 + c / 64)%N). set (b1 := (128 + c mod 64)%N).
    assert (H0 : N_of_ascii (ascii_of_N b0) = b0)
      by (apply N_ascii_small; unfold b0; divlia).
    assert (H1 : N_of_ascii (ascii_of_N b1) = b1)
      by (apply N_ascii_small; unfold b1; divlia).
    rewrite !uri_byte_high by (rewrite ?H0, ?H1; unfold b0, b1; divlia).
    rewrite <- app_assoc, decode_from_escape, H0. cbv zeta.
    assert (leading_ones b0 = 2) as ->.
    { unfold leading_ones.
      assert ((b0 <? 128)%N = false) as -> by (apply N.ltb_ge; unfold b0; divlia).
      assert ((b0 <? 192)%N = false) as -> by (apply N.ltb_ge; unfold b0; divlia).
      assert ((b0 <? 224)%N = true) as -> by (apply N.ltb_lt; unfold b0; divlia).
      reflexivity. }
    cbn [Nat.ltb Nat.leb lead_payload].
    rewrite continuation_escape by (rewrite H1; unfold b1; divlia).
    rewrite H1. cbn [continuation].
    assert ((64 * (b0 - 192) + (b1 - 128))%N = c) as ->
        by (unfold b0, b1; divlia).
    unfold utf8_valid.
    assert ((128 <=? c)%N = true) as -> by (apply N.leb_le; lia).
    reflexivity. }
  apply N.ltb_ge in E2.
  assert (Hsur : ((55296 <=? c) && (c <=? 57343) || (1114111 <? c))%N = false).
  { apply orb_true_iff in Hs. destruct Hs as [Hs | Hs].
    - apply N.ltb_lt in Hs.
      assert ((55296 <=? c)%N = false) as -> by (apply N.leb_gt; lia).
      assert ((1114111 <? c)%N = false) as -> by (apply N.ltb_ge; lia).
      reflexivity.
    - apply andb_true_iff in Hs. destruct Hs as [Ha Hb].
      apply N.leb_le in Ha, Hb.
      assert ((c <=? 57343)%N = false) as -> by (apply N.leb_gt; lia).
      assert ((1114111 <? c)%N = false) as -> by (apply N.ltb_ge; lia).
      now rewrite andb_false_r. }
  rewrite Hsur.
  assert (Hrange : (c < 55296 \/ 57344 <= c <= 1114111)%N).
  { apply orb_true_iff in Hs. destruct Hs as [Hs | Hs].
    - left. now apply N.ltb_lt.
    - right. apply andb_true_iff in Hs. destruct Hs as [Ha Hb].
      apply N.leb_le in Ha, Hb. lia. }
  destruct (c <? 65536)%N eqn:E3.
  { apply N.ltb_lt in E3. cbn [flat_map]. rewrite app_nil_r.
    set (b0 := (224 + c / 4096)%N).
    set (b1 := (128 + (c / 64) mod 64)%N).
    set (b2 := (128 + c mod 64)%N).
    assert (H0 : N_of_ascii (ascii_of_N b0) = b0)
      by (apply N_ascii_small; unfold b0; divlia).
    assert (H1 : N_of_ascii (ascii_of_N b1) = b1)
      by (apply N_ascii_small; unfold b1; divlia).
    assert (H2 : N_of_ascii (ascii_of_N b2) = b2)
      by (apply N_ascii_small; unfold b2; divlia).
    rewrite !uri_byte_high by (rewrite ?H0, ?H1, ?H2; unfold b0, b1, b2; divlia).
    rewrite <- !app_assoc, decode_from_escape, H0. cbv zeta.
    assert (leading_ones b0 = 3) as ->.
    { unfold leading_ones.
      assert ((b0 <? 128)%N = false) as -> by (apply N.ltb_ge; unfold b0; divlia).
      assert ((b0 <? 192)%N = false) as -> by (apply N.ltb_ge; unfold b0; divlia).
      assert ((b0 <? 224)%N = false) as -> by (apply N.ltb_ge; unfold b0; divlia).
      assert ((b0 <? 240)%N = true) as -> by (apply N.ltb_lt; unfold b0; divlia).
      reflexivity. }
    cbn [Nat.ltb Nat.leb lead_payload].
    rewrite continuation_escape by (rewrite H1; unfold b1; divlia).
    rewrite continuation_escape by (rewrite H2; unfold b2; divlia).
    rewrite H1, H2. cbn [continuation].
    assert ((64 * (64 * (b0 - 224) + (b1 - 128)) + (b2 - 128))%N = c) as ->
        by (unfold b0, b1, b2; divlia).
    unfold utf8_valid.
    assert ((2048 <=? c)%N = true) as -> by (apply N.leb_le; lia).
    assert (((55296 <=? c) && (c <=? 57343))%N = false) as ->.
    { destruct Hrange as [Hr | Hr].
      - assert ((55296 <=? c)%N = false) as -> by (apply N.leb_gt; lia).
        reflexivity.
      - assert ((c <=? 57343)%N = false) as -> by (apply N.leb_gt; lia).
        now rewrite andb_false_r. }
    reflexivity. }
  apply N.ltb_ge in E3.
  assert (Hmax : (c <= 1114111)%N) by lia.
  cbn [flat_map]. rewrite app_nil_r.
  set (b0 := (240 + c / 262144)%N).
  set (b1 := (128 + (c / 4096) mod 64)%N).
  set (b2 := (128 + (c / 64) mod 64)%N).
  set (b3 := (128 + c mod 64)%N).
  assert (H0 : N_of_ascii (ascii_of_N b0) = b0)
    by (apply N_ascii_small; unfold b0; divlia).
  assert (H1 : N_of_ascii (ascii_of_N b1) = b1)
    by (apply N_ascii_small; unfold b1; divlia).
  assert (H2 : N_of_ascii (ascii_of_N b2) = b2)
    by (apply N_ascii_small; unfold b2; divlia).
  assert (H3 : N_of_ascii (ascii_of_N b3) = b3)
    by (apply N_ascii_small; unfold b3; divlia).
  rewrite !uri_byte_high
    by (rewrite ?H0, ?H1, ?H2, ?H3; unfold b0, b1, b2, b3; divlia).
  rewrite <- !app_assoc, decode_from_escape, H0. cbv zeta.
  assert (leading_ones b0 = 4) as ->.
  { unfold leading_ones.
    assert ((b0 <? 128)%N = false) as -> by (apply N.ltb_ge; unfold b0; divlia).
    assert ((b0 <? 192)%N = false) as -> by (apply N.ltb_ge; unfold b0; divlia).
    assert ((b0 <? 224)%N = false) as -> by (apply N.ltb_ge; unfold b0; divlia).
    assert ((b0 <? 240)%N = false) as -> by (apply N.ltb_ge; unfold b0; divlia).
    assert ((b0 <? 248)%N = true) as -> by (apply N.ltb_lt; unfold b0; divlia).
    reflexivity. }
  cbn [Nat.ltb Nat.leb lead_payload].
  rewrite continuation_escape by (rewrite H1; unfold b1; divlia).
  rewrite continuation_escape by (rewrite H2; unfold b2; divlia).
  rewrite continuation_escape by (rewrite H3; unfold b3; divlia).
  rewrite H1, H2, H3. cbn [continuation].
  assert ((64 * (64 * (64 * (b0 - 240) + (b1 - 128)) + (b2 - 128))
           + (b3 - 128))%N = c) as ->
      by (unfold b0, b1, b2, b3; divlia).
  unfold utf8_valid.
  assert ((65536 <=? c)%N = true) as -> by (apply N.leb_le; lia).
  assert ((c <=? 1114111)%N = true) as -> by (apply N.leb_le; lia).
  reflexivity.
Qed.

End Decode_facts.

Section Roundtrip_facts.
Import Uri.

Lemma encodeURIComponent_cons c s :
  encodeURIComponent (c :: s)
  = flat_map uri_byte (utf8_cp c) ++ encodeURIComponent s.
Proof. unfold encodeURIComponent, utf8. simpl. now rewrite flat_map_app. Qed.

Lemma decode_from_encoded s : forall f,
  forallb scalar s = true -> List.length s <= f ->
  decode_from f (encodeURIComponent s) = Some s.
Proof.
  induction s as [| c s IH]; intros f Hs Hf.
  - now destruct f.
  - simpl in Hs, Hf. apply andb_true_iff in Hs. destruct Hs as [Hc Hs].
    destruct f as [| f]; [lia |].
    rewrite encodeURIComponent_cons, decode_from_code_point by exact Hc.
    rewrite IH by (assumption || lia). reflexivity.
Qed.

Lemma uri_byte_length b : 1 <= List.length (uri_byte b).
Proof. destruct b as [[] [] [] [] [] [] [] []]; simpl; lia. Qed.

Lemma utf8_cp_length c : 1 <= List.length (utf8_cp c).
Proof.
  unfold utf8_cp. repeat (match goal with |- context [if ?b then _ else _] =>
                                     destruct b end); simpl; lia.
Qed.

Lemma encodeURIComponent_length s :
  List.length s <= List.length (encodeURIComponent s).
Proof.
  induction s as [| c s IH]; [simpl; lia |].
  rewrite encodeURIComponent_cons, length_app. simpl.
  pose proof (utf8_cp_length c) as H.
  destruct (utf8_cp c) as [| b bs]; [simpl in H; lia |].
  simpl. rewrite length_app. pose proof (uri_byte_length b). lia.
Qed.

(** Decoding undoes [encodeURIComponent]. *)
Lemma decode_encode s :
  forallb scalar s = true ->
  decodeURIComponent (encodeURIComponent s) = Some s.
Proof.
  intros Hs. apply decode_from_encoded; [exact Hs |].
  apply encodeURIComponent_length.
Qed.

Lemma continuation_length n : forall acc s v r,
  continuation n acc s = Some (v, r) -> List.length r <= List.length s.
Proof.
  induction n as [| n IH]; intros acc s v r H; simpl in H.
  - injection H as _ <-. lia.
  - destruct s as [| p [| h [| l s']]]; try discriminate.
    destruct (p =? 37)%N; [| discriminate].
    destruct (hex_octet h l) as [b |]; [| discriminate].
    destruct ((128 <=? b) && (b <=? 191))%N; [| discriminate].
    apply IH in H. simpl. lia.
Qed.

(** The fuel never runs out: any amount from the length of the string on
    gives the same result. *)
Lemma decode_from_enough f1 : forall f2 s,
  List.length s <= f1 -> List.length s <= f2 ->
  decode_from f1 s = decode_from f2 s.
Proof.
  induction f1 as [| f1 IH]; intros f2 s H1 H2.
  - destruct s; [now destruct f2 | simpl in H1; lia].
  - destruct s as [| c r]; [now destruct f2 |].
    destruct f2 as [| f2]; [simpl in H2; lia |].
    simpl in H1, H2. cbn [decode_from].
    destruct (c =? 37)%N.
    + destruct r as [| h [| l r1]]; try reflexivity.
      destruct (hex_octet h l) as [b |]; [| reflexivity].
      destruct (leading_ones b) as [| [| m]]; [| reflexivity |].
      * f_equal. apply IH; simpl in *; lia.
      * destruct (Nat.ltb 4 (S (S m))); [reflexivity |].
        destruct (continuation (S m) (lead_payload (S (S m)) b) r1)
          as [[v r2] |] eqn:E; [| reflexivity].
        apply continuation_length in E.
        destruct (utf8_valid (S (S m)) v); [| reflexivity].
        f_equal. apply IH; simpl in *; lia.
    + f_equal. apply IH; lia.
Qed.

(** A string without a percent sign decodes to itself. *)
Lemma decode_no_percent s : ~ In 37%N s -> decodeURIComponent s = Some s.
Proof.
  unfold decodeURIComponent. induction s as [| c s IH]; [reflexivity |].
  intros H. simpl List.length. rewrite decode_from_plain.
  - rewrite IH; [reflexivity |]. intros Hin. apply H. now right.
  - intros ->. apply H. now left.
Qed.

Lemma scalar_ascii c : (c <? 128)%N = true -> scalar c = true.
Proof.
  intros H. apply N.ltb_lt in H. unfold scalar.
  assert ((c <? 55296)%N = true) as -> by (apply N.ltb_lt; lia). reflexivity.
Qed.

Lemma encodeURIComponent_scalar s :
  forallb scalar (encodeURIComponent s) = true.
Proof.
  unfold encodeURIComponent. induction (utf8 s) as [| b bs IH]; [reflexivity |].
  simpl. rewrite forallb_app, IH, andb_true_r.
  pose proof (uri_byte_ascii b) as H. rewrite forallb_forall in *.
  intros c Hc. apply scalar_ascii. now apply H.
Qed.

Lemma iter_encode_scalar k s :
  forallb scalar s = true ->
  forallb scalar (Nat.iter k encodeURIComponent s) = true.
Proof.
  intros Hs. destruct k; [exact Hs |]. simpl. apply encodeURIComponent_scalar.
Qed.

(** A string that one more encoding does not change was not changed by the
    encodings before either. *)
Lemma iter_encode_fixed k : forall s,
  forallb scalar s = true ->
  encodeURIComponent (Nat.iter k encodeURIComponent s)
  = Nat.iter k encodeURIComponent s ->
  Nat.iter k encodeURIComponent s = s.
Proof.
  induction k as [| k IH]; intros s Hs H; [reflexivity |].
  simpl in *.
  assert (E : encodeURIComponent (Nat.iter k encodeURIComponent s)
              = Nat.iter k encodeURIComponent s).
  { pose proof (iter_encode_scalar k s Hs) as Hk.
    pose proof (decode_encode _ Hk) as D1.
    pose proof (decode_encode _ (encodeURIComponent_scalar
                                   (Nat.iter k encodeURIComponent s))) as D2.
    rewrite H in D2. rewrite D2 in D1. now injection D1. }
  rewrite E. now apply IH.
Qed.

Lemma str_eqb_refl a : str_eqb a a = true.
Proof. unfold str_eqb. now destruct (jstr_eq_dec a a). Qed.

Lemma deepDecode_loop_encoded s :
  forallb scalar s = true -> ~ In 37%N s ->
  forall rounds k, k <= rounds ->
    deepDecode_loop rounds (Nat.iter k encodeURIComponent s) = s.
Proof.
  intros Hs Hp. induction rounds as [| i IH]; intros k Hk.
  - assert (k = 0) as -> by lia. reflexivity.
  - destruct k as [| k].
    + simpl. rewrite decode_no_percent by exact Hp.
      now rewrite str_eqb_refl.
    + cbn [deepDecode_loop]. simpl Nat.iter.
      rewrite decode_encode by now apply iter_encode_scalar.
      unfold str_eqb.
      destruct (jstr_eq_dec (Nat.iter k encodeURIComponent s)
                  (encodeURIComponent (Nat.iter k encodeURIComponent s)))
        as [E | _].
      * rewrite <- E. apply iter_encode_fixed; [exact Hs | now symmetry].
      * apply IH. lia.
Qed.

End Roundtrip_facts.

(** X1.  [deepDecode] undoes up to three rounds of percent-encoding, and so
    [encSeg] encodes a name exactly once whether it arrives plain or already
    encoded: for well-formed text [s] without a percent sign and [k <= 3],
    [deepDecode] of [s] encoded [k] times is [s], and [encSeg] of it is [s]
    encoded once. *)
Theorem encSeg_encodes_once (s : jstr) (k : nat) :
  forallb scalar s = true -> ~ In 37%N s -> k <= 3 ->
  deepDecode (Nat.iter k Uri.encodeURIComponent s) None = s
  /\ encSeg (Nat.iter k Uri.encodeURIComponent s) = Uri.encodeURIComponent s.
Proof.
  intros Hs Hp Hk.
  assert (E : deepDecode (Nat.iter k Uri.encodeURIComponent s) None = s)
    by (unfold deepDecode; now apply deepDecode_loop_encoded).
  split; [exact E |]. unfold encSeg. now rewrite E.
Qed.

Lemma encSeg_encodes_once_witness :
  Nat.iter 2 Uri.encodeURIComponent (lit "Annual Report.pdf")
  = lit "Annual%2520Report.pdf"
  /\ deepDecode (lit "Annual%2520Report.pdf") None = lit "Annual Report.pdf"
  /\ encSeg (lit "Annual%2520Report.pdf") = lit "Annual%20Report.pdf".
Proof.
  assert (H : forallb scalar (lit "Annual Report.pdf") = true) by reflexivity.
  assert (Hp : ~ In 37%N (lit "Annual Report.pdf")).
  { intros Hin. vm_compute in Hin.
    repeat (destruct Hin as [Hin | Hin]; [discriminate Hin |]). exact Hin. }
  pose proof (encSeg_encodes_once (lit "Annual Report.pdf") 2 H Hp
                ltac:(lia)) as [H1 H2].
  split; [reflexivity |]. split; [exact H1 | exact H2].
Defined.

Section Path_facts.

Lemma forallb_repeat_slash n : forallb is_slash (repeat 47%N n) = true.
Proof. induction n; [reflexivity | exact IHn]. Qed.

Lemma ends_with_slash_snoc p c : ends_with_slash (p ++ [c]) = is_slash c.
Proof. unfold ends_with_slash. now rewrite rev_app_distr. Qed.

Lemma ends_with_slash_cons c p :
  p <> [] -> ends_with_slash (c :: p) = ends_with_slash p.
Proof.
  intros Hp. destruct (exists_last Hp) as [q [x ->]].
  now rewrite app_comm_cons, !ends_with_slash_snoc.
Qed.

(** A string that does not end in a slash is not slashes from any position
    on. *)
Lemma not_all_slashes p t :
  p <> [] -> ends_with_slash p = false ->
  forallb is_slash (p ++ repeat 47%N t) = false.
Proof.
  intros Hp He. destruct (exists_last Hp) as [q [x ->]].
  rewrite ends_with_slash_snoc in He.
  rewrite <- app_assoc, forallb_app. simpl. rewrite He.
  now rewrite andb_false_r.
Qed.

Lemma squeeze_trailing_slashes_run p m :
  ends_with_slash p = false ->
  squeeze_trailing_slashes (p ++ repeat 47%N (S m)) = p ++ lit "/".
Proof.
  induction p as [| c p IH]; intros He.
  - cbn [List.app repeat squeeze_trailing_slashes].
    now rewrite forallb_repeat_slash.
  - cbn [List.app squeeze_trailing_slashes].
    destruct p as [| c' p'].
    + unfold ends_with_slash in He. simpl in He. rewrite He. simpl andb.
      cbv iota. f_equal. now apply IH.
    + assert (forallb is_slash ((c' :: p') ++ repeat 47%N (S m)) = false)
        as ->.
      { apply not_all_slashes; [discriminate |].
        rewrite ends_with_slash_cons in He by discriminate. exact He. }
      rewrite andb_false_r. f_equal. apply IH.
      rewrite ends_with_slash_cons in He by discriminate. exact He.
Qed.

Lemma squeeze_trailing_slashes_none p :
  ends_with_slash p = false -> squeeze_trailing_slashes p = p.
Proof.
  induction p as [| c p IH]; intros He; [reflexivity |].
  cbn [squeeze_trailing_slashes].
  destruct p as [| c' p'].
  - unfold ends_with_slash in He. simpl in He. now rewrite He.
  - rewrite ends_with_slash_cons in He by discriminate.
    pose proof (not_all_slashes (c' :: p') 0 ltac:(discriminate) He) as H.
    simpl repeat in H. rewrite app_nil_r in H. rewrite H, andb_false_r.
    f_equal. now apply IH.
Qed.

Lemma drop_while_slashes n q :
  no_leading_slash q = true ->
  drop_while is_slash (repeat 47%N n ++ q) = q.
Proof.
  intros Hq. induction n as [| n IH]; [| exact IH].
  destruct q as [| c q]; [reflexivity |]. simpl in *.
  now destruct (is_slash c).
Qed.

Lemma truthy_app_r a b : truthy b = true -> truthy (a ++ b) = true.
Proof. destruct a; [auto | reflexivity]. Qed.

Lemma str_or_truthy a b : truthy a = true -> str_or a b = a.
Proof. unfold str_or. now intros ->. Qed.

Lemma str_or_nil a : str_or a [] = a.
Proof. unfold str_or. now destruct a. Qed.

Lemma aimJoinPath_run p q m n :
  ends_with_slash p = false -> no_leading_slash q = true ->
  aimJoinPath (p ++ repeat 47%N (S m)) (repeat 47%N n ++ q)
  = p ++ lit "/" ++ q.
Proof.
  intros Hp Hq. unfold aimJoinPath.
  rewrite str_or_truthy by (apply truthy_app_r; reflexivity).
  rewrite str_or_nil, squeeze_trailing_slashes_run by exact Hp.
  rewrite drop_while_slashes by exact Hq. now rewrite <- app_assoc.
Qed.

(** The directory of a path: what [drop_last_segment] keeps and what it
    cuts. *)
Lemma drop_last_segment_split s :
  exists file,
    s = drop_last_segment s ++ file
    /\ ~ In 47%N file
    /\ (drop_last_segment s = []
        \/ ends_with_slash (drop_last_segment s) = true).
Proof.
  induction s as [| c s IH].
  - exists []. simpl. auto.
  - cbn [drop_last_segment].
    destruct (forallb (fun c0 => negb (is_slash c0)) (c :: s)) eqn:E.
    + exists (c :: s). split; [reflexivity |]. split; [| now left].
      rewrite forallb_forall in E. intros Hin. specialize (E _ Hin).
      discriminate E.
    + destruct IH as [file [Hs [Hf Hd]]]. exists file.
      split; [simpl; now rewrite <- Hs |]. split; [exact Hf |]. right.
      destruct Hd as [Hd | Hd].
      * rewrite Hd in *. simpl in Hs. subst file.
        simpl in E. destruct (is_slash c) eqn:Ec.
        -- unfold ends_with_slash. simpl. exact Ec.
        -- simpl in E. exfalso.
           assert (forallb (fun c0 => negb (is_slash c0)) s = true).
           { apply forallb_forall. intros x Hx.
             destruct (is_slash x) eqn:Ex; [| reflexivity].
             apply N.eqb_eq in Ex. subst x. contradiction. }
           congruence.
      * destruct (drop_last_segment s) as [| d ds] eqn:Ed;
          [discriminate Hd |].
        rewrite ends_with_slash_cons by discriminate. exact Hd.
Qed.

End Path_facts.

(** X2.  [AIM_BASE_PATH] always ends in a slash.  Read from the address of
    the page, it is the directory of the page: the [pathname] is the base
    path followed by a last segment without slash, unless the [pathname] has
    no slash at all, and then the base path is the root. *)
Theorem AIM_BASE_PATH_directory (baseEl : base_element) (pathname : jstr) :
  ends_with_slash (AIM_BASE_PATH baseEl pathname) = true
  /\ exists file,
       ~ In 47%N file
       /\ (pathname = AIM_BASE_PATH NoBaseElement pathname ++ file
           \/ (pathname = file
               /\ AIM_BASE_PATH NoBaseElement pathname = lit "/")).
Proof.
  split.
  - destruct baseEl as [[pn |] |]; cbn [AIM_BASE_PATH].
    + destruct (ends_with_slash pn) eqn:E; [exact E |].
      apply ends_with_slash_snoc.
    + reflexivity.
    + destruct (ends_with_slash pathname) eqn:E.
      * now rewrite E.
      * destruct (ends_with_slash (drop_last_segment pathname)) eqn:E2;
          [exact E2 | apply ends_with_slash_snoc].
  - cbn [AIM_BASE_PATH].
    destruct (ends_with_slash pathname) eqn:E.
    + rewrite E. exists []. split; [intros [] |]. left.
      now rewrite app_nil_r.
    + destruct (drop_last_segment_split pathname) as [file [Hs [Hf Hd]]].
      exists file. split; [exact Hf |].
      destruct Hd as [Hd | Hd].
      * right. rewrite Hd in *. simpl in Hs. split; [exact Hs | reflexivity].
      * left. rewrite Hd. exact Hs.
Qed.

(** X3.  [aimJoinPath] puts exactly one slash between a base that ends in
    slashes and a relative path, however many slashes each side brings; a
    base without a final slash gets none, and an empty base stands for the
    root. *)
Theorem aimJoinPath_one_slash (p q : jstr) (m n : nat) :
  ends_with_slash p = false -> no_leading_slash q = true ->
  aimJoinPath (p ++ repeat 47%N (S m)) (repeat 47%N n ++ q)
  = p ++ lit "/" ++ q
  /\ aimJoinPath p (repeat 47%N n ++ q)
     = (if truthy p then p else lit "/") ++ q.
Proof.
  intros Hp Hq. split; [now apply aimJoinPath_run |].
  unfold aimJoinPath. rewrite str_or_nil, drop_while_slashes by exact Hq.
  unfold str_or. destruct (truthy p); [| reflexivity].
  now rewrite squeeze_trailing_slashes_none.
Qed.

Lemma aimJoinPath_one_slash_witness :
  aimJoinPath (lit "/repo//") (lit "//static/x.pdf")
  = lit "/repo/static/x.pdf"
  /\ aimJoinPath (lit "/repo") (lit "/static/x.pdf") = lit "/repostatic/x.pdf".
Proof.
  exact (aimJoinPath_one_slash (lit "/repo") (lit "static/x.pdf") 1 2
           eq_refl eq_refl).
Defined.

Section Pdf_url_facts.

Lemma aimStaticUrl_run p m q :
  ends_with_slash p = false -> no_leading_slash q = true ->
  aimStaticUrl (p ++ repeat 47%N (S m)) q = p ++ lit "/static/" ++ q.
Proof.
  intros Hp Hq. unfold aimStaticUrl.
  pose proof (aimJoinPath_run (lit "static") q 0 0 eq_refl Hq) as H1.
  change (lit "static" ++ repeat 47%N 1) with (lit "static/") in H1.
  change (repeat 47%N 0 ++ q) with q in H1. rewrite H1.
  pose proof (aimJoinPath_run p (lit "static" ++ lit "/" ++ q) m 0 Hp eq_refl)
    as H2.
  change (repeat 47%N 0 ++ lit "static" ++ lit "/" ++ q)
    with (lit "static" ++ lit "/" ++ q) in H2.
  rewrite H2. reflexivity.
Qed.

Lemma deepDecode_encoded_upto3 seg plain :
  encoded_upto3 seg plain -> deepDecode (str_or seg []) None = plain.
Proof.
  intros [Hs [Hp [k [Hk ->]]]]. rewrite str_or_nil.
  unfold deepDecode. now apply deepDecode_loop_encoded.
Qed.

Lemma pdfUrl_plain p m segs plain :
  ends_with_slash p = false ->
  Forall2 encoded_upto3 segs plain ->
  pdfUrl (p ++ repeat 47%N (S m)) segs
  = p ++ lit "/static/pdfs/" ++ Uri.join (lit "/") plain.
Proof.
  intros Hp Hall. unfold pdfUrl.
  assert (map (fun s => deepDecode (str_or s []) None) segs = plain) as ->.
  { induction Hall as [| seg t segs plain H _ IH]; [reflexivity |].
    simpl. now rewrite IH, (deepDecode_encoded_upto3 seg t H). }
  rewrite aimStaticUrl_run by (exact Hp || reflexivity).
  reflexivity.
Qed.

End Pdf_url_facts.

(** X4.  [pdfUrl] returns the un-encoded path of a document below the base
    path, [static/pdfs/] and the segments joined by slashes, whether the
    segments arrive plain or already percent-encoded (up to three times);
    the base path brings exactly one slash, and a path of no segment is the
    directory itself. *)
Theorem pdfUrl_unencoded (p : jstr) (m : nat) (segs plain : list jstr) :
  ends_with_slash p = false ->
  Forall2 encoded_upto3 segs plain ->
  pdfUrl (p ++ repeat 47%N (S m)) segs
  = p ++ lit "/static/pdfs/" ++ Uri.join (lit "/") plain
  /\ pdfUrl (p ++ repeat 47%N (S m)) [] = p ++ lit "/static/pdfs/".
Proof.
  intros Hp Hall. split; [now apply pdfUrl_plain |].
  now rewrite (pdfUrl_plain p m [] [] Hp (Forall2_nil _)).
Qed.

Lemma pdfUrl_unencoded_witness :
  pdfUrl (lit "/project-aim-fredericton/")
         [lit "1920s"; lit "Annual%2520Report%25201927.pdf"]
  = lit "/project-aim-fredericton/static/pdfs/1920s/Annual Report 1927.pdf".
Proof.
  assert (Hno : forall s, forallb (fun c => negb (c =? 37)%N) s = true ->
                          ~ In 37%N s).
  { intros s H Hin. rewrite forallb_forall in H. specialize (H _ Hin).
    discriminate H. }
  refine (proj1 (pdfUrl_unencoded (lit "/project-aim-fredericton") 0
                   [lit "1920s"; lit "Annual%2520Report%25201927.pdf"]
                   [lit "1920s"; lit "Annual Report 1927.pdf"] eq_refl _)).
  constructor; [| constructor; [| constructor]].
  - split; [reflexivity |]. split; [now apply Hno |].
    exists 0. split; [lia | reflexivity].
  - split; [reflexivity |]. split; [now apply Hno |].
    exists 2. split; [lia | reflexivity].
Defined.

Section Pdf_view_facts.
Import Uri.

Lemma split_on_cut sep s :
  split_on sep s
  = match cut sep s with
    | (b, None) => [b]
    | (b, Some r) => b :: split_on sep r
    end.
Proof.
  induction s as [| c s IH]; [reflexivity |].
  cbn [split_on cut]. destruct (c =? sep)%N; [reflexivity |].
  rewrite IH. now destruct (cut sep s) as [a [r |]].
Qed.

Lemma cut_lacks sep s : lacks sep (fst (cut sep s)).
Proof.
  induction s as [| c s IH]; [constructor |].
  cbn [cut]. destruct (c =? sep)%N eqn:E; [constructor |].
  destruct (cut sep s) as [a o]. apply N.eqb_neq in E. now constructor.
Qed.

Lemma cut_rebuild sep s :
  s = fst (cut sep s)
      ++ match snd (cut sep s) with
         | Some r => sep :: r
         | None => []
         end.
Proof.
  induction s as [| c s IH]; [reflexivity |].
  cbn [cut]. destruct (c =? sep)%N eqn:E.
  - apply N.eqb_eq in E. now subst.
  - destruct (cut sep s) as [a o]. simpl in *. now rewrite <- IH.
Qed.

Lemma dec_digits n : forallb is_digit (dec n) = true.
Proof.
  unfold dec. induction (N.to_uint n) as [| u IH | u IH | u IH | u IH | u IH
                                          | u IH | u IH | u IH | u IH | u IH];
    [reflexivity | exact IH ..].
Qed.

Lemma digits_lack sep s :
  is_digit sep = false -> forallb is_digit s = true -> lacks sep s.
Proof.
  intros Hs H. apply Forall_forall. intros c Hc ->.
  rewrite forallb_forall in H. specialize (H _ Hc). congruence.
Qed.

Lemma lit_lacks sep (s : string) :
  forallb (fun c => negb (c =? sep)%N) (lit s) = true -> lacks sep (lit s).
Proof.
  intros H. apply Forall_forall. intros c Hc ->.
  rewrite forallb_forall in H. specialize (H _ Hc).
  now rewrite N.eqb_refl in H.
Qed.

(** What [withPdfView] appends has no [#]. *)
Lemma view_params_lack z :
  lacks 35 (lit "view=FitH&zoom=" ++ dec z ++ lit "&navpanes=0&pagemode=none").
Proof.
  apply lacks_app; [now apply lit_lacks |].
  apply lacks_app; [| now apply lit_lacks].
  apply digits_lack; [reflexivity | apply dec_digits].
Qed.

Lemma withPdfView_cut url zoomPct :
  withPdfView url zoomPct
  = let add := lit "view=FitH&zoom="
               ++ dec (match zoomPct with Some z => z | None => 100%N end)
               ++ lit "&navpanes=0&pagemode=none" in
    fst (cut 35 url) ++ lit "#"
    ++ match snd (cut 35 url) with
       | Some r =>
           if truthy (fst (cut 35 r)) then fst (cut 35 r) ++ lit "&" else []
       | None => []
       end
    ++ add.
Proof.
  unfold withPdfView. cbv zeta. rewrite split_on_cut.
  destruct (cut 35 url) as [b [r |]]; cbn [fst snd]; [| reflexivity].
  rewrite split_on_cut.
  destruct (cut 35 r) as [f [r' |]]; cbn [fst snd];
    (destruct (truthy f); [now rewrite <- !app_assoc | reflexivity]).
Qed.

(** The result parsed: the address before the fragment is as it was. *)
Lemma withPdfView_parse url zoomPct :
  exists kept,
    parse_url (withPdfView url zoomPct)
    = {| u_path := u_path (parse_url url);
         u_query := u_query (parse_url url);
         u_fragment :=
           Some (kept ++ lit "view=FitH&zoom="
                 ++ dec (match zoomPct with Some z => z | None => 100%N end)
                 ++ lit "&navpanes=0&pagemode=none") |}
    /\ lacks 35 (kept ++ lit "view=FitH&zoom="
                 ++ dec (match zoomPct with Some z => z | None => 100%N end)
                 ++ lit "&navpanes=0&pagemode=none").
Proof.
  rewrite withPdfView_cut. cbv zeta.
  set (add := lit "view=FitH&zoom="
              ++ dec (match zoomPct with Some z => z | None => 100%N end)
              ++ lit "&navpanes=0&pagemode=none").
  pose proof (cut_lacks 35 url) as Hb.
  unfold parse_url.
  destruct (cut 35 url) as [b o] eqn:Ecut. cbn [fst snd] in *.
  set (kept := match o with
               | Some r =>
                   if truthy (fst (cut 35 r))
                   then fst (cut 35 r) ++ lit "&" else []
               | None => []
               end).
  assert (Hk : lacks 35 (kept ++ add)).
  { apply lacks_app; [| apply view_params_lack].
    unfold kept. destruct o as [r |]; [| constructor].
    destruct (truthy (fst (cut 35 r))); [| constructor].
    apply lacks_app; [apply cut_lacks |].
    constructor; [discriminate | constructor]. }
  exists kept. split; [| exact Hk].
  change (b ++ lit "#" ++ kept ++ add) with (b ++ 35%N :: (kept ++ add)).
  rewrite (cut_found 35 b (kept ++ add) Hb).
  now destruct (cut 63 b) as [path query].
Qed.

End Pdf_view_facts.

(** X5.  [withPdfView] leaves the address before the fragment as it is and
    gives the result one fragment that ends with the view parameters.  When
    the address has no second [#], nothing of it is lost: the result is the
    address, a [#] or [&] as needed, and the parameters. *)
Theorem withPdfView_appends (url : jstr) (zoomPct : option N) :
  let add := lit "view=FitH&zoom="
             ++ dec (match zoomPct with Some z => z | None => 100%N end)
             ++ lit "&navpanes=0&pagemode=none" in
  let out := withPdfView url zoomPct in
  Uri.u_path (Uri.parse_url out) = Uri.u_path (Uri.parse_url url)
  /\ Uri.u_query (Uri.parse_url out) = Uri.u_query (Uri.parse_url url)
  /\ (exists kept,
        Uri.u_fragment (Uri.parse_url out) = Some (kept ++ add)
        /\ Uri.lacks 35 (kept ++ add))
  /\ match Uri.u_fragment (Uri.parse_url url) with
     | None => out = url ++ lit "#" ++ add
     | Some f =>
         Uri.lacks 35 f ->
         out = url ++ (if truthy f then lit "&" else []) ++ add
     end.
Proof.
  intros add out. subst out.
  destruct (withPdfView_parse url zoomPct) as [kept [Hparse Hk]].
  rewrite Hparse. cbn [Uri.u_path Uri.u_query Uri.u_fragment].
  split; [reflexivity |]. split; [reflexivity |].
  split; [exists kept; split; [reflexivity | exact Hk] |].
  rewrite withPdfView_cut. cbv zeta. fold add.
  pose proof (cut_rebuild 35 url) as Hu.
  unfold Uri.parse_url.
  destruct (Uri.cut 35 url) as [b o]. cbn [fst snd] in *.
  destruct (Uri.cut 63 b) as [path query]. cbn [Uri.u_fragment].
  destruct o as [r |].
  - intros Hr.
    assert (Uri.cut 35 r = (r, None)) as -> by now apply cut_missing.
    cbn [fst]. rewrite Hu.
    destruct r as [| c r']; cbn [truthy]; rewrite <- !app_assoc; reflexivity.
  - rewrite Hu, app_nil_r. reflexivity.
Qed.

Lemma withPdfView_truthy url z : truthy (withPdfView url z) = true.
Proof.
  rewrite withPdfView_cut. cbv zeta. apply truthy_app_r. reflexivity.
Qed.

(** X6.  The [load] listener of the viewer rewrites the address at most
    once: run again on the frame it leaves, it changes nothing, so the reload
    it causes cannot start a loop.  The address it leaves names the same
    document (same path, same query) and, when there is one, is recorded in
    [appliedOnce]. *)
Theorem viewer_onload_once (v : viewer_frame) :
  let v' := viewer_onload v in
  let src := match f_src v with Some s => s | None => [] end in
  let src' := match f_src v' with Some s => s | None => [] end in
  viewer_onload v' = v'
  /\ Uri.u_path (Uri.parse_url src') = Uri.u_path (Uri.parse_url src)
  /\ Uri.u_query (Uri.parse_url src') = Uri.u_query (Uri.parse_url src)
  /\ (src = [] \/ f_appliedOnce v' = Some src').
Proof.
  destruct v as [[s |] a]; cbv zeta.
  2: { unfold viewer_onload. simpl. auto. }
  assert (Hv : viewer_onload {| f_src := Some s; f_appliedOnce := a |}
               = if negb (truthy s) then {| f_src := Some s; f_appliedOnce := a |}
                 else if match a with
                         | Some x => str_eqb x s
                         | None => false
                         end
                 then {| f_src := Some s; f_appliedOnce := a |}
                 else if includes (lit "view=") s && includes (lit "zoom=") s
                 then {| f_src := Some s; f_appliedOnce := Some s |}
                 else {| f_src := Some (withPdfView s (Some 75%N));
                         f_appliedOnce := Some (withPdfView s (Some 75%N)) |})
    by (unfold viewer_onload; cbn [f_src f_appliedOnce];
        now rewrite str_or_nil).
  destruct (truthy s) eqn:Et; cbn [negb] in Hv.
  2: { rewrite !Hv. cbn [f_src f_appliedOnce].
       split; [reflexivity |]. split; [reflexivity |].
       split; [reflexivity |]. left. now destruct s. }
  destruct (match a with Some x => str_eqb x s | None => false end) eqn:Ea.
  { rewrite !Hv. cbn [f_src f_appliedOnce].
    split; [reflexivity |]. split; [reflexivity |]. split; [reflexivity |].
    right. destruct a as [x |]; [| discriminate].
    apply str_eqb_eq in Ea. now subst. }
  destruct (includes (lit "view=") s && includes (lit "zoom=") s).
  - rewrite Hv. cbn [f_src f_appliedOnce].
    split; [| split; [reflexivity | split; [reflexivity | now right]]].
    unfold viewer_onload. cbn [f_src f_appliedOnce].
    now rewrite str_or_nil, Et, str_eqb_refl.
  - rewrite Hv. cbn [f_src f_appliedOnce].
    destruct (withPdfView_parse s (Some 75%N)) as [kept [Hparse _]].
    rewrite Hparse. cbn [Uri.u_path Uri.u_query].
    split; [| split; [reflexivity | split; [reflexivity | now right]]].
    unfold viewer_onload. cbn [f_src f_appliedOnce].
    rewrite str_or_nil, withPdfView_truthy, str_eqb_refl. reflexivity.
Qed.

(** The listener on a tab address: one rewrite, then no more. *)
Example viewer_onload_tab :
  let v := {| f_src := Some (lit "pdfjs/web/viewer.html?file=a.pdf#page=1&zoom=75&pagemode=none");
              f_appliedOnce := None |} in
  f_src (viewer_onload v)
  = Some (lit "pdfjs/web/viewer.html?file=a.pdf#page=1&zoom=75&pagemode=none&view=FitH&zoom=75&navpanes=0&pagemode=none")
  /\ viewer_onload (viewer_onload v) = viewer_onload v.
Proof. vm_compute. split; reflexivity. Qed.

Section Year_facts.

Lemma year_here_spec s y :
  year_here s = Some y -> is_year y /\ exists post, s = y ++ post.
Proof.
  unfold year_here. destruct s as [| a [| b [| c [| d post]]]]; try discriminate.
  destruct (((a =? 49) && (b =? 57) || (a =? 50) && (b =? 48))%N) eqn:E1;
    [| discriminate].
  destruct (is_digit c) eqn:E2; [| discriminate].
  destruct (is_digit d) eqn:E3; [| discriminate].
  intros [= <-]. split; [| now exists post].
  exists c, d. split; [| now split].
  apply orb_true_iff in E1.
  destruct E1 as [E | E]; apply andb_true_iff in E; destruct E as [Ea Eb];
    apply N.eqb_eq in Ea, Eb; subst; [now left | now right].
Qed.

Lemma year_here_complete y post : is_year y -> year_here (y ++ post) = Some y.
Proof.
  intros [c [d [[-> | ->] [Hc Hd]]]]; simpl; now rewrite Hc, Hd.
Qed.

Lemma first_year_spec s :
  match first_year s with
  | Some y =>
      is_year y
      /\ exists pre post,
           s = pre ++ y ++ post
           /\ forall pre' y' post',
                s = pre' ++ y' ++ post' -> is_year y' ->
                List.length pre <= List.length pre'
  | None => forall pre y post, s = pre ++ y ++ post -> ~ is_year y
  end.
Proof.
  induction s as [| c s IH].
  - simpl. intros pre y post H Hy.
    destruct pre; [| discriminate].
    destruct Hy as [c [d [[-> | ->] _]]]; discriminate.
  - cbn [first_year]. destruct (year_here (c :: s)) as [y |] eqn:E.
    + destruct (year_here_spec _ _ E) as [Hy [post Hs]].
      split; [exact Hy |]. exists [], post. split; [exact Hs |].
      intros. simpl. lia.
    + destruct (first_year s) as [y |].
      * destruct IH as [Hy [pre [post [Hs Hmin]]]]. split; [exact Hy |].
        exists (c :: pre), post. split; [simpl; now rewrite Hs |].
        intros pre' y' post' Hs' Hy'. destruct pre' as [| c' pre'].
        -- simpl in Hs'. rewrite Hs' in E.
           rewrite (year_here_complete _ _ Hy') in E. discriminate.
        -- simpl in Hs'. injection Hs' as _ Hs'. simpl.
           specialize (Hmin _ _ _ Hs' Hy'). lia.
      * intros pre y post Hs Hy. destruct pre as [| c' pre].
        -- simpl in Hs. rewrite Hs in E.
           rewrite (year_here_complete _ _ Hy) in E. discriminate.
        -- simpl in Hs. injection Hs as _ Hs. exact (IH _ _ _ Hs Hy).
Qed.

End Year_facts.

(** X7.  [getYearFromEntry] returns the leftmost year of the pattern (19 or
    20 and two digits) in the label, a space and the group of the entry, so
    a year in the label wins over one in the group; it returns [null]
    exactly when that text has no such year. *)
Theorem getYearFromEntry_leftmost (entry : overlay_entry) :
  match getYearFromEntry entry with
  | Some y =>
      is_year y
      /\ exists pre post,
           year_text entry = pre ++ y ++ post
           /\ forall pre' y' post',
                year_text entry = pre' ++ y' ++ post' -> is_year y' ->
                List.length pre <= List.length pre'
  | None =>
      forall pre y post, year_text entry = pre ++ y ++ post -> ~ is_year y
  end.
Proof. unfold getYearFromEntry. apply first_year_spec. Qed.

(** The year of a mosaic row is read off its label. *)
Example getYearFromEntry_label :
  getYearFromEntry
    {| collection_location := []; ui_group := lit "1930s";
       ui_label := lit "Mosaic 11924"; service_type := lit "tiled";
       url := []; default_on := [] |}
  = Some (lit "1924").
Proof. reflexivity. Qed.

(* ================================================================== *)
(** * Properties: the archive feed and the document list *)
(* ================================================================== *)

Section Archive_facts.

Lemma get_file_row_same archive r :
  get (decade_of r) (file_row archive r)
  = Some (match get (decade_of r) archive with
          | Some rows => rows
          | None => []
          end ++ [r]).
Proof.
  unfold file_row. cbv zeta.
  destruct (get (decade_of r) archive) as [rows |] eqn:E.
  - rewrite E. apply get_set_same.
  - rewrite get_set_same. apply get_set_same.
Qed.

Lemma get_file_row_other archive r d :
  d <> decade_of r -> get d (file_row archive r) = get d archive.
Proof.
  intros Hne. unfold file_row. cbv zeta.
  destruct (get (decade_of r) archive) as [rows |] eqn:E.
  - rewrite E. now apply get_set_other.
  - rewrite get_set_same. rewrite !get_set_other by exact Hne. reflexivity.
Qed.


(** What a decade holds after the feed is read: what it held, then the rows
    of the feed filed under it, in the order of the feed. *)
Lemma get_load_archive rows : forall archive d,
  get d (load_archive rows archive)
  = match get d archive, filter (fun r => str_eqb (decade_of r) d) rows with
    | None, [] => None
    | None, l => Some l
    | Some old, l => Some (old ++ l)
    end.
Proof.
  induction rows as [| r rows IH]; intros archive d.
  - simpl. destruct (get d archive); [now rewrite app_nil_r | reflexivity].
  - cbn [load_archive fold_left filter]. fold (load_archive rows (file_row archive r)).
    rewrite IH.
    destruct (jstr_eq_dec (decade_of r) d) as [<- | Hne].
    + rewrite get_file_row_same, str_eqb_refl.
      destruct (get (decade_of r) archive) as [old |];
        [now rewrite <- app_assoc | reflexivity].
    + rewrite get_file_row_other by congruence.
      assert (str_eqb (decade_of r) d = false) as ->
          by (unfold str_eqb; now destruct (jstr_eq_dec (decade_of r) d)).
      reflexivity.
Qed.




Lemma get_In {V} k (v : V) (o : obj V) : get k o = Some v -> In (k, v) o.
Proof.
  induction o as [| [k' v'] o IH]; [discriminate |].
  simpl. destruct (jstr_eq_dec k' k) as [-> | _].
  - intros [= ->]. now left.
  - intros H. right. now apply IH.
Qed.


End Archive_facts.

(** X8.  Reading the archive feed files every row under its decade ([ui_group],
    or [unknown] when that is empty): afterwards a decade holds exactly the
    rows of the feed with that decade, in the order of the feed, and a decade
    no row has is not a key of [archiveData]. *)
Theorem load_archive_groups (rows : list archive_row) (d : jstr) :
  get d (load_archive rows [])
  = match filter (fun r => str_eqb (decade_of r) d) rows with
    | [] => None
    | l => Some l
    end.
Proof. rewrite get_load_archive. reflexivity. Qed.



Section Label_facts.

Lemma drop_while_head p s :
  match drop_while p s with
  | [] => True
  | c :: _ => p c = false
  end.
Proof.
  induction s as [| c s IH]; [exact I |].
  simpl. destruct (p c) eqn:E; [exact IH | exact E].
Qed.

Lemma drop_while_split p s :
  exists pre, s = pre ++ drop_while p s /\ forallb p pre = true.
Proof.
  induction s as [| c s IH]; [now exists [] |].
  simpl. destruct (p c) eqn:E.
  - destruct IH as [pre [Hs Hp]]. exists (c :: pre).
    split; [simpl; now rewrite <- Hs | simpl; now rewrite E].
  - now exists [].
Qed.

(** [trim] keeps a middle part of the string. *)
Lemma trim_split s : exists pre post, s = pre ++ trim s ++ post.
Proof.
  unfold trim.
  destruct (drop_while_split is_ws s) as [pre [Hs _]].
  destruct (drop_while_split is_ws (rev (drop_while is_ws s))) as [w [Hr _]].
  exists pre, (rev w).
  rewrite <- rev_app_distr, <- Hr, rev_involutive. exact Hs.
Qed.

Lemma trim_trimmed s : trimmed (trim s).
Proof.
  unfold trimmed, trim. rewrite rev_involutive.
  pose proof (drop_while_head is_ws s) as Hh.
  pose proof (drop_while_head is_ws (rev (drop_while is_ws s))) as Hl.
  destruct (drop_while_split is_ws (rev (drop_while is_ws s))) as [w [Hr _]].
  split; [| exact Hl].
  set (t := drop_while is_ws s) in *.
  set (u := drop_while is_ws (rev t)) in *.
  assert (Ht : t = rev u ++ rev w)
    by (rewrite <- rev_app_distr, <- Hr; now rewrite rev_involutive).
  destruct (rev u) as [| c x]; [exact I |].
  rewrite Ht in Hh. exact Hh.
Qed.

Lemma single_spaced_app_l a b : single_spaced (a ++ b) -> single_spaced a.
Proof.
  induction a as [| c a IH]; [intros _; exact I |].
  simpl. intros [Hc Hr]. split; [| now apply IH].
  intros Hw. destruct (Hc Hw) as [-> Hn]. split; [reflexivity |].
  now destruct a.
Qed.

Lemma single_spaced_app_r a b : single_spaced (a ++ b) -> single_spaced b.
Proof.
  induction a as [| c a IH]; [auto |]. simpl. intros [_ Hr]. now apply IH.
Qed.

Lemma single_spaced_trim s : single_spaced s -> single_spaced (trim s).
Proof.
  intros H. destruct (trim_split s) as [pre [post Hs]]. rewrite Hs in H.
  apply single_spaced_app_r in H. now apply single_spaced_app_l in H.
Qed.

Lemma collapse_ws_head c r :
  is_ws c = false ->
  match collapse_ws (c :: r) with
  | c' :: _ => is_ws c' = false
  | [] => True
  end.
Proof. intros H. simpl. now rewrite H. Qed.

Lemma collapse_ws_single s : single_spaced (collapse_ws s).
Proof.
  induction s as [| c r IH]; [exact I |].
  cbn [collapse_ws]. destruct (is_ws c) eqn:Ec.
  - destruct r as [| c' r']; [simpl; auto |].
    destruct (is_ws c') eqn:Ec'; [exact IH |].
    cbn [single_spaced]. split; [| exact IH].
    intros _. split; [reflexivity |]. now apply collapse_ws_head.
  - cbn [single_spaced]. split; [| exact IH]. intros Hw.
    simpl in Hw. congruence.
Qed.

Lemma trimmed_nil : trimmed [].
Proof. split; exact I. Qed.

End Label_facts.

(** X11.  The text of a document option is never empty and has no white
    space at either end.  When both labels are non-blank (the first without
    its leading [searchable]) the text has single spaces only; when both are
    blank it is [Untitled document]. *)
Theorem option_text_clean (doc : archive_row) :
  let ui1 := trim (strip_searchable (trim (a_ui_label_1 doc))) in
  let ui2 := trim (a_ui_label_2 doc) in
  option_text doc <> []
  /\ trimmed (option_text doc)
  /\ (ui1 <> [] -> ui2 <> [] -> single_spaced (option_text doc))
  /\ (ui1 = [] -> ui2 = [] -> option_text doc = lit "Untitled document").
Proof.
  cbv zeta. unfold option_text. cbv zeta. rewrite !str_or_nil.
  set (ui1 := trim (strip_searchable (trim (a_ui_label_1 doc)))).
  set (ui2 := trim (a_ui_label_2 doc)).
  set (label := if truthy ui1 && truthy ui2
                then trim (collapse_ws (ui1 ++ lit " " ++ ui2))
                else str_or ui1 ui2).
  assert (Hu : trimmed (lit "Untitled document")) by (split; reflexivity).
  assert (Hl : trimmed label).
  { unfold label. destruct (truthy ui1 && truthy ui2);
      [apply trim_trimmed |].
    unfold str_or. destruct (truthy ui1); apply trim_trimmed. }
  split; [| split; [| split]].
  - unfold str_or. destruct (truthy label) eqn:E; [| discriminate].
    intros H. now rewrite H in E.
  - unfold str_or. now destruct (truthy label).
  - intros H1 H2.
    assert (truthy ui1 && truthy ui2 = true) as E
        by (destruct ui1; [contradiction |]; destruct ui2; [contradiction |];
            reflexivity).
    unfold label. rewrite E. unfold str_or.
    destruct (truthy (trim (collapse_ws (ui1 ++ lit " " ++ ui2)))).
    + apply single_spaced_trim, collapse_ws_single.
    + simpl. repeat split; intros; discriminate.
  - intros H1 H2. unfold label. rewrite H1, H2. reflexivity.
Qed.

(** A catalogue row as the feed has them. *)
Example option_text_row :
  option_text {| a_ui_group := lit "1920s";
                 a_ui_label_1 := lit " Searchable   Annual  Report ";
                 a_ui_label_2 := lit "1927 ";
                 a_filename := lit "Annual Report 1927.pdf" |}
  = lit "Annual Report 1927".
Proof. reflexivity. Qed.

(* ================================================================== *)
(** * Properties: the window layer as it runs *)
(* ================================================================== *)

Section Layer_facts.

Lemma NoDup_map_filter {A B} (g : A -> B) (q : A -> bool) l :
  NoDup (map g l) -> NoDup (map g (filter q l)).
Proof.
  induction l as [| x l IH]; [auto |].
  simpl. intros H. inversion H as [| ? ? Hx Hl]. subst.
  destruct (q x); [| now apply IH].
  simpl. constructor; [| now apply IH].
  intros Hin. apply Hx. apply in_map_iff in Hin.
  destruct Hin as [y [Hy Hin]]. apply filter_In in Hin.
  apply in_map_iff. exists y. tauto.
Qed.

Lemma Forall_filter {A} (P : A -> Prop) (q : A -> bool) l :
  Forall P l -> Forall P (filter q l).
Proof.
  intros H. apply Forall_forall. intros x Hx. apply filter_In in Hx.
  rewrite Forall_forall in H. now apply H.
Qed.

Lemma page_wf_update i f p :
  (forall x, w_id (f x) = w_id x) ->
  page_wf p -> page_wf (with_wins (update_win i f (wins p)) p).
Proof.
  intros Hf [Hnd Hlt]. unfold page_wf. cbn [wins next_el with_wins].
  rewrite map_update_win by exact Hf. split; [exact Hnd |].
  apply Forall_forall. intros x Hx. unfold update_win in Hx.
  apply in_map_iff in Hx. destruct Hx as [y [<- Hy]].
  rewrite Forall_forall in Hlt. specialize (Hlt y Hy).
  destruct (Nat.eqb (w_id y) i); [now rewrite Hf | exact Hlt].
Qed.

Lemma pane_unique_update i f ws :
  (forall x, w_pane (f x) = w_pane x) -> (forall x, w_key (f x) = w_key x) ->
  pane_unique ws -> pane_unique (update_win i f ws).
Proof.
  intros Hp Hk H. unfold pane_unique.
  rewrite map_update_win; [exact H |]. intros x. now rewrite Hp, Hk.
Qed.

Lemma dock_ok_mono n m x : n <= m -> dock_ok n x -> dock_ok m x.
Proof.
  intros Hle [H1 H2]. split; [| exact H2].
  eapply Forall_impl; [| exact H1]. simpl. intros b Hb. lia.
Qed.

Lemma dock_ok_empty n : dock_ok n {| d_display := DispUnset; d_buttons := [] |}.
Proof.
  repeat split; try constructor; simpl; try discriminate.
  intros H. now elim H.
Qed.

Lemma dock_ok_without_button n i x : dock_ok n x -> dock_ok n (without_button i x).
Proof.
  intros [H1 [H2 [H3 H4]]]. unfold without_button.
  destruct (filter (fun b => negb (Nat.eqb (b_id b) i)) (d_buttons x))
    as [| b bs] eqn:E.
  - repeat split; try constructor; simpl; try discriminate.
    intros H. now elim H.
  - cbn [d_display d_buttons]. rewrite <- E.
    split; [now apply Forall_filter |].
    split; [now apply NoDup_map_filter |].
    split; [now apply NoDup_map_filter |].
    split; [intros _; rewrite E; discriminate |].
    intros _. apply H4. intros Hx. rewrite Hx in E. discriminate E.
Qed.

Lemma dock_ok_hidden n x :
  dock_ok n x ->
  dock_ok n (match d_buttons x with
             | [] => {| d_display := DispNone; d_buttons := [] |}
             | _ :: _ => x
             end).
Proof.
  intros H. destruct (d_buttons x) eqn:E; [| exact H].
  repeat split; try constructor; simpl; try discriminate.
  intros H'. now elim H'.
Qed.

Lemma dock_of_remove_hide d i p d' :
  dock_of d' (maybeHideDock d (remove_button d i p))
  = if Nat.eqb d d' then without_button i (dock_of d p) else dock_of d' p.
Proof.
  unfold maybeHideDock, remove_button. rewrite dock_of_with_dock.
  cbn [d_buttons]. unfold without_button.
  destruct (Nat.eqb d d') eqn:E.
  - apply Nat.eqb_eq in E. subst d'.
    destruct (filter (fun b => negb (Nat.eqb (b_id b) i))
                (d_buttons (dock_of d p)));
      now rewrite dock_of_with_dock.
  - apply Nat.eqb_neq in E.
    destruct (filter (fun b => negb (Nat.eqb (b_id b) i))
                (d_buttons (dock_of d p)));
      rewrite ?dock_of_with_dock_ne by congruence; reflexivity.
Qed.

Lemma dock_of_hide d p d' :
  dock_of d' (maybeHideDock d p)
  = if Nat.eqb d d'
    then match d_buttons (dock_of d p) with
         | [] => {| d_display := DispNone; d_buttons := [] |}
         | _ :: _ => dock_of d p
         end
    else dock_of d' p.
Proof.
  unfold maybeHideDock. destruct (Nat.eqb d d') eqn:E.
  - apply Nat.eqb_eq in E. subst d'.
    destruct (d_buttons (dock_of d p)); [apply dock_of_with_dock | reflexivity].
  - apply Nat.eqb_neq in E.
    destruct (d_buttons (dock_of d p));
      [apply dock_of_with_dock_ne; congruence | reflexivity].
Qed.

Lemma find_button_none key bs :
  find_button key bs = None -> ~ In key (map b_key bs).
Proof.
  unfold find_button. intros H Hin. apply in_map_iff in Hin.
  destruct Hin as [b [Hb Hin]]. pose proof (find_none _ _ H b Hin) as Hn.
  simpl in Hn. rewrite Hb, str_eqb_refl in Hn. discriminate.
Qed.

Lemma find_button_some key bs b :
  find_button key bs = Some b -> In b bs /\ b_key b = key.
Proof.
  unfold find_button. intros H. apply find_some in H.
  destruct H as [Hin Hk]. now apply str_eqb_eq in Hk.
Qed.

Lemma ok_start n z :
  window_layer_ok {| wins := []; docks := []; next_el := n; css_zIndex := z |}.
Proof.
  split; [split; constructor |]. split; [constructor |].
  intros d. apply dock_ok_empty.
Qed.

Lemma ok_bringToFront i p :
  window_layer_ok p -> window_layer_ok (bringToFront i p).
Proof.
  intros [Hwf [Hu Hd]]. unfold bringToFront.
  split; [now apply page_wf_update |].
  split; [now apply pane_unique_update |]. exact Hd.
Qed.

Lemma ok_show i d p :
  window_layer_ok p ->
  window_layer_ok (with_wins (update_win i (set_display d) (wins p)) p).
Proof.
  intros [Hwf [Hu Hd]].
  split; [now apply page_wf_update |].
  split; [now apply pane_unique_update |]. exact Hd.
Qed.

Lemma next_el_maybeHideDock d p : next_el (maybeHideDock d p) = next_el p.
Proof. unfold maybeHideDock. now destruct (d_buttons (dock_of d p)). Qed.

Lemma ok_remove_hide d i p :
  window_layer_ok p -> window_layer_ok (maybeHideDock d (remove_button d i p)).
Proof.
  intros [Hwf [Hu Hd]].
  split; [| split].
  - unfold page_wf. rewrite wins_maybeHideDock, next_el_maybeHideDock.
    exact Hwf.
  - rewrite wins_maybeHideDock. exact Hu.
  - intros d'. rewrite dock_of_remove_hide, next_el_maybeHideDock.
    change (next_el (remove_button d i p)) with (next_el p).
    destruct (Nat.eqb d d'); [apply dock_ok_without_button |]; apply Hd.
Qed.

Lemma ok_openFloatingWindow o p :
  window_layer_ok p -> window_layer_ok (fst (openFloatingWindow o p)).
Proof.
  intros Hok. unfold openFloatingWindow.
  destruct (find_window (fw_pane o) (fw_key o) (wins p)) as [w |] eqn:Hf.
  - cbn [fst].
    pose proof (ok_bringToFront (w_id w) _ (ok_show (w_id w) DispFlex p Hok))
      as H2.
    destruct (find_button (fw_key o) _) as [b |]; [| exact H2].
    now apply ok_remove_hide.
  - cbn [fst]. apply ok_bringToFront.
    destruct Hok as [[Hnd Hlt] [Hu Hd]].
    split; [| split].
    + unfold page_wf. cbn [wins next_el]. rewrite map_app. cbn [map w_id].
      split.
      * apply NoDup_snoc; [exact Hnd |]. intros Hin.
        apply in_map_iff in Hin. destruct Hin as [x [Hx Hin]].
        rewrite Forall_forall in Hlt. specialize (Hlt x Hin). lia.
      * apply Forall_app. split.
        -- eapply Forall_impl; [| exact Hlt]. simpl. intros x Hx. lia.
        -- constructor; [simpl; lia | constructor].
    + unfold pane_unique. cbn [wins]. rewrite map_app. cbn [map w_pane w_key].
      apply NoDup_snoc; [exact Hu | now apply find_window_none].
    + intros d. cbn [next_el].
      apply (dock_ok_mono (next_el p)); [lia | apply Hd].
Qed.

Lemma ok_close_window w p :
  window_layer_ok p -> window_layer_ok (close_window w p).
Proof.
  intros Hok. unfold close_window.
  set (p1 := match find_button (w_key w) (d_buttons (dock_of (w_dock w) p)) with
             | Some b => remove_button (w_dock w) (b_id b) p
             | None => p
             end).
  assert (H1 : page_wf p1 /\ pane_unique (wins p1)
               /\ next_el p1 = next_el p
               /\ forall d,
                    dock_of d (maybeHideDock (w_dock w) p1)
                    = dock_of d (maybeHideDock (w_dock w) p1)
                    /\ dock_ok (next_el p)
                               (dock_of d (maybeHideDock (w_dock w) p1))).
  { unfold p1.
    destruct (find_button (w_key w) (d_buttons (dock_of (w_dock w) p)))
      as [b |].
    - destruct (ok_remove_hide (w_dock w) (b_id b) p Hok) as [Hwf [Hu Hd]].
      destruct Hok as [Hwf0 [Hu0 Hd0]].
      split; [exact Hwf0 |]. split; [exact Hu0 |]. split; [reflexivity |].
      intros d. split; [reflexivity |].
      specialize (Hd d). rewrite next_el_maybeHideDock in Hd. exact Hd.
    - destruct Hok as [Hwf0 [Hu0 Hd0]].
      split; [exact Hwf0 |]. split; [exact Hu0 |]. split; [reflexivity |].
      intros d. split; [reflexivity |]. rewrite dock_of_hide.
      destruct (Nat.eqb (w_dock w) d); [apply dock_ok_hidden |]; apply Hd0. }
  destruct H1 as [[Hnd Hlt] [Hu [Hn Hd]]].
  set (p2 := with_wins (filter (fun x => negb (Nat.eqb (w_id x) (w_id w)))
                               (wins p1)) p1).
  assert (Hdock : forall d, dock_of d (maybeHideDock (w_dock w) p2)
                            = dock_of d (maybeHideDock (w_dock w) p1)).
  { intros d. rewrite !dock_of_hide. reflexivity. }
  assert (Hnext : next_el (maybeHideDock (w_dock w) p2) = next_el p)
    by (rewrite next_el_maybeHideDock; exact Hn).
  split; [| split].
  - unfold page_wf. rewrite wins_maybeHideDock, Hnext. cbn [wins p2 with_wins].
    split; [now apply NoDup_map_filter |].
    rewrite <- Hn. now apply Forall_filter.
  - rewrite wins_maybeHideDock. cbn [wins p2 with_wins].
    now apply NoDup_map_filter.
  - intros d. rewrite Hnext, Hdock. apply Hd.
Qed.

Lemma ok_dock_click d b p :
  window_layer_ok p -> window_layer_ok (dock_click d b p).
Proof.
  intros Hok. unfold dock_click. apply ok_remove_hide, ok_bringToFront.
  now apply ok_show.
Qed.

Lemma ok_minimize_window w p :
  window_layer_ok p -> window_layer_ok (minimize_window w p).
Proof.
  intros Hok. unfold minimize_window.
  pose proof (ok_show (w_id w) DispNone p Hok) as H1.
  set (p1 := with_wins (update_win (w_id w) (set_display DispNone) (wins p)) p)
    in *.
  destruct H1 as [Hwf [Hu Hd]].
  assert (Hb : d_buttons (dock_of (w_dock w) (ensureDockVisible (w_dock w) p1))
               = d_buttons (dock_of (w_dock w) p1))
    by (unfold ensureDockVisible; now rewrite dock_of_with_dock).
  rewrite Hb.
  destruct (find_button (w_key w) (d_buttons (dock_of (w_dock w) p1)))
    as [b |] eqn:Ef.
  - split; [exact Hwf |]. split; [exact Hu |].
    intros d. unfold ensureDockVisible. cbn [next_el with_dock].
    destruct (Nat.eq_dec d (w_dock w)) as [-> | Hne].
    + rewrite dock_of_with_dock. destruct (Hd (w_dock w)) as [A [B [C D]]].
      split; [exact A |]. split; [exact B |]. split; [exact C |].
      cbn [d_display d_buttons]. split; [intros _ | reflexivity].
      apply find_button_some in Ef. destruct Ef as [Hin _].
      intros E. rewrite E in Hin. destruct Hin.
    + rewrite dock_of_with_dock_ne by exact Hne. apply Hd.
  - split; [| split].
    + destruct Hwf as [Hnd Hlt]. split; [exact Hnd |].
      cbn [wins next_el ensureDockVisible with_dock].
      eapply Forall_impl; [| exact Hlt]. simpl. intros x Hx.
      unfold ensureDockVisible, with_dock. cbn [next_el]. lia.
    + exact Hu.
    + intros d. cbn [next_el].
      replace (next_el (ensureDockVisible (w_dock w) p1)) with (next_el p1)
        by reflexivity.
      match goal with
      | |- dock_ok _ (dock_of d ?q) =>
          replace (dock_of d q)
            with (dock_of d
                    (with_dock (w_dock w)
                       {| d_display :=
                            d_display (dock_of (w_dock w)
                                         (ensureDockVisible (w_dock w) p1));
                          d_buttons :=
                            d_buttons (dock_of (w_dock w) p1)
                            ++ [{| b_id := next_el p1; b_key := w_key w;
                                   b_text := w_title w; b_win := w_id w |}] |}
                       (ensureDockVisible (w_dock w) p1)))
            by (rewrite <- Hb; reflexivity)
      end.
      destruct (Nat.eq_dec d (w_dock w)) as [-> | Hne].
      * rewrite dock_of_with_dock. destruct (Hd (w_dock w)) as [A [B [C D]]].
        unfold dock_ok. cbn [d_display d_buttons].
        split; [| split; [| split; [| split]]].
        -- apply Forall_app. split.
           ++ eapply Forall_impl; [| exact A]. simpl. intros x Hx. lia.
           ++ constructor; [simpl; lia | constructor].
        -- rewrite map_app. apply NoDup_snoc; [exact B |]. simpl.
           intros Hin. apply in_map_iff in Hin. destruct Hin as [x [Hx Hin]].
           rewrite Forall_forall in A. specialize (A x Hin). simpl in A. lia.
        -- rewrite map_app. apply NoDup_snoc; [exact C |]. simpl.
           now apply find_button_none.
        -- intros _. now destruct (d_buttons (dock_of (w_dock w) p1)).
        -- intros _. unfold ensureDockVisible. now rewrite dock_of_with_dock.
      * rewrite dock_of_with_dock_ne by exact Hne.
        unfold ensureDockVisible. rewrite dock_of_with_dock_ne by exact Hne.
        apply (dock_ok_mono (next_el p1)); [lia | apply Hd].
Qed.

End Layer_facts.

(** X12.  Whatever the user does with the floating windows (opens, presses,
    closes, minimizes, clicks a dock button), the page keeps this shape: no
    two windows are the same element, no pane has two windows with the same
    key, no dock has two buttons for the same key, and a dock is displayed
    exactly when it holds a button. *)
Theorem window_layer_invariant (p : page) :
  win_reachable p -> window_layer_ok p.
Proof.
  induction 1 as [n z | o p _ IH | w p _ IH _ | w p _ IH _ | w p _ IH _
                  | d b p _ IH _].
  - apply ok_start.
  - now apply ok_openFloatingWindow.
  - now apply ok_bringToFront.
  - now apply ok_close_window.
  - now apply ok_minimize_window.
  - now apply ok_dock_click.
Qed.

Lemma window_layer_invariant_witness :
  wins opened_page = [opened_window]
  /\ window_layer_ok (minimize_window opened_window opened_page).
Proof.
  split; [reflexivity |].
  apply window_layer_invariant.
  apply win_minimize; [apply win_open, win_start | now left].
Defined.

Section Restore_window_facts.

Lemma filter_snoc_fresh (i : nat) (bs : list dock_btn) (b : dock_btn) :
  b_id b = i -> Forall (fun x => b_id x <> i) bs ->
  filter (fun x => negb (Nat.eqb (b_id x) i)) (bs ++ [b]) = bs.
Proof.
  intros Hb Hall. rewrite filter_app. simpl. rewrite Hb, Nat.eqb_refl. simpl.
  rewrite app_nil_r. induction Hall as [| x bs Hx _ IH]; [reflexivity |].
  simpl. apply Nat.eqb_neq in Hx. now rewrite Hx, IH.
Qed.

Lemma raised_above i ws :
  forall x zx,
    In x (update_win i (set_zIndex (ZInt (maxZ ws + 1))) ws) ->
    w_id x <> i -> w_zIndex x = ZInt zx -> (zx < maxZ ws + 1)%Z.
Proof.
  intros x zx Hx Hne Hz.
  apply In_update_win_other in Hx; [| reflexivity | exact Hne].
  pose proof (maxZ_bounds ws x zx Hx Hz). lia.
Qed.

End Restore_window_facts.

(** X13.  Minimizing a window and clicking its dock button brings it back.
    The minimize button hides the window, shows the dock and adds one button
    with the key and the title of the window at the end of the dock; a click
    on that button displays the window again above every other window,
    leaves the other windows as they were, takes the button out of the dock
    and hides the dock when it was the only button. *)
Theorem minimize_then_restore (w : fwin) (p : page) :
  window_layer_ok p -> In w (wins p) ->
  find_button (w_key w) (d_buttons (dock_of (w_dock w) p)) = None ->
  let d := w_dock w in
  let p1 := minimize_window w p in
  exists b,
    d_buttons (dock_of d p1) = d_buttons (dock_of d p) ++ [b]
    /\ b_key b = w_key w /\ b_text b = w_title w
    /\ d_display (dock_of d p1) = DispFlex
    /\ In (set_display DispNone w) (wins p1)
    /\ let p2 := dock_click d b p1 in
       d_buttons (dock_of d p2) = d_buttons (dock_of d p)
       /\ (d_display (dock_of d p2) = DispFlex
           <-> d_buttons (dock_of d p) <> [])
       /\ (exists z,
              In (set_zIndex (ZInt z) (set_display DispFlex w)) (wins p2)
              /\ forall x zx, In x (wins p2) -> w_id x <> w_id w ->
                              w_zIndex x = ZInt zx -> (zx < z)%Z)
       /\ (forall x, In x (wins p2) -> w_id x <> w_id w -> In x (wins p)).
Proof.
  intros Hok Hin Hnone d p1.
  set (b := {| b_id := next_el p; b_key := w_key w; b_text := w_title w;
               b_win := w_id w |}).
  set (q := with_wins (update_win (w_id w) (set_display DispNone) (wins p)) p).
  assert (Hp1 : p1 = {| wins := wins q;
                        docks := docks (with_dock d
                                          {| d_display := DispFlex;
                                             d_buttons :=
                                               d_buttons (dock_of d p) ++ [b] |}
                                          (ensureDockVisible d q));
                        next_el := S (next_el p);
                        css_zIndex := css_zIndex p |}).
  { unfold p1, minimize_window, d. fold q.
    assert (Hb : d_buttons (dock_of (w_dock w)
                              (ensureDockVisible (w_dock w) q))
                 = d_buttons (dock_of (w_dock w) p))
      by (unfold ensureDockVisible; now rewrite dock_of_with_dock).
    rewrite Hb, Hnone.
    assert (Hdisp : d_display (dock_of (w_dock w)
                                 (ensureDockVisible (w_dock w) q))
                    = DispFlex)
      by (unfold ensureDockVisible; now rewrite dock_of_with_dock).
    rewrite Hdisp. reflexivity. }
  assert (Hd1 : dock_of d p1
                = {| d_display := DispFlex;
                     d_buttons := d_buttons (dock_of d p) ++ [b] |}).
  { rewrite Hp1.
    change (dock_of d
              (with_dock d
                 {| d_display := DispFlex;
                    d_buttons := d_buttons (dock_of d p) ++ [b] |}
                 (ensureDockVisible d q))
            = {| d_display := DispFlex;
                 d_buttons := d_buttons (dock_of d p) ++ [b] |}).
    apply dock_of_with_dock. }
  assert (Hw1 : wins p1 = update_win (w_id w) (set_display DispNone) (wins p))
    by (rewrite Hp1; reflexivity).
  exists b. rewrite Hd1. cbn [d_buttons d_display].
  split; [reflexivity |]. split; [reflexivity |]. split; [reflexivity |].
  split; [reflexivity |].
  split; [rewrite Hw1; now apply In_update_win_same |].
  cbv zeta. unfold dock_click. cbn [b_win b_id b].
  set (p1' := with_wins (update_win (w_id w) (set_display DispFlex) (wins p1))
                        p1).
  rewrite dock_of_remove_hide, Nat.eqb_refl.
  change (dock_of d (bringToFront (w_id w) p1')) with (dock_of d p1).
  rewrite Hd1. unfold without_button. cbn [d_buttons d_display].
  destruct Hok as [_ [_ Hdk]]. destruct (Hdk d) as [Hlt [_ [_ Hshown]]].
  rewrite filter_snoc_fresh;
    [| reflexivity
     | eapply Forall_impl; [| exact Hlt]; simpl; intros x Hx; lia].
  rewrite wins_maybeHideDock.
  change (wins (remove_button d (next_el p) (bringToFront (w_id w) p1')))
    with (update_win (w_id w) (set_zIndex (ZInt (maxZ (wins p1') + 1)))
            (wins p1')).
  assert (Hw1' : wins p1'
                 = update_win (w_id w) (set_display DispFlex)
                     (update_win (w_id w) (set_display DispNone) (wins p)))
    by (unfold p1'; cbn [wins with_wins]; now rewrite Hw1).
  split; [| split; [| split]].
  - now destruct (d_buttons (dock_of d p)).
  - destruct (d_buttons (dock_of d p)) eqn:E; cbn [d_display].
    + split; [discriminate | intros H; now elim H].
    + split; [intros _; discriminate | reflexivity].
  - exists (maxZ (wins p1') + 1)%Z. split; [| apply raised_above].
    assert (A1 : In (set_display DispNone w)
                    (update_win (w_id w) (set_display DispNone) (wins p)))
      by now apply In_update_win_same.
    assert (A2 : In (set_display DispFlex (set_display DispNone w)) (wins p1'))
      by (rewrite Hw1'; now apply In_update_win_same).
    assert (A3 : In (set_zIndex (ZInt (maxZ (wins p1') + 1))
                       (set_display DispFlex (set_display DispNone w)))
                    (update_win (w_id w)
                       (set_zIndex (ZInt (maxZ (wins p1') + 1))) (wins p1')))
      by now apply In_update_win_same.
    exact A3.
  - intros x Hx Hne.
    apply In_update_win_other in Hx; [| reflexivity | exact Hne].
    rewrite Hw1' in Hx.
    apply In_update_win_other in Hx; [| reflexivity | exact Hne].
    apply In_update_win_other in Hx; [| reflexivity | exact Hne].
    exact Hx.
Qed.

Lemma minimize_then_restore_witness :
  let p1 := minimize_window opened_window opened_page in
  map b_key (d_buttons (dock_of 0 p1)) = [lit "mosaic-meta-1924"]
  /\ d_display (dock_of 0 p1) = DispFlex
  /\ map w_display (wins p1) = [DispNone]
  /\ exists b,
       d_buttons (dock_of 0 p1) = [b]
       /\ d_buttons (dock_of 0 (dock_click 0 b p1)) = []
       /\ d_display (dock_of 0 (dock_click 0 b p1)) = DispNone
       /\ map w_display (wins (dock_click 0 b p1)) = [DispFlex].
Proof.
  cbv zeta.
  split; [reflexivity |]. split; [reflexivity |]. split; [reflexivity |].
  assert (Hok : window_layer_ok opened_page)
    by (apply ok_openFloatingWindow, ok_start).
  destruct (minimize_then_restore opened_window opened_page Hok
              ltac:(now left) eq_refl) as [b [Hb _]].
  exists b. split; [exact Hb |].
  change (d_buttons (dock_of (w_dock opened_window)
                       (minimize_window opened_window opened_page))
          = [] ++ [b]) in Hb.
  injection Hb as Hb. subst b. split; [reflexivity |].
  split; reflexivity.
Defined.

Section Close_window_facts.

Lemma NoDup_map_In_eq {A B} (g : A -> B) l x y :
  NoDup (map g l) -> In x l -> In y l -> g x = g y -> x = y.
Proof.
  induction l as [| a l IH]; [intros _ [] |].
  simpl. intros H Hx Hy E. inversion H as [| ? ? Ha Hl]. subst.
  destruct Hx as [-> | Hx], Hy as [-> | Hy].
  - reflexivity.
  - exfalso. apply Ha. rewrite E. now apply in_map.
  - exfalso. apply Ha. rewrite <- E. now apply in_map.
  - now apply IH.
Qed.

Lemma find_none_iff {A} (q : A -> bool) l :
  (forall x, In x l -> q x = false) -> find q l = None.
Proof.
  induction l as [| a l IH]; [reflexivity |].
  intros H. simpl. rewrite (H a) by now left. apply IH.
  intros x Hx. apply H. now right.
Qed.

Lemma buttons_without_button i x :
  d_buttons (without_button i x)
  = filter (fun b => negb (Nat.eqb (b_id b) i)) (d_buttons x).
Proof.
  unfold without_button.
  now destruct (filter (fun b => negb (Nat.eqb (b_id b) i)) (d_buttons x)).
Qed.

End Close_window_facts.

(** X14.  The close button of a window removes the window and, if the window
    was minimized, its dock button: afterwards the pane has no window and the
    dock no button with that key, the other windows are all still there, and
    opening the same key again creates a new element. *)
Theorem close_window_removes (w : fwin) (p : page) :
  window_layer_ok p -> In w (wins p) ->
  let p' := close_window w p in
  wins p' = filter (fun x => negb (Nat.eqb (w_id x) (w_id w))) (wins p)
  /\ find_window (w_pane w) (w_key w) (wins p') = None
  /\ find_button (w_key w) (d_buttons (dock_of (w_dock w) p')) = None
  /\ forall o, fw_pane o = w_pane w -> fw_key o = w_key w ->
               snd (openFloatingWindow o p') = next_el p
               /\ ~ In (next_el p) (map w_id (wins p)).
Proof.
  intros [[Hnd Hlt] [Hu Hdk]] Hin p'.
  assert (Hw : wins p'
               = filter (fun x => negb (Nat.eqb (w_id x) (w_id w))) (wins p)).
  { unfold p', close_window. rewrite wins_maybeHideDock. cbn [wins with_wins].
    now destruct (find_button (w_key w) (d_buttons (dock_of (w_dock w) p))). }
  assert (Hfw : find_window (w_pane w) (w_key w) (wins p') = None).
  { rewrite Hw. unfold find_window. apply find_none_iff. intros x Hx.
    apply filter_In in Hx. destruct Hx as [Hx Hid].
    destruct (Nat.eqb (w_pane x) (w_pane w)) eqn:E1; [| reflexivity].
    destruct (str_eqb (w_key x) (w_key w)) eqn:E2; [| reflexivity].
    exfalso. apply Nat.eqb_eq in E1. apply str_eqb_eq in E2.
    assert (x = w)
      by (apply (NoDup_map_In_eq (fun y => (w_pane y, w_key y)) (wins p));
          [exact Hu | exact Hx | exact Hin | now rewrite E1, E2]).
    subst x. now rewrite Nat.eqb_refl in Hid. }
  assert (Hn : next_el p' = next_el p).
  { unfold p', close_window. rewrite next_el_maybeHideDock. cbn [next_el with_wins].
    now destruct (find_button (w_key w) (d_buttons (dock_of (w_dock w) p))). }
  split; [exact Hw |]. split; [exact Hfw |]. split.
  - unfold p', close_window.
    destruct (find_button (w_key w) (d_buttons (dock_of (w_dock w) p)))
      as [b |] eqn:Ef.
    + match goal with
      | |- find_button _ (d_buttons (dock_of ?d (maybeHideDock ?d ?q))) = _ =>
          replace (dock_of d (maybeHideDock d q))
            with (dock_of d (maybeHideDock d
                               (remove_button (w_dock w) (b_id b) p)))
            by (rewrite !dock_of_hide; reflexivity)
      end.
      rewrite dock_of_remove_hide, Nat.eqb_refl, buttons_without_button.
      apply find_button_some in Ef. destruct Ef as [Hb Hk].
      destruct (Hdk (w_dock w)) as [_ [_ [Hkeys _]]].
      unfold find_button. apply find_none_iff. intros x Hx.
      apply filter_In in Hx. destruct Hx as [Hx Hid].
      destruct (str_eqb (b_key x) (w_key w)) eqn:E; [| reflexivity].
      exfalso. apply str_eqb_eq in E.
      assert (x = b)
        by (apply (NoDup_map_In_eq b_key (d_buttons (dock_of (w_dock w) p)));
            [exact Hkeys | exact Hx | exact Hb | congruence]).
      subst x. now rewrite Nat.eqb_refl in Hid.
    + match goal with
      | |- find_button _ (d_buttons (dock_of ?d (maybeHideDock ?d ?q))) = _ =>
          replace (dock_of d (maybeHideDock d q))
            with (dock_of d (maybeHideDock d p))
            by (rewrite !dock_of_hide; reflexivity)
      end.
      rewrite dock_of_hide, Nat.eqb_refl.
      destruct (d_buttons (dock_of (w_dock w) p)) eqn:E; [reflexivity |].
      now rewrite E.
  - intros o Hp Hk. split.
    + unfold openFloatingWindow. rewrite Hp, Hk, Hfw. cbn [snd w_id].
      exact Hn.
    + intros Hi. apply in_map_iff in Hi. destruct Hi as [x [Hx Hi]].
      rewrite Forall_forall in Hlt. specialize (Hlt x Hi). lia.
Qed.

Lemma close_window_removes_witness :
  wins (close_window opened_window opened_page) = []
  /\ snd (openFloatingWindow meta_opts
            (close_window opened_window opened_page)) = 1.
Proof.
  assert (Hok : window_layer_ok opened_page)
    by (apply ok_openFloatingWindow, ok_start).
  destruct (close_window_removes opened_window opened_page Hok
              ltac:(now left)) as [Hw [_ [_ Ho]]].
  split; [exact Hw |].
  exact (proj1 (Ho meta_opts eq_refl eq_refl)).
Defined.

(* ================================================================== *)
(** * Properties: opening documents *)
(* ================================================================== *)

Section Viewer_param_facts.
Import Uri.

Lemma viewer_query_pairs u opts :
  let o := match opts with Some o => o | None => no_opts end in
  u_query (parse_url (buildPdfJsViewerUrl u opts))
  = Some (join (lit "&") (map piece (query_pieces u o)))
  /\ pairs_of true (join (lit "&") (map piece (query_pieces u o)))
     = (list_ascii_of_string "file", utf8 u)
       :: match eff_title o with
          | Some t => [(list_ascii_of_string "aimTitle", utf8 (val_string t))]
          | None => []
          end.
Proof.
  intros o. pose proof (parse_buildPdfJsViewerUrl u opts) as Hp.
  cbv zeta in Hp. fold o in Hp. rewrite Hp. split; [reflexivity |].
  rewrite pairs_of_join.
  - apply decoded_query.
  - discriminate.
  - apply query_pieces_no_sep.
Qed.

Lemma viewer_file_param u opts :
  query_param "file" (buildPdfJsViewerUrl u opts) = Some (utf8 u).
Proof.
  unfold query_param. destruct (viewer_query_pairs u opts) as [Hq Hp].
  rewrite Hq, Hp. cbn [assoc_bytes].
  now destruct (list_eq_dec ascii_dec (list_ascii_of_string "file")
                  (list_ascii_of_string "file")).
Qed.


Lemma viewer_zoom_param u opts :
  fragment_param "zoom" (buildPdfJsViewerUrl u opts)
  = Some (utf8 (val_string
                  (eff_zoom (match opts with Some o => o | None => no_opts end)))).
Proof.
  unfold fragment_param.
  pose proof (parse_buildPdfJsViewerUrl u opts) as Hp. cbv zeta in Hp.
  rewrite Hp. cbn [u_fragment].
  rewrite pairs_of_join;
    [| discriminate | apply fragment_pieces_no_sep].
  rewrite decoded_fragment. cbn [assoc_bytes List.app].
  destruct (list_eq_dec ascii_dec (list_ascii_of_string "page")
              (list_ascii_of_string "zoom")) as [E | _];
    [discriminate E |].
  now destruct (list_eq_dec ascii_dec (list_ascii_of_string "zoom")
                  (list_ascii_of_string "zoom")).
Qed.

End Viewer_param_facts.

Section Plain_text_facts.

Lemma plain_text_encoded s : plain_text s -> encoded_upto3 s s.
Proof.
  intros [Hs Hp]. split; [exact Hs |]. split; [exact Hp |].
  exists 0. split; [lia | reflexivity].
Qed.

Lemma plain_text_app a b : plain_text a -> plain_text b -> plain_text (a ++ b).
Proof.
  intros [Ha Pa] [Hb Pb]. split.
  - now rewrite forallb_app, Ha, Hb.
  - intros Hin. apply in_app_or in Hin. tauto.
Qed.

Lemma plain_text_lit (s : string) :
  forallb (fun c => scalar c && negb (c =? 37)%N) (lit s) = true ->
  plain_text (lit s).
Proof.
  intros H. rewrite forallb_forall in H. split.
  - apply forallb_forall. intros c Hc. specialize (H c Hc).
    now apply andb_true_iff in H.
  - intros Hin. specialize (H _ Hin). now rewrite andb_false_r in H.
Qed.

Lemma plain_text_digit c : is_digit c = true -> plain_text [c].
Proof.
  intros H. apply is_digit_range in H. split.
  - simpl. rewrite andb_true_r. apply scalar_ascii. apply N.ltb_lt. lia.
  - intros [E | []]. lia.
Qed.

Lemma plain_text_year y : is_year y -> plain_text y.
Proof.
  intros [c [d [Hy [Hc Hd]]]].
  assert (plain_text [c; d])
    by (apply (plain_text_app [c] [d]); now apply plain_text_digit).
  destruct Hy as [-> | ->];
    (apply plain_text_app; [now apply plain_text_lit | assumption]).
Qed.

End Plain_text_facts.

(** X15.  A click on [Provenance] for a mosaic of the year [year] opens, when
    the pane has no such window yet, one new window on top whose frame shows
    the viewer at zoom 75 with the provenance document of that year below the
    base path; a second click opens no other window. *)
Theorem openMosaicProvenanceWindow_document
    (dir : jstr) (m : nat) (year : jstr) (p : page) :
  page_wf p -> ends_with_slash dir = false -> is_year year ->
  find_window left_pane (lit "mosaic-prov-" ++ year) (wins p) = None ->
  let base := dir ++ repeat 47%N (S m) in
  let p1 := openMosaicProvenanceWindow base year p in
  exists w src z,
    wins p1 = wins p ++ [w]
    /\ w_id w = next_el p
    /\ w_key w = lit "mosaic-prov-" ++ year
    /\ w_body w = PdfFrame src
    /\ w_zIndex w = ZInt z
    /\ (forall x zx, In x (wins p) -> w_zIndex x = ZInt zx -> (zx < z)%Z)
    /\ Uri.query_param "file" src
       = Some (Uri.utf8 (dir ++ lit "/static/pdfs/Provenance/Historical Mosaics/AIMFredericton_HAPMosaic_Provenance_"
                         ++ year ++ lit ".pdf"))
    /\ Uri.fragment_param "zoom" src = Some (list_ascii_of_string "75")
    /\ map w_id (wins (openMosaicProvenanceWindow base year p1))
       = map w_id (wins p1).
Proof.
  intros [Hnd Hlt] Hdir Hy Hnone base p1.
  set (key := lit "mosaic-prov-" ++ year) in *.
  set (src := buildPdfJsViewerUrl (mosaicProvenanceUrl base year)
                                  provenance_opts).
  set (count := Z.of_nat (List.length
                            (filter (fun w => Nat.eqb (w_pane w) left_pane)
                                    (wins p)))).
  set (w0 := {| w_id := next_el p; w_pane := left_pane;
                w_dock := map_window_dock; w_key := key;
                w_title := lit "Mosaic Provenance (" ++ year ++ lit ")";
                w_body := PdfFrame src; w_display := DispUnset;
                w_zIndex := css_zIndex p;
                w_left := 20 + count * 18; w_top := 80 + count * 18 |}%Z).
  set (z := (maxZ (wins p ++ [w0]) + 1)%Z).
  assert (Hp1 : wins p1 = wins p ++ [set_zIndex (ZInt z) w0]).
  { unfold p1, openMosaicProvenanceWindow, openFloatingWindow.
    cbn [fw_pane fw_key fw_type fw_src fw_dock fw_title fw_html].
    fold key. rewrite Hnone.
    change (str_eqb (lit "pdf") (lit "pdf")) with true. cbv iota.
    fold src. fold count. fold w0. cbn [fst bringToFront wins with_wins w_id].
    fold z. unfold update_win. rewrite map_app. cbn [map w_id w0].
    rewrite Nat.eqb_refl. f_equal.
    rewrite <- (map_id (wins p)) at 2. apply map_ext_in. intros x Hx.
    rewrite Forall_forall in Hlt. specialize (Hlt x Hx).
    assert (Nat.eqb (w_id x) (next_el p) = false) as ->
        by (apply Nat.eqb_neq; lia).
    reflexivity. }
  exists (set_zIndex (ZInt z) w0), src, z.
  split; [exact Hp1 |]. split; [reflexivity |]. split; [reflexivity |].
  split; [reflexivity |]. split; [reflexivity |].
  split; [| split; [| split]].
  - intros x zx Hx Hz.
    pose proof (maxZ_bounds (wins p ++ [w0]) x zx
                  ltac:(apply in_or_app; now left) Hz).
    unfold z. lia.
  - unfold src. rewrite viewer_file_param. do 2 f_equal.
    unfold mosaicProvenanceUrl, base.
    rewrite (pdfUrl_plain dir m _
               [lit "Provenance"; lit "Historical Mosaics";
                lit "AIMFredericton_HAPMosaic_Provenance_" ++ year
                ++ lit ".pdf"] Hdir); [reflexivity |].
    constructor; [apply plain_text_encoded; now apply plain_text_lit |].
    constructor; [apply plain_text_encoded; now apply plain_text_lit |].
    constructor; [| constructor]. apply plain_text_encoded.
    apply plain_text_app; [now apply plain_text_lit |].
    apply plain_text_app; [now apply plain_text_year |].
    now apply plain_text_lit.
  - unfold src. rewrite viewer_zoom_param. reflexivity.
  - unfold openMosaicProvenanceWindow at 1. unfold openFloatingWindow.
    cbn [fw_pane fw_key fw_type fw_src fw_dock fw_title fw_html].
    fold key.
    assert (Hf : find_window left_pane key (wins p1)
                 = Some (set_zIndex (ZInt z) w0)).
    { rewrite Hp1. unfold find_window. rewrite find_app.
      fold (find_window left_pane key (wins p)). rewrite Hnone.
      cbn [find w_pane w_key set_zIndex w0]. rewrite Nat.eqb_refl.
      now rewrite str_eqb_refl. }
    rewrite Hf. cbn [fst].
    match goal with
    | |- map w_id (wins (match ?b with Some _ => _ | None => _ end)) = _ =>
        destruct b
    end; rewrite ?wins_maybeHideDock;
      cbn [wins remove_button with_dock bringToFront with_wins];
      now rewrite !map_update_win.
Qed.

Lemma openMosaicProvenanceWindow_document_witness :
  exists w,
    wins (openMosaicProvenanceWindow (lit "/repo/") (lit "1924") empty_page)
    = [w]
    /\ w_key w = lit "mosaic-prov-1924"
    /\ exists src,
         w_body w = PdfFrame src
         /\ Uri.query_param "file" src
            = Some (Uri.utf8 (lit "/repo/static/pdfs/Provenance/Historical Mosaics/AIMFredericton_HAPMosaic_Provenance_1924.pdf")).
Proof.
  assert (Hwf : page_wf empty_page) by (split; constructor).
  assert (Hy : is_year (lit "1924"))
    by (exists 50%N, 52%N; split; [now left | split; reflexivity]).
  destruct (openMosaicProvenanceWindow_document (lit "/repo") 0 (lit "1924")
              empty_page Hwf eq_refl Hy eq_refl)
    as [w [src [z [Hw [_ [Hk [Hb [_ [_ [Hf _]]]]]]]]]].
  exists w. split; [exact Hw |]. split; [exact Hk |].
  exists src. split; [exact Hb | exact Hf].
Defined.

Section Open_in_app_facts.





End Open_in_app_facts.



(* ================================================================== *)
(** * Properties: the overlay registry as it runs *)
(* ================================================================== *)

Section Registry_facts.

Lemma addLayerForEntry_cases ok entry s :
  exists r n z,
    addLayerForEntry ok entry s = register (ui_label entry) entry r n z s
    /\ (forall l, In l (members r) ->
                  next_layer s <= l_id l < next_layer s + n)
    /\ NoDup (map l_id (members r))
    /\ (ok = false ->
        r = Single {| l_id := next_layer s; l_class := LayerGroup |}).
Proof.
  set (ph := Single {| l_id := next_layer s; l_class := LayerGroup |}).
  set (tile := Single {| l_id := next_layer s; l_class := TileLayer |}).
  set (pair := Paired {| l_id := next_layer s; l_class := TileLayer |}
                      {| l_id := S (next_layer s); l_class := TileLayer |}).
  assert (Hph : forall l, In l (members ph) ->
                          next_layer s <= l_id l < next_layer s + 1)
    by (intros l [<- | []]; simpl; lia).
  assert (Htile : forall l, In l (members tile) ->
                            next_layer s <= l_id l < next_layer s + 1)
    by (intros l [<- | []]; simpl; lia).
  assert (Hpair : forall l, In l (members pair) ->
                            next_layer s <= l_id l < next_layer s + 2)
    by (intros l [<- | [<- | []]]; simpl; lia).
  assert (N1 : forall c, NoDup (map l_id (members
              (Single {| l_id := next_layer s; l_class := c |}))))
    by (intros c; simpl; constructor; [intros [] | constructor]).
  assert (N2 : NoDup (map l_id (members pair))).
  { simpl. constructor; [| constructor; [intros [] | constructor]].
    intros [E | []]. lia. }
  unfold addLayerForEntry. cbv zeta.
  destruct (str_eqb (toLowerCase (service_type entry)) (lit "tiled")
            || str_eqb (toLowerCase (service_type entry)) (lit "tiles")).
  { destruct ok.
    - exists tile, 1, (Some ({| l_id := next_layer s; l_class := TileLayer |},
                             Z_MOSAIC)).
      split; [reflexivity |]. split; [exact Htile |].
      split; [apply N1 | discriminate].
    - exists ph, 1, None. split; [reflexivity |]. split; [exact Hph |].
      split; [apply N1 | reflexivity]. }
  destruct (str_eqb (toLowerCase (service_type entry)) (lit "basemap")).
  { destruct ok.
    - exists tile, 1, None. split; [reflexivity |]. split; [exact Htile |].
      split; [apply N1 | discriminate].
    - exists ph, 1, None. split; [reflexivity |]. split; [exact Hph |].
      split; [apply N1 | reflexivity]. }
  destruct (str_eqb (toLowerCase (service_type entry)) (lit "hybrid")).
  { destruct ok.
    - exists pair, 2, None. split; [reflexivity |]. split; [exact Hpair |].
      split; [exact N2 | discriminate].
    - exists ph, 1, None. split; [reflexivity |]. split; [exact Hph |].
      split; [apply N1 | reflexivity]. }
  destruct (str_eqb (toLowerCase (service_type entry)) (lit "vector-street")).
  { destruct ok.
    - exists tile, 1, None. split; [reflexivity |]. split; [exact Htile |].
      split; [apply N1 | discriminate].
    - exists ph, 1, None. split; [reflexivity |]. split; [exact Hph |].
      split; [apply N1 | reflexivity]. }
  exists ph, 1, None. split; [reflexivity |]. split; [exact Hph |].
  split; [apply N1 | reflexivity].
Qed.

Lemma on_map_register id entry r n z s :
  on_map (lmap (register id entry r n z s)) = on_map (lmap s).
Proof.
  unfold register. cbn [lmap]. destruct z as [[l v] |]; [| reflexivity].
  unfold setZIndex. now destruct (l_class l).
Qed.

Lemma hasLayer_addTo_other l l' m :
  l_id l <> l_id l' -> hasLayer l' (addTo l m) = hasLayer l' m.
Proof.
  intros Hne. unfold addTo. destruct (hasLayer l m); [reflexivity |].
  unfold hasLayer, memb. cbn [on_map]. rewrite existsb_app. simpl.
  assert (Nat.eqb (l_id l') (l_id l) = false) as ->
      by (apply Nat.eqb_neq; congruence).
  now rewrite !orb_false_r.
Qed.

Lemma hasLayer_remove_ne l l' m :
  l_id l <> l_id l' -> hasLayer l' (map_removeLayer l m) = hasLayer l' m.
Proof.
  intros Hne. unfold hasLayer, map_removeLayer. cbn [on_map].
  destruct (memb (l_id l') (on_map m)) eqn:E.
  - apply memb_In. apply memb_In in E. apply filter_In. split; [exact E |].
    apply negb_true_iff, Nat.eqb_neq. congruence.
  - destruct (memb (l_id l') (filter _ _)) eqn:E2; [| reflexivity].
    apply memb_In, filter_In in E2. destruct E2 as [E2 _].
    apply memb_In in E2. congruence.
Qed.

Lemma hasLayer_bringToFront_eq l l' m :
  hasLayer l' (layer_bringToFront l m) = hasLayer l' m.
Proof.
  destruct (hasLayer l' m) eqn:E; [now apply hasLayer_bringToFront |].
  unfold layer_bringToFront. destruct (hasLayer l m) eqn:El; [| exact E].
  unfold hasLayer in *. cbn [on_map].
  destruct (memb (l_id l') (filter _ (on_map m) ++ [l_id l])) eqn:E2;
    [| reflexivity].
  apply memb_In, in_app_or in E2. destruct E2 as [E2 | [E2 | []]].
  - apply filter_In in E2. destruct E2 as [E2 _]. apply memb_In in E2.
    congruence.
  - rewrite <- E2 in E. congruence.
Qed.

Lemma hasLayer_if_addTo l l' m :
  l_id l <> l_id l' ->
  hasLayer l' (if hasLayer l m then m else addTo l m) = hasLayer l' m.
Proof.
  intros H. destruct (hasLayer l m); [reflexivity |].
  now apply hasLayer_addTo_other.
Qed.

Lemma hasLayer_if_remove l l' m :
  l_id l <> l_id l' ->
  hasLayer l' (if hasLayer l m then map_removeLayer l m else m)
  = hasLayer l' m.
Proof.
  intros H. destruct (hasLayer l m); [| reflexivity].
  now apply hasLayer_remove_ne.
Qed.

Lemma registry_wf_same s s' :
  overlays s' = overlays s -> next_layer s' = next_layer s ->
  registry_wf s -> registry_wf s'.
Proof. unfold registry_wf. intros -> ->. auto. Qed.

Lemma registry_wf_set id r n s s' :
  overlays s' = set id r (overlays s) ->
  next_layer s' = next_layer s + n ->
  (forall l, In l (members r) -> next_layer s <= l_id l < next_layer s + n) ->
  registry_wf s -> registry_wf s'.
Proof.
  intros Ho Hn Hr [H1 H2]. unfold registry_wf. rewrite Ho, Hn. split.
  - intros id0 r0 l Hg Hl. destruct (jstr_eq_dec id0 id) as [-> | Hne].
    + rewrite get_set_same in Hg. injection Hg as <-.
      specialize (Hr l Hl). lia.
    + rewrite get_set_other in Hg by exact Hne.
      specialize (H1 _ _ _ Hg Hl). lia.
  - intros a b ra rb la lb Hab Ha Hb Hla Hlb.
    destruct (jstr_eq_dec a id) as [-> | Ha'];
      destruct (jstr_eq_dec b id) as [-> | Hb']; [contradiction | | |].
    + rewrite get_set_same in Ha. injection Ha as <-.
      rewrite get_set_other in Hb by exact Hb'.
      specialize (Hr la Hla). specialize (H1 _ _ _ Hb Hlb). lia.
    + rewrite get_set_same in Hb. injection Hb as <-.
      rewrite get_set_other in Ha by exact Ha'.
      specialize (Hr lb Hlb). specialize (H1 _ _ _ Ha Hla). lia.
    + rewrite get_set_other in Ha by exact Ha'.
      rewrite get_set_other in Hb by exact Hb'.
      exact (H2 _ _ _ _ _ _ Hab Ha Hb Hla Hlb).
Qed.

Lemma overlays_removeLayer id s : overlays (removeLayer id s) = overlays s.
Proof.
  unfold removeLayer. now destruct (get id (overlays s)) as [[l | a b] |].
Qed.

Lemma overlays_setLayerOpacity id v s :
  overlays (setLayerOpacity id v s) = overlays s.
Proof.
  unfold setLayerOpacity.
  destruct (get id (overlays s)) as [[l | a b] |]; try reflexivity.
  - now destruct (has_setOpacity l).
  - destruct (has_setOpacity a); [reflexivity |].
    now destruct (has_setOpacity b).
Qed.

Lemma next_layer_enableLayer id s :
  next_layer (enableLayer id s) = next_layer s.
Proof.
  unfold enableLayer. now destruct (get id (overlays s)) as [[l | a b] |].
Qed.

Lemma next_layer_removeLayer id s :
  next_layer (removeLayer id s) = next_layer s.
Proof.
  unfold removeLayer. now destruct (get id (overlays s)) as [[l | a b] |].
Qed.

Lemma next_layer_setLayerOpacity id v s :
  next_layer (setLayerOpacity id v s) = next_layer s.
Proof.
  unfold setLayerOpacity.
  destruct (get id (overlays s)) as [[l | a b] |]; try reflexivity.
  - now destruct (has_setOpacity l).
  - destruct (has_setOpacity a); [reflexivity |].
    now destruct (has_setOpacity b).
Qed.

Lemma registry_reachable_wf s : registry_reachable s -> registry_wf s.
Proof.
  induction 1 as [| ok entry s _ IH | s _ IH | id s _ IH | id s _ IH
                  | id v s _ IH].
  - assert (E : overlays osm_registry
                = [(lit "OSM", Single {| l_id := 0; l_class := TileLayer |})])
      by reflexivity.
    unfold registry_wf. rewrite E. cbn [get]. split.
    + intros id r l Hg Hl.
      destruct (jstr_eq_dec (lit "OSM") id); [| discriminate].
      injection Hg as <-. destruct Hl as [<- | []]. simpl. lia.
    + intros a b ra rb la lb Hab Ha Hb.
      destruct (jstr_eq_dec (lit "OSM") a); [| discriminate].
      destruct (jstr_eq_dec (lit "OSM") b); [| discriminate]. congruence.
  - destruct (addLayerForEntry_cases ok entry s) as [r [n [z [E [Hr _]]]]].
    rewrite E. now apply (registry_wf_set (ui_label entry) r n s).
  - apply (registry_wf_set (lit "Street Overlay")
             (Single {| l_id := next_layer s; l_class := TileLayer |}) 1 s);
      [reflexivity | simpl; lia | | exact IH].
    intros l [<- | []]. simpl. lia.
  - apply (registry_wf_same s);
      [apply overlays_enableLayer | apply next_layer_enableLayer | exact IH].
  - apply (registry_wf_same s);
      [apply overlays_removeLayer | apply next_layer_removeLayer | exact IH].
  - apply (registry_wf_same s);
      [apply overlays_setLayerOpacity | apply next_layer_setLayerOpacity
       | exact IH].
Qed.

End Registry_facts.

(** X17.  [addLayerForEntry] always registers something under the label of
    the row, whatever the service type and whether or not the Esri library
    fails: the row becomes the metadata of the label, the layer objects
    registered are new and distinct, a failure registers an empty layer
    group, the other labels keep what they had, and nothing is put on the
    map. *)
Theorem addLayerForEntry_registers
    (esri_ok : bool) (entry : overlay_entry) (s : layers_st) :
  let id := ui_label entry in
  let s' := addLayerForEntry esri_ok entry s in
  exists r,
    get id (overlays s') = Some r
    /\ get id (overlayMeta s') = Some entry
    /\ (forall l, In l (members r) ->
                  next_layer s <= l_id l < next_layer s')
    /\ NoDup (map l_id (members r))
    /\ (esri_ok = false ->
        r = Single {| l_id := next_layer s; l_class := LayerGroup |})
    /\ (forall id', id' <> id ->
                    get id' (overlays s') = get id' (overlays s)
                    /\ get id' (overlayMeta s') = get id' (overlayMeta s))
    /\ on_map (lmap s') = on_map (lmap s).
Proof.
  intros id s'.
  destruct (addLayerForEntry_cases esri_ok entry s)
    as [r [n [z [E [Hr [Hnd Hfail]]]]]].
  unfold s'. rewrite E. exists r. cbn [overlays overlayMeta next_layer register].
  split; [apply get_set_same |]. split; [apply get_set_same |].
  split; [exact Hr |]. split; [exact Hnd |]. split; [exact Hfail |].
  split; [| apply on_map_register].
  intros id' Hne. split; now apply get_set_other.
Qed.

(** X18.  Overlays do not interfere: on a running page, enabling or removing
    an overlay, or setting its opacity, changes neither whether a layer of
    another overlay is on the map nor its opacity. *)
Theorem overlays_do_not_interfere
    (s : layers_st) (id id' : jstr) (r' : runtime) (l' : layer) (v : number) :
  registry_reachable s -> id <> id' ->
  get id' (overlays s) = Some r' -> In l' (members r') ->
  hasLayer l' (lmap (enableLayer id s)) = hasLayer l' (lmap s)
  /\ hasLayer l' (lmap (removeLayer id s)) = hasLayer l' (lmap s)
  /\ opacity_of (l_id l') (layer_opacity (lmap (setLayerOpacity id v s)))
     = opacity_of (l_id l') (layer_opacity (lmap s)).
Proof.
  intros Hreach Hne Hg' Hl'.
  destruct (registry_reachable_wf s Hreach) as [_ Hsep].
  assert (Hd : forall r l, get id (overlays s) = Some r -> In l (members r) ->
                           l_id l <> l_id l')
    by (intros r l Hg Hl; exact (Hsep _ _ _ _ _ _ Hne Hg Hg' Hl Hl')).
  split; [| split].
  - unfold enableLayer.
    destruct (get id (overlays s)) as [[l | img lbl] |] eqn:Hg;
      [| | reflexivity]; cbn [lmap with_lmap].
    + assert (l_id l <> l_id l') by (apply (Hd _ _ eq_refl); now left).
      destruct (_ && has_bringToFront l);
        rewrite ?hasLayer_bringToFront_eq; now apply hasLayer_addTo_other.
    + assert (l_id img <> l_id l') by (apply (Hd _ _ eq_refl); now left).
      assert (l_id lbl <> l_id l')
        by (apply (Hd _ _ eq_refl); right; now left).
      rewrite hasLayer_setZIndex, hasLayer_if_addTo by assumption.
      now apply hasLayer_if_addTo.
  - unfold removeLayer.
    destruct (get id (overlays s)) as [[l | img lbl] |] eqn:Hg;
      [| | reflexivity]; cbn [lmap with_lmap].
    + apply hasLayer_remove_ne. apply (Hd _ _ eq_refl). now left.
    + assert (l_id img <> l_id l') by (apply (Hd _ _ eq_refl); now left).
      assert (l_id lbl <> l_id l')
        by (apply (Hd _ _ eq_refl); right; now left).
      rewrite hasLayer_if_remove by assumption.
      now apply hasLayer_if_remove.
  - unfold setLayerOpacity.
    destruct (get id (overlays s)) as [[l | img lbl] |] eqn:Hg;
      [| | reflexivity].
    + assert (l_id l <> l_id l') by (apply (Hd _ _ eq_refl); now left).
      destruct (has_setOpacity l); [| reflexivity].
      cbn [lmap with_lmap setOpacity layer_opacity].
      now apply opacity_of_set_other.
    + assert (l_id img <> l_id l') by (apply (Hd _ _ eq_refl); now left).
      assert (l_id lbl <> l_id l')
        by (apply (Hd _ _ eq_refl); right; now left).
      destruct (has_setOpacity img);
        [cbn [lmap with_lmap setOpacity layer_opacity];
         now apply opacity_of_set_other |].
      destruct (has_setOpacity lbl); [| reflexivity].
      cbn [lmap with_lmap setOpacity layer_opacity].
      now apply opacity_of_set_other.
Qed.

Lemma overlays_do_not_interfere_witness :
  let s := enableLayer (lit "Imagery Hybrid")
             (addLayerForEntry true hybrid_entry osm_registry) in
  let osm := {| l_id := 0; l_class := TileLayer |} in
  on_map (lmap s) = [0; 1; 2]
  /\ hasLayer osm (lmap (removeLayer (lit "Imagery Hybrid") s))
     = hasLayer osm (lmap s)
  /\ hasLayer osm (lmap s) = true.
Proof.
  cbv zeta. split; [reflexivity |]. split; [| reflexivity].
  refine (proj1 (proj2 (overlays_do_not_interfere
                          (enableLayer (lit "Imagery Hybrid")
                             (addLayerForEntry true hybrid_entry osm_registry))
                          (lit "Imagery Hybrid") (lit "OSM")
                          (Single {| l_id := 0; l_class := TileLayer |})
                          {| l_id := 0; l_class := TileLayer |} 1%Q
                          _ _ eq_refl _))).
  - apply reg_enable, reg_add, reg_start.
  - discriminate.
  - now left.
Defined.

Section Idempotent_facts.

Lemma filter_filter_same {A} (q : A -> bool) l :
  filter q (filter q l) = filter q l.
Proof.
  induction l as [| x l IH]; [reflexivity |].
  simpl. destruct (q x) eqn:E; [| exact IH]. simpl. now rewrite E, IH.
Qed.

Lemma addTo_again l m : addTo l (addTo l m) = addTo l m.
Proof. unfold addTo at 1. now rewrite hasLayer_addTo. Qed.

Lemma on_map_bringToFront l m :
  on_map (layer_bringToFront l m)
  = if hasLayer l m
    then filter (fun i => negb (Nat.eqb i (l_id l))) (on_map m) ++ [l_id l]
    else on_map m.
Proof. unfold layer_bringToFront. now destruct (hasLayer l m). Qed.

Lemma on_map_bringToFront_again l m :
  on_map (layer_bringToFront l (layer_bringToFront l m))
  = on_map (layer_bringToFront l m).
Proof.
  rewrite (on_map_bringToFront l (layer_bringToFront l m)).
  rewrite hasLayer_bringToFront_eq, on_map_bringToFront.
  destruct (hasLayer l m); [| reflexivity].
  rewrite filter_app, filter_filter_same. simpl.
  rewrite Nat.eqb_refl. simpl. now rewrite app_nil_r.
Qed.

Lemma hasLayer_bringToFront_self l m :
  hasLayer l (layer_bringToFront l m) = hasLayer l m.
Proof. apply hasLayer_bringToFront_eq. Qed.

End Idempotent_facts.

(** X19.  Enabling an overlay that is enabled, or removing one that is
    removed, changes nothing on the map: [enableLayer] and [removeLayer]
    applied twice leave the layers on the map as one application does. *)
Theorem enableLayer_removeLayer_idempotent (id : jstr) (s : layers_st) :
  on_map (lmap (enableLayer id (enableLayer id s)))
  = on_map (lmap (enableLayer id s))
  /\ on_map (lmap (removeLayer id (removeLayer id s)))
     = on_map (lmap (removeLayer id s)).
Proof.
  split.
  - unfold enableLayer at 1. rewrite overlays_enableLayer.
    unfold enableLayer.
    destruct (get id (overlays s)) as [[l | img lbl] |] eqn:Hg;
      [| | reflexivity]; cbn [lmap with_lmap overlayMeta].
    + destruct (_ && has_bringToFront l); cbn [lmap with_lmap].
      * assert (addTo l (layer_bringToFront l (addTo l (lmap s)))
                = layer_bringToFront l (addTo l (lmap s))) as ->
            by (unfold addTo at 1;
                now rewrite hasLayer_bringToFront_self, hasLayer_addTo).
        apply on_map_bringToFront_again.
      * now rewrite addTo_again.
    + set (m1 := if hasLayer img (lmap s) then lmap s else addTo img (lmap s)).
      set (m2 := if hasLayer lbl m1 then m1 else addTo lbl m1).
      assert (H1 : hasLayer img m1 = true)
        by (unfold m1; destruct (hasLayer img (lmap s)) eqn:E;
            [exact E | apply hasLayer_addTo]).
      assert (H2 : hasLayer lbl m2 = true)
        by (unfold m2; destruct (hasLayer lbl m1) eqn:E;
            [exact E | apply hasLayer_addTo]).
      assert (H3 : hasLayer img m2 = true)
        by (unfold m2; destruct (hasLayer lbl m1);
            [exact H1 | now apply hasLayer_addTo_mono]).
      fold m1. fold m2. rewrite hasLayer_setZIndex, H3.
      rewrite hasLayer_setZIndex, H2.
      unfold setZIndex. now destruct (l_class img).
  - unfold removeLayer at 1. rewrite overlays_removeLayer.
    unfold removeLayer.
    destruct (get id (overlays s)) as [[l | img lbl] |] eqn:Hg;
      [| | reflexivity]; cbn [lmap with_lmap].
    + unfold map_removeLayer. cbn [on_map]. apply filter_filter_same.
    + set (m1 := if hasLayer img (lmap s) then map_removeLayer img (lmap s)
                 else lmap s).
      set (m2 := if hasLayer lbl m1 then map_removeLayer lbl m1 else m1).
      assert (H1 : hasLayer img m1 = false)
        by (unfold m1; destruct (hasLayer img (lmap s)) eqn:E;
            [apply hasLayer_removed | exact E]).
      assert (H2 : hasLayer lbl m2 = false)
        by (unfold m2; destruct (hasLayer lbl m1) eqn:E;
            [apply hasLayer_removed | exact E]).
      assert (H3 : hasLayer img m2 = false)
        by (unfold m2; destruct (hasLayer lbl m1);
            [now apply hasLayer_remove_other | exact H1]).
      fold m1. fold m2. now rewrite H3, H2.
Qed.

(* ================================================================== *)
(** * Properties: the tab strip as it runs *)
(* ================================================================== *)

Section Active_facts.

Lemma active_ok_same s s' :
  pdfTabs s' = pdfTabs s -> openPdfs s' = openPdfs s ->
  activePdfKey s' = activePdfKey s -> active_ok s -> active_ok s'.
Proof. unfold active_ok. intros -> -> ->. auto. Qed.

Lemma active_ok_activatePdfTab k s :
  tabs_wf s -> active_ok s -> active_ok (activatePdfTab k s).
Proof.
  intros Hwf Hok. destruct (get k (openPdfs s)) as [e |] eqn:Hk.
  - destruct (activatePdfTab_marks k e s Hwf Hk) as [_ Hm].
    intros t Ht Ha. exists k, e.
    rewrite openPdfs_activatePdfTab.
    split; [rewrite (activatePdfTab_present k e s Hk); reflexivity |].
    split; [exact Hk |]. symmetry. now apply Hm.
  - unfold activatePdfTab. now rewrite Hk.
Qed.

(** A new entry under a new key, with a tab that is not marked. *)
Lemma active_ok_add k e tab n s :
  active_ok s -> get k (openPdfs s) = None -> tab_active tab = false ->
  active_ok (with_openPdfs (set k e (openPdfs s))
               (with_next_tab n (with_pdfTabs (pdfTabs s ++ [tab]) s))).
Proof.
  intros Hok Hk Htab t Ht Ha. proj_simpl. cbn [pdfTabs with_openPdfs
    with_next_tab with_pdfTabs] in Ht.
  apply in_app_or in Ht. destruct Ht as [Ht | [<- | []]]; [| congruence].
  destruct (Hok t Ht Ha) as [k0 [e0 [A [B C]]]].
  exists k0, e0. split; [exact A |]. split; [| exact C].
  rewrite get_set_other; [exact B | congruence].
Qed.

(** An entry and its tab taken away. *)
Lemma active_ok_remove k e s :
  active_ok s -> get k (openPdfs s) = Some e ->
  active_ok (with_openPdfs (delete k (openPdfs s))
               (with_pdfTabs (remove_tab (e_tab e) (pdfTabs s)) s)).
Proof.
  intros Hok Hk t Ht Ha. proj_simpl.
  cbn [pdfTabs with_openPdfs with_pdfTabs] in Ht.
  apply In_remove_tab in Ht. destruct Ht as [Ht Hne].
  destruct (Hok t Ht Ha) as [k0 [e0 [A [B C]]]].
  exists k0, e0. split; [exact A |]. split; [| exact C].
  rewrite get_delete_other; [exact B |].
  intros ->. rewrite Hk in B. injection B as <-. congruence.
Qed.

Lemma wf_no_entry_no_tab s : tabs_wf s -> openPdfs s = [] -> pdfTabs s = [].
Proof.
  intros [_ [_ [_ [Hiff _]]]] Ho. rewrite Ho in Hiff.
  destruct (pdfTabs s) as [| t ts]; [reflexivity |].
  exfalso. apply (proj1 (Hiff (tab_id t))). now left.
Qed.

Lemma tabs_wf_removed k e s :
  tabs_wf s -> get k (openPdfs s) = Some e ->
  tabs_wf (with_openPdfs (delete k (openPdfs s))
             (with_pdfTabs (remove_tab (e_tab e) (pdfTabs s)) s)).
Proof.
  intros Hwf Hk. apply tabs_wf_core_iff. proj_simpl.
  rewrite strip_sig_remove_tab.
  apply core_remove; [now apply tabs_wf_core_iff | exact Hk].
Qed.

Lemma keys_nil {V} (o : obj V) : keys o = [] -> o = [].
Proof. unfold keys. apply map_eq_nil. Qed.

Lemma active_ok_no_tabs s : pdfTabs s = [] -> active_ok s.
Proof. intros H t Ht. rewrite H in Ht. destruct Ht. Qed.

Lemma active_ok_closePdfTab k s :
  tabs_wf s -> active_ok s -> active_ok (closePdfTab k s).
Proof.
  intros Hwf Hok. unfold closePdfTab.
  destruct (get k (openPdfs s)) as [e |] eqn:Hk; [| exact Hok].
  pose proof (tabs_wf_removed k e s Hwf Hk) as H1.
  pose proof (active_ok_remove k e s Hok Hk) as H2.
  set (s1 := with_openPdfs (delete k (openPdfs s))
               (with_pdfTabs (remove_tab (e_tab e) (pdfTabs s)) s)) in *.
  apply (active_ok_same
           (if match activePdfKey s1 with
               | Some k0 => str_eqb k0 k
               | None => false
               end
            then match keys (openPdfs s1) with
                 | [] => with_viewer [] (with_active None s1)
                 | k0 :: _ => activatePdfTab k0 s1
                 end
            else match keys (openPdfs s1) with
                 | [] => with_viewer [] (with_active None s1)
                 | _ :: _ => s1
                 end)); try reflexivity.
  assert (Hnone : keys (openPdfs s1) = [] ->
                  active_ok (with_viewer [] (with_active None s1))).
  { intros E. apply active_ok_no_tabs. proj_simpl.
    apply (wf_no_entry_no_tab s1 H1). now apply keys_nil. }
  destruct (match activePdfKey s1 with Some _ => _ | None => _ end);
    destruct (keys (openPdfs s1)) as [| k0 r] eqn:E; auto.
  now apply active_ok_activatePdfTab.
Qed.

Lemma active_ok_restored_close t s :
  tabs_wf s -> active_ok s -> In t (pdfTabs s) ->
  active_ok (restored_close (tab_id t) (close_key t) s).
Proof.
  intros Hwf Hok Hin.
  assert (exists e, get (close_key t) (openPdfs s) = Some e
                    /\ e_tab e = tab_id t) as [e [Hk He]].
  { destruct Hwf as [_ [_ [_ [_ [_ Hcl]]]]]. rewrite Forall_forall in Hcl.
    now apply Hcl. }
  pose proof (tabs_wf_removed _ e s Hwf Hk) as H1.
  pose proof (active_ok_remove _ e s Hok Hk) as H2.
  rewrite He in H1, H2.
  unfold restored_close.
  set (s1 := with_openPdfs (delete (close_key t) (openPdfs s))
               (with_pdfTabs (remove_tab (tab_id t) (pdfTabs s)) s)) in *.
  assert (H3 : active_ok (persistStateToSession s1)) by exact H2.
  assert (H4 : tabs_wf (persistStateToSession s1)) by exact H1.
  destruct (_ && _); [| exact H3].
  match goal with
  | |- context [match keys ?x with _ => _ end] =>
      destruct (keys x) as [| next r]
  end; [exact H3 |].
  destruct (truthy next); [| exact H3].
  now apply active_ok_activatePdfTab.
Qed.

Lemma active_ok_restore_tab s t :
  active_ok s -> active_ok (restore_tab s t).
Proof.
  intros Hok. unfold restore_tab.
  destruct (get (p_filename t) (openPdfs s)) eqn:Hk; [exact Hok |].
  refine (active_ok_add (p_filename t) _ _ _ s Hok Hk _). reflexivity.
Qed.

Lemma active_ok_restore_tabs ts : forall s,
  active_ok s -> active_ok (fold_left restore_tab ts s).
Proof.
  induction ts as [| t ts IH]; intros s H; [exact H |].
  simpl. apply IH. now apply active_ok_restore_tab.
Qed.

Lemma reachable_active_ok s : reachable s -> active_ok s.
Proof.
  induction 1 as [s Ho Ht Ha | s i Hr IH | s f u a Hr IH | s t Hr IH Hin
                  | s t Hr IH Hin | s Hr IH].
  - now apply active_ok_no_tabs.
  - unfold toggle_box. destruct (nth_error (boxes s) i); exact IH.
  - pose proof (reachable_tabs_wf s Hr) as Hwf.
    unfold openPdfInTab.
    match goal with
    | |- active_ok (persistStateToSession (activatePdfTab ?k ?s2)) =>
        assert (Hok2 : active_ok s2)
          by (refine (active_ok_add k _ _ _ s IH
                        (unique_tab_key_fresh (openPdfs s) f) _);
              reflexivity);
        assert (Hwf2 : tabs_wf s2)
    end.
    { apply tabs_wf_core_iff. proj_simpl.
      unfold strip_sig. rewrite map_app.
      cbn [map tab_id close_key tab_onclose].
      apply core_add;
        [now apply tabs_wf_core_iff | apply unique_tab_key_fresh
         | reflexivity]. }
    exact (active_ok_activatePdfTab _ _ Hwf2 Hok2).
  - pose proof (reachable_tabs_wf s Hr) as Hwf. unfold click_tab.
    destruct (tab_onclose t); now apply active_ok_activatePdfTab.
  - pose proof (reachable_tabs_wf s Hr) as Hwf. unfold click_close.
    pose proof (active_ok_restored_close t s Hwf IH Hin) as H.
    unfold close_key in H.
    destruct (tab_onclose t); [now apply active_ok_closePdfTab | exact H].
  - pose proof (reachable_tabs_wf s Hr) as Hwf.
    unfold restoreStateFromSession.
    destruct (session s) as [state |]; [| exact IH].
    destruct (tabs_restore_layers (enabledLayers state) s)
      as [A [B [C [D _]]]].
    assert (H1 : active_ok (fold_left restore_layer (enabledLayers state) s))
      by (now apply (active_ok_same s)).
    assert (W1 : tabs_wf (fold_left restore_layer (enabledLayers state) s))
      by (now apply (tabs_wf_same s)).
    destruct (openTabs state) as [| first rest] eqn:E; [exact H1 |].
    apply active_ok_activatePdfTab.
    + now apply tabs_wf_restore_tabs.
    + now apply active_ok_restore_tabs.
Qed.

End Active_facts.

(** X20.  On a running page the tab strip and [openPdfs] go together: there
    are as many tabs as entries, every tab is the tab of the entry its
    handlers close over, every entry has its tab in the strip, and no two
    entries share a tab. *)
Theorem tab_strip_matches_openPdfs (s : app) :
  reachable s ->
  List.length (pdfTabs s) = List.length (openPdfs s)
  /\ NoDup (keys (openPdfs s))
  /\ (forall t, In t (pdfTabs s) ->
                exists e, get (close_key t) (openPdfs s) = Some e
                          /\ e_tab e = tab_id t)
  /\ (forall k e, get k (openPdfs s) = Some e ->
                  exists t, In t (pdfTabs s) /\ tab_id t = e_tab e)
  /\ (forall k k' e e', get k (openPdfs s) = Some e ->
                        get k' (openPdfs s) = Some e' ->
                        e_tab e = e_tab e' -> k = k').
Proof.
  intros Hr. destruct (reachable_tabs_wf s Hr)
    as [[Hnd _] [Hids [Hets [Hiff [_ Hcl]]]]].
  split; [| split; [exact Hnd | split; [| split]]].
  - assert (P : Permutation (map tab_id (pdfTabs s))
                            (map e_tab (values (openPdfs s))))
      by (apply NoDup_Permutation; assumption).
    apply Permutation_length in P. unfold values in P.
    now rewrite !length_map in P.
  - rewrite Forall_forall in Hcl. exact Hcl.
  - intros k e Hk.
    assert (In (e_tab e) (map tab_id (pdfTabs s))) as Hin
        by (apply Hiff, in_map; eapply get_In_values; exact Hk).
    apply in_map_iff in Hin. destruct Hin as [t [Ht Hin]]. now exists t.
  - intros k k' e e' Hk Hk' He.
    apply get_In in Hk. apply get_In in Hk'.
    assert (E : (k, e) = (k', e')).
    { apply (NoDup_map_In_eq (fun x => e_tab (snd x)) (openPdfs s));
        [| exact Hk | exact Hk' | exact He].
      unfold values in Hets. now rewrite map_map in Hets. }
    now injection E.
Qed.

Lemma page2_reachable : reachable page2.
Proof. apply reach_open, reach_open. now apply reach_load. Qed.

Lemma tab_strip_matches_openPdfs_witness :
  List.length (pdfTabs page2) = 2
  /\ keys (openPdfs page2) = [lit "report.pdf"; lit "report.pdf (2)"]
  /\ List.length (pdfTabs page2) = List.length (openPdfs page2).
Proof.
  split; [reflexivity |]. split; [reflexivity |].
  exact (proj1 (tab_strip_matches_openPdfs page2 page2_reachable)).
Defined.

(** X21.  On a running page at most one tab is marked active, and a tab that
    is marked is the tab of the entry [activePdfKey] names. *)
Theorem at_most_one_active_tab (s : app) :
  reachable s ->
  (forall t, In t (pdfTabs s) -> tab_active t = true ->
             exists k e, activePdfKey s = Some k
                         /\ get k (openPdfs s) = Some e
                         /\ e_tab e = tab_id t)
  /\ (forall t t', In t (pdfTabs s) -> In t' (pdfTabs s) ->
                   tab_active t = true -> tab_active t' = true -> t = t').
Proof.
  intros Hr. pose proof (reachable_active_ok s Hr) as Hok.
  split; [exact Hok |].
  intros t t' Ht Ht' Ha Ha'.
  destruct (Hok t Ht Ha) as [k [e [A [B C]]]].
  destruct (Hok t' Ht' Ha') as [k' [e' [A' [B' C']]]].
  destruct (reachable_tabs_wf s Hr) as [_ [Hids _]].
  apply (NoDup_map_In_eq tab_id (pdfTabs s)); [exact Hids | exact Ht | exact Ht' |].
  rewrite A in A'. injection A' as <-. rewrite B in B'. injection B' as <-.
  congruence.
Qed.

Lemma at_most_one_active_tab_witness :
  map tab_active (pdfTabs page2) = [false; true]
  /\ forall t t', In t (pdfTabs page2) -> In t' (pdfTabs page2) ->
                  tab_active t = true -> tab_active t' = true -> t = t'.
Proof.
  split; [reflexivity |].
  exact (proj2 (at_most_one_active_tab page2 page2_reachable)).
Defined.

Section Sync_facts.

Lemma in_sync_persist s : in_sync (persistStateToSession s).
Proof. reflexivity. Qed.

Lemma in_sync_same s s' :
  session s' = session s -> boxes s' = boxes s -> openPdfs s' = openPdfs s ->
  in_sync s -> in_sync s'.
Proof. unfold in_sync. intros -> -> ->. auto. Qed.

Lemma session_activatePdfTab k s :
  session (activatePdfTab k s) = session s.
Proof. unfold activatePdfTab. now destruct (get k (openPdfs s)). Qed.

Lemma in_sync_activatePdfTab k s : in_sync s -> in_sync (activatePdfTab k s).
Proof.
  apply in_sync_same;
    [apply session_activatePdfTab | apply boxes_activatePdfTab
     | apply openPdfs_activatePdfTab].
Qed.

End Sync_facts.

(** X22.  Every change the user makes to the layers or to the tabs is in the
    session store at once: after a click on a check box, after a document is
    opened in a tab and after a click on the close button of a tab, the store
    holds the identifiers of the boxes then checked and the tabs then open. *)
Theorem session_follows_changes (s : app) :
  tabs_wf s ->
  (forall i, i < List.length (boxes s) -> in_sync (toggle_box i s))
  /\ (forall filename url aimTitle,
         in_sync (openPdfInTab filename url aimTitle s))
  /\ (forall t, In t (pdfTabs s) -> in_sync (click_close t s)).
Proof.
  intros Hwf. split; [| split].
  - intros i Hi. unfold toggle_box.
    destruct (nth_error (boxes s) i) as [b |] eqn:E;
      [apply in_sync_persist |].
    apply nth_error_None in E. lia.
  - intros. apply in_sync_persist.
  - intros t Hin. unfold click_close.
    assert (exists e, get (close_key t) (openPdfs s) = Some e
                      /\ e_tab e = tab_id t) as [e [Hk He]].
    { destruct Hwf as [_ [_ [_ [_ [_ Hcl]]]]]. rewrite Forall_forall in Hcl.
      now apply Hcl. }
    unfold close_key in Hk.
    destruct (tab_onclose t) as [k | f].
    + unfold closePdfTab. rewrite Hk. apply in_sync_persist.
    + unfold restored_close.
      match goal with
      | |- in_sync (if ?c then _ else ?x) =>
          assert (H0 : in_sync x) by apply in_sync_persist; destruct c
      end; [| exact H0].
      match goal with
      | |- context [match keys ?x with _ => _ end] =>
          destruct (keys x) as [| next r]
      end; [exact H0 |].
      destruct (truthy next); [| exact H0].
      now apply in_sync_activatePdfTab.
Qed.

Lemma session_follows_changes_witness :
  session (toggle_box 1 page1)
  = Some {| enabledLayers := [lit "Street Overlay"; lit "OSM"];
            openTabs := persisted_tabs (openPdfs page1) |}.
Proof.
  exact (proj1 (session_follows_changes page1 page1_wf) 1 ltac:(simpl; lia)).
Defined.

(** X23.  Closing a tab that is not the active one leaves the active tab and
    the viewer alone: the active key, its entry and the address of the viewer
    are as before, the closed entry and its tab are gone, and the other tabs
    keep their marks.  Whatever the active key was, closing the last tab
    clears the key and blanks the viewer. *)
Theorem closePdfTab_other (s : app) (k a : jstr) (e ea : pdf_entry) :
  get k (openPdfs s) = Some e ->
  activePdfKey s = Some a -> a <> k ->
  let s' := closePdfTab k s in
  openPdfs s' = delete k (openPdfs s)
  /\ pdfTabs s' = remove_tab (e_tab e) (pdfTabs s)
  /\ (get a (openPdfs s) = Some ea ->
      activePdfKey s' = Some a /\ get a (openPdfs s') = Some ea
      /\ viewer_src s' = viewer_src s)
  /\ (keys (openPdfs s) = [k] ->
      activePdfKey s' = None /\ viewer_src s' = [] /\ openPdfs s' = []).
Proof.
  intros Hk Ha Hne s'. unfold s', closePdfTab. rewrite Hk. proj_simpl.
  rewrite Ha.
  assert (str_eqb a k = false) as ->
      by (unfold str_eqb; now destruct (jstr_eq_dec a k)).
  destruct (keys (delete k (openPdfs s))) as [| k0 r] eqn:Hkeys; proj_simpl.
  - split; [reflexivity |]. split; [reflexivity |]. split.
    + intros Hea. exfalso.
      assert (get a (delete k (openPdfs s)) = Some ea)
        by (rewrite get_delete_other; [exact Hea | exact Hne]).
      apply keys_nil in Hkeys. rewrite Hkeys in H. discriminate.
    + intros _. split; [reflexivity |]. split; [reflexivity |].
      now apply keys_nil.
  - split; [reflexivity |]. split; [reflexivity |]. split.
    + intros Hea. split; [exact Ha |]. split; [| reflexivity].
      rewrite get_delete_other; [exact Hea | exact Hne].
    + intros Hone. exfalso.
      assert (E : openPdfs s = [(k, e)]).
      { destruct (openPdfs s) as [| [k1 v1] [| x o]]; try discriminate.
        simpl in Hone. injection Hone as ->. simpl in Hk.
        destruct (jstr_eq_dec k k); [| contradiction]. now injection Hk as ->. }
      rewrite E in Hkeys. simpl in Hkeys.
      destruct (jstr_eq_dec k k); [discriminate | contradiction].
Qed.

Lemma closePdfTab_other_witness :
  activePdfKey page2 = Some (lit "report.pdf (2)")
  /\ activePdfKey (closePdfTab (lit "report.pdf") page2)
     = Some (lit "report.pdf (2)")
  /\ viewer_src (closePdfTab (lit "report.pdf") page2) = viewer_src page2
  /\ keys (openPdfs (closePdfTab (lit "report.pdf") page2))
     = [lit "report.pdf (2)"].
Proof.
  split; [reflexivity |].
  destruct (closePdfTab_other page2 (lit "report.pdf") (lit "report.pdf (2)")
              {| e_tab := 0; e_url := report_url; e_label := lit "Report";
                 e_filename := Some (lit "report.pdf");
                 e_aimTitle := lit "Report" |}
              {| e_tab := 1; e_url := report_url;
                 e_label := lit "Report (2)";
                 e_filename := Some (lit "report.pdf");
                 e_aimTitle := lit "Report" |}
              eq_refl eq_refl ltac:(discriminate))
    as [_ [_ [H _]]].
  destruct (H eq_refl) as [A [_ C]].
  split; [exact A |]. split; [exact C | reflexivity].
Defined.

Section Restore_again_facts.



















End Restore_again_facts.



(* ================================================================== *)
(** * Properties: the imagery feed *)
(* ================================================================== *)

(** ** The order of the groups *)





(** Not below: the order a sorted list of groups is in. *)
Lemma insert_sorted_perm (k : jstr) (l : list jstr) :
  Permutation (insert_sorted k l) (k :: l).
Proof.
  induction l as [| x r IH]; cbn; [apply Permutation_refl |].
  destruct (str_ltb x k); [| apply Permutation_refl].
  apply perm_trans with (x :: k :: r).
  - now apply perm_skip.
  - apply perm_swap.
Qed.

Lemma sort_keys_perm (l : list jstr) : Permutation (sort_keys l) l.
Proof.
  induction l as [| k l IH]; cbn; [apply perm_nil |].
  apply perm_trans with (k :: sort_keys l).
  - apply insert_sorted_perm.
  - now apply perm_skip.
Qed.



(** ** Filing the rows *)

Lemma get_group_row_same ok G l row :
  get (group_of row) (fst (group_row ok (G, l) row))
  = Some (match get (group_of row) G with
          | Some rows => rows
          | None => []
          end ++ [row]).
Proof.
  unfold group_row. cbv zeta. cbn [fst].
  destruct (get (group_of row) G) as [rows |] eqn:E.
  - rewrite E. apply get_set_same.
  - rewrite get_set_same. apply get_set_same.
Qed.

Lemma get_group_row_other ok G l row g :
  g <> group_of row -> get g (fst (group_row ok (G, l) row)) = get g G.
Proof.
  intros Hne. unfold group_row. cbv zeta. cbn [fst].
  destruct (get (group_of row) G) as [rows |] eqn:E.
  - rewrite E. now apply get_set_other.
  - rewrite get_set_same. rewrite !get_set_other by exact Hne. reflexivity.
Qed.

Lemma ordered_group_row ok G l row :
  ordered G -> ordered (fst (group_row ok (G, l) row)).
Proof.
  intros H. unfold group_row. cbv zeta. cbn [fst].
  destruct (get (group_of row) G) as [rows |] eqn:E.
  - rewrite E. now apply ordered_set.
  - rewrite get_set_same. now repeat apply ordered_set.
Qed.

Lemma snd_group_row ok st row :
  snd (group_row ok st row) = addLayerForEntry (ok row) row (snd st).
Proof. destruct st as [G l]. reflexivity. Qed.

(** What a group holds once the rows are filed: the rows of the feed with
    that group, in the order of the feed. *)
Lemma get_grouped ok rows : forall G l g,
  get g (fst (fold_left (group_row ok) rows (G, l)))
  = match get g G, filter (fun r => str_eqb (group_of r) g) rows with
    | None, [] => None
    | None, x => Some x
    | Some old, x => Some (old ++ x)
    end.
Proof.
  induction rows as [| r rows IH]; intros G l g.
  - simpl. destruct (get g G); [now rewrite app_nil_r | reflexivity].
  - cbn [fold_left filter].
    destruct (group_row ok (G, l) r) as [G' l'] eqn:E.
    rewrite IH.
    assert (EG : G' = fst (group_row ok (G, l) r)) by now rewrite E.
    destruct (jstr_eq_dec (group_of r) g) as [<- | Hne].
    + rewrite EG, get_group_row_same, str_eqb_refl.
      destruct (get (group_of r) G) as [old |];
        [now rewrite <- app_assoc | reflexivity].
    + rewrite EG, get_group_row_other by congruence.
      assert (str_eqb (group_of r) g = false) as ->
          by (unfold str_eqb; now destruct (jstr_eq_dec (group_of r) g)).
      reflexivity.
Qed.

Lemma ordered_grouped ok rows : forall G l,
  ordered G -> ordered (fst (fold_left (group_row ok) rows (G, l))).
Proof.
  induction rows as [| r rows IH]; intros G l H; [exact H |].
  cbn [fold_left].
  destruct (group_row ok (G, l) r) as [G' l'] eqn:E.
  apply IH.
  assert (EG : G' = fst (group_row ok (G, l) r)) by now rewrite E.
  rewrite EG. now apply ordered_group_row.
Qed.

(** The registry once the rows are filed: every row registered in turn. *)
Lemma registered_rows ok rows : forall G l,
  snd (fold_left (group_row ok) rows (G, l))
  = fold_left (fun l row => addLayerForEntry (ok row) row l) rows l.
Proof.
  induction rows as [| r rows IH]; intros G l; [reflexivity |].
  cbn [fold_left].
  destruct (group_row ok (G, l) r) as [G' l'] eqn:E.
  rewrite IH. f_equal.
  change l' with (snd (G', l')). rewrite <- E. apply snd_group_row.
Qed.

(** ** The rows in the order of the list *)

Lemma filter_flat_map {A B} (p : B -> bool) (f : A -> list B) l :
  filter p (flat_map f l) = flat_map (fun x => filter p (f x)) l.
Proof.
  induction l as [| x l IH]; [reflexivity |].
  cbn. now rewrite filter_app, IH.
Qed.

Lemma flat_map_nil {A B} (f : A -> list B) l :
  (forall x, In x l -> f x = []) -> flat_map f l = [].
Proof.
  induction l as [| x l IH]; intros H; [reflexivity |].
  cbn. rewrite (H x) by now left. apply IH.
  intros y Hy. apply H. now right.
Qed.

Lemma flat_map_single {A B} (f : A -> list B) l a :
  NoDup l -> In a l -> (forall x, In x l -> x <> a -> f x = []) ->
  flat_map f l = f a.
Proof.
  induction l as [| x l IH]; intros Hnd Hin H; [destruct Hin |].
  inversion Hnd as [| ? ? Hx Hnd']. subst.
  cbn. destruct Hin as [-> | Hin].
  - rewrite flat_map_nil; [apply app_nil_r |].
    intros y Hy. apply H; [now right |].
    intros ->. contradiction.
  - rewrite (H x); [| now left | intros ->; contradiction].
    cbn. apply IH; [exact Hnd' | exact Hin |].
    intros y Hy. apply H. now right.
Qed.

Lemma filter_all {A} (p : A -> bool) l :
  (forall x, In x l -> p x = true) -> filter p l = l.
Proof.
  induction l as [| x l IH]; intros H; [reflexivity |].
  cbn. rewrite (H x) by now left. f_equal. apply IH.
  intros y Hy. apply H. now right.
Qed.

Lemma filter_none {A} (p : A -> bool) l :
  (forall x, In x l -> p x = false) -> filter p l = [].
Proof.
  induction l as [| x l IH]; intros H; [reflexivity |].
  cbn. rewrite (H x) by now left. apply IH.
  intros y Hy. apply H. now right.
Qed.

Lemma str_eqb_neq a b : a <> b -> str_eqb a b = false.
Proof. intros H. unfold str_eqb. now destruct (jstr_eq_dec a b). Qed.

(** The rows a group of the list shows are the rows of the feed with that
    group, in the order of the feed. *)
Lemma listed_group ok rows l g :
  filter (fun e => str_eqb (group_of e) g)
         (listed (fst (fold_left (group_row ok) rows ([], l))))
  = filter (fun e => str_eqb (group_of e) g) rows.
Proof.
  set (G := fst (fold_left (group_row ok) rows ([], l))).
  assert (HG : forall k,
             get k G = match filter (fun r => str_eqb (group_of r) k) rows with
                       | [] => None
                       | x => Some x
                       end).
  { intros k. unfold G. rewrite get_grouped. reflexivity. }
  assert (Hord : ordered G).
  { unfold G. apply ordered_grouped. split; constructor. }
  unfold listed. rewrite filter_flat_map.
  set (f := fun x => filter (fun e => str_eqb (group_of e) g)
                       match get x G with Some r => r | None => [] end).
  assert (Hother : forall k, k <> g -> f k = []).
  { intros k Hk. unfold f. rewrite HG.
    destruct (filter (fun r => str_eqb (group_of r) k) rows) as [| a x] eqn:E;
      [reflexivity |].
    apply filter_none. intros e He. rewrite <- E in He.
    apply filter_In in He. destruct He as [_ He].
    apply str_eqb_eq in He. rewrite He. now apply str_eqb_neq. }
  assert (Hsame : f g = filter (fun e => str_eqb (group_of e) g) rows).
  { unfold f. rewrite HG.
    destruct (filter (fun r => str_eqb (group_of r) g) rows) as [| a x] eqn:E;
      [reflexivity |].
    rewrite <- E. apply filter_all. intros e He.
    apply filter_In in He. now destruct He. }
  destruct (in_dec jstr_eq_dec g (keys G)) as [Hin | Hnin].
  - rewrite <- Hsame. apply flat_map_single.
    + apply (Permutation_NoDup (Permutation_sym (sort_keys_perm (keys G)))).
      apply Hord.
    + apply (Permutation_in _ (Permutation_sym (sort_keys_perm (keys G)))).
      exact Hin.
    + intros k _ Hk. now apply Hother.
  - rewrite flat_map_nil.
    + apply get_None_keys in Hnin. rewrite HG in Hnin.
      destruct (filter (fun r => str_eqb (group_of r) g) rows);
        [reflexivity | discriminate].
    + intros k Hk. apply Hother. intros ->. apply Hnin.
      apply (Permutation_in _ (sort_keys_perm (keys G))). exact Hk.
Qed.



(** ** The steps of the load *)

Lemma In_listed ok rows l e :
  In e (listed (fst (fold_left (group_row ok) rows ([], l)))) <-> In e rows.
Proof.
  pose proof (listed_group ok rows l (group_of e)) as H.
  split; intros Hin.
  - assert (In e (filter (fun x => str_eqb (group_of x) (group_of e)) rows))
      as H'.
    { rewrite <- H. apply filter_In. split; [exact Hin | apply str_eqb_refl]. }
    now apply filter_In in H'.
  - assert (In e (filter (fun x => str_eqb (group_of x) (group_of e))
                         (listed (fst (fold_left (group_row ok) rows ([], l))))))
      as H'.
    { rewrite H. apply filter_In. split; [exact Hin | apply str_eqb_refl]. }
    now apply filter_In in H'.
Qed.

Lemma get_register_keeps id entry r n z s k :
  get k (overlays s) <> None ->
  get k (overlays (register id entry r n z s)) <> None.
Proof.
  intros H. cbn [register overlays].
  destruct (jstr_eq_dec k id) as [-> | Hne].
  - now rewrite get_set_same.
  - now rewrite get_set_other.
Qed.

Lemma get_addLayerForEntry_keeps ok entry s k :
  get k (overlays s) <> None ->
  get k (overlays (addLayerForEntry ok entry s)) <> None.
Proof.
  intros H.
  destruct (addLayerForEntry_cases ok entry s) as [r [n [z [-> _]]]].
  now apply get_register_keeps.
Qed.

Lemma get_addLayerForEntry_same ok entry s :
  get (ui_label entry) (overlays (addLayerForEntry ok entry s)) <> None.
Proof.
  destruct (addLayerForEntry_cases ok entry s) as [r [n [z [-> _]]]].
  cbn [register overlays]. now rewrite get_set_same.
Qed.

Lemma registered_keeps ok rows : forall l k,
  get k (overlays l) <> None ->
  get k (overlays (fold_left (fun l row => addLayerForEntry (ok row) row l)
                             rows l)) <> None.
Proof.
  induction rows as [| r rows IH]; intros l k H; [exact H |].
  cbn [fold_left]. apply IH. now apply get_addLayerForEntry_keeps.
Qed.

(** Every row of the feed has its label registered. *)
Lemma registered_all ok rows : forall l e,
  In e rows ->
  get (ui_label e)
      (overlays (fold_left (fun l row => addLayerForEntry (ok row) row l)
                           rows l)) <> None.
Proof.
  induction rows as [| r rows IH]; intros l e Hin; [destruct Hin |].
  cbn [fold_left]. destruct Hin as [-> | Hin].
  - apply registered_keeps. apply get_addLayerForEntry_same.
  - now apply IH.
Qed.

(** The boxes of the rows: when the labels are registered, the loop adds a
    box per row and sets a timer for those that start checked, and leaves
    the rest of the page alone. *)
Lemma add_entry_boxes ok es : forall s t,
  (forall e, In e es -> get (ui_label e) (overlays (layers s)) <> None) ->
  fold_left (add_entry_box ok) es (s, t)
  = (with_boxes (boxes s ++ map entry_box es) s,
     t ++ map ui_label (filter default_checked es)).
Proof.
  induction es as [| e es IH]; intros s t Hreg.
  - cbn. rewrite !app_nil_r. now destruct s.
  - cbn [fold_left add_entry_box].
    destruct (get (ui_label e) (overlays (layers s))) eqn:E.
    2: { exfalso. now apply (Hreg e (or_introl eq_refl)). }
    rewrite IH.
    2: { intros e' He'. cbn. apply Hreg. now right. }
    cbn [boxes with_boxes map filter entry_box box_checked].
    f_equal.
    + rewrite <- app_assoc. reflexivity.
    + destruct (default_checked e); cbn; [| reflexivity].
      now rewrite <- app_assoc.
Qed.

Lemma box_overlay_data_id b : box_overlay (box_kind_of b) = box_data_id b.
Proof. unfold box_data_id. now destruct (box_kind_of b). Qed.

Lemma layers_on_change b s :
  layers (on_change b s)
  = if box_checked b then enableLayer (box_data_id b) (layers s)
    else removeLayer (box_data_id b) (layers s).
Proof. unfold on_change. rewrite box_overlay_data_id. reflexivity. Qed.

Lemma layers_restore_tab s t : layers (restore_tab s t) = layers s.
Proof.
  unfold restore_tab. now destruct (get (p_filename t) (openPdfs s)).
Qed.

Lemma layers_restore_tabs ts : forall s,
  layers (fold_left restore_tab ts s) = layers s.
Proof.
  induction ts as [| t ts IH]; intros s; [reflexivity |].
  cbn [fold_left]. rewrite IH. apply layers_restore_tab.
Qed.

Lemma layers_activatePdfTab k s : layers (activatePdfTab k s) = layers s.
Proof. unfold activatePdfTab. now destruct (get k (openPdfs s)). Qed.

(** ** Layers that are shown stay shown *)

Lemma hasLayer_enableLayer_mono id l s :
  hasLayer l (lmap s) = true -> hasLayer l (lmap (enableLayer id s)) = true.
Proof.
  intros H. unfold enableLayer.
  destruct (get id (overlays s)) as [[x | img lbl] |]; [| | exact H].
  - cbn [lmap with_lmap].
    match goal with
    | |- hasLayer l (if ?c then _ else _) = true => destruct c
    end.
    + apply hasLayer_bringToFront. now apply hasLayer_addTo_mono.
    + now apply hasLayer_addTo_mono.
  - cbn [lmap with_lmap]. rewrite hasLayer_setZIndex.
    assert (H1 : hasLayer l (if hasLayer img (lmap s) then lmap s
                             else addTo img (lmap s)) = true).
    { destruct (hasLayer img (lmap s)); [exact H |].
      now apply hasLayer_addTo_mono. }
    match goal with
    | |- hasLayer l (if ?c then _ else _) = true => destruct c
    end; [exact H1 |].
    now apply hasLayer_addTo_mono.
Qed.

Lemma shown_enableLayer_mono id id' s :
  shown id s -> shown id (enableLayer id' s).
Proof.
  intros H r l Hr Hl. rewrite overlays_enableLayer in Hr.
  apply hasLayer_enableLayer_mono. now apply (H r l).
Qed.

(** [enableLayer] puts every layer object of the overlay on the map. *)
Lemma shown_enableLayer id s : shown id (enableLayer id s).
Proof.
  intros r l Hr Hl. rewrite overlays_enableLayer in Hr.
  unfold enableLayer. rewrite Hr.
  destruct r as [x | img lbl]; cbn [members] in Hl.
  - destruct Hl as [<- | []]. cbn [lmap with_lmap].
    match goal with
    | |- hasLayer x (if ?c then _ else _) = true => destruct c
    end.
    + apply hasLayer_bringToFront. apply hasLayer_addTo.
    + apply hasLayer_addTo.
  - cbn [lmap with_lmap]. rewrite hasLayer_setZIndex.
    assert (H1 : hasLayer img (if hasLayer img (lmap s) then lmap s
                               else addTo img (lmap s)) = true).
    { destruct (hasLayer img (lmap s)) eqn:E; [exact E |].
      apply hasLayer_addTo. }
    set (m1 := if hasLayer img (lmap s) then lmap s else addTo img (lmap s))
      in *.
    destruct Hl as [<- | [<- | []]].
    + destruct (hasLayer lbl m1); [exact H1 |].
      now apply hasLayer_addTo_mono.
    + destruct (hasLayer lbl m1) eqn:E; [exact E |].
      apply hasLayer_addTo.
Qed.

Lemma get_register_street_keeps s k :
  get k (overlays s) <> None -> get k (overlays (register_street s)) <> None.
Proof.
  intros H. cbn [register_street overlays].
  destruct (jstr_eq_dec k (lit "Street Overlay")) as [-> | Hne].
  - now rewrite get_set_same.
  - now rewrite get_set_other.
Qed.

(** The page when the imagery rule starts: the rows registered, the street
    overlay registered and enabled, and the boxes in place. *)
Lemma build_boxes_unfold ok rows s :
  let st := fold_left (group_row ok) rows ([], layers s) in
  let L := enableLayer (lit "Street Overlay") (register_street (snd st)) in
  let p :=
    with_boxes ([street_box true; osm_box false]
                ++ map entry_box (listed (fst st)))
               (with_layers L s) in
  build_boxes ok (fst st) rows (with_layers (snd st) s)
  = (fold_left imagery_rule rows p,
     map ui_label (filter default_checked (listed (fst st)))).
Proof.
  cbv zeta. unfold build_boxes.
  rewrite add_entry_boxes.
  - apply f_equal2; [| reflexivity].
    apply f_equal. destruct s. reflexivity.
  - intros e He. cbn [layers with_layers with_boxes].
    rewrite overlays_enableLayer. apply get_register_street_keeps.
    rewrite registered_rows. apply registered_all.
    now apply (In_listed ok rows (layers s)).
Qed.

Lemma load_imagery_unfold ok rows s :
  let st := fold_left (group_row ok) rows ([], layers s) in
  let L := enableLayer (lit "Street Overlay") (register_street (snd st)) in
  let p :=
    with_boxes ([street_box true; osm_box false]
                ++ map entry_box (listed (fst st)))
               (with_layers L s) in
  load_imagery ok true rows s
  = (restoreStateFromSession (fold_left imagery_rule rows p),
     map ui_label (filter default_checked (listed (fst st)))).
Proof.
  cbv zeta. unfold load_imagery.
  pose proof (build_boxes_unfold ok rows s) as H. cbv zeta in H.
  destruct (fold_left (group_row ok) rows ([], layers s)) as [G l].
  cbn [fst snd] in *. now rewrite H.
Qed.

Lemma boxes_imagery_rule s e :
  boxes (imagery_rule s e) = boxes s
  \/ exists i chk,
       nth_error (boxes s) i = Some chk /\ box_checked chk = false
       /\ imagery_rule s e
          = on_change (set_checked true chk)
                      (with_boxes (check_at i true (boxes s)) s).
Proof.
  unfold imagery_rule.
  destruct (imagery_row e); [| now left].
  destruct (find_chk (str_or (ui_label e) []) (boxes s)) as [i |];
    [| now left].
  destruct (nth_error (boxes s) i) as [chk |] eqn:E; [| now left].
  destruct (box_checked chk) eqn:Ec; [now left |].
  right. now exists i, chk.
Qed.

Lemma kinds_imagery_rule s e :
  map box_kind_of (boxes (imagery_rule s e)) = map box_kind_of (boxes s).
Proof.
  destruct (boxes_imagery_rule s e) as [-> | [i [chk [_ [_ ->]]]]];
    [reflexivity |].
  destruct (tabs_on_change (set_checked true chk)
              (with_boxes (check_at i true (boxes s)) s))
    as [_ [_ [_ [_ [_ [_ ->]]]]]].
  cbn [boxes with_boxes]. apply kinds_check_at.
Qed.

Lemma kinds_imagery_rules rows : forall s,
  map box_kind_of (boxes (fold_left imagery_rule rows s))
  = map box_kind_of (boxes s).
Proof.
  induction rows as [| e rows IH]; intros s; [reflexivity |].
  cbn [fold_left]. rewrite IH. apply kinds_imagery_rule.
Qed.

Lemma kinds_restoreStateFromSession s :
  map box_kind_of (boxes (restoreStateFromSession s))
  = map box_kind_of (boxes s).
Proof.
  unfold restoreStateFromSession.
  destruct (session s) as [state |]; [| reflexivity].
  assert (H : map box_kind_of
                (boxes (fold_left restore_layer (enabledLayers state) s))
              = map box_kind_of (boxes s)).
  { rewrite boxes_restore_layers. apply kinds_check_restored. }
  destruct (openTabs state) as [| first ts]; [exact H |].
  now rewrite boxes_activatePdfTab, boxes_restore_tabs.
Qed.


(** ** Checked boxes and the map *)

(** Checking a box and running its [change] listener. *)
Lemma boxes_shown_check pending s i chk :
  boxes_shown pending s -> nth_error (boxes s) i = Some chk ->
  boxes_shown pending
    (on_change (set_checked true chk)
               (with_boxes (check_at i true (boxes s)) s)).
Proof.
  intros Hinv Hi b Hb Hc.
  destruct (tabs_on_change (set_checked true chk)
              (with_boxes (check_at i true (boxes s)) s))
    as [_ [_ [_ [_ [_ [_ Hboxes]]]]]].
  rewrite Hboxes in Hb. cbn [boxes with_boxes] in Hb.
  rewrite layers_on_change. cbn [box_checked set_checked layers with_boxes].
  assert (Hid : box_data_id (set_checked true chk) = box_data_id chk)
    by reflexivity.
  rewrite Hid.
  apply In_nth_error in Hb. destruct Hb as [j Hj].
  destruct (Nat.eq_dec j i) as [-> | Hne].
  - rewrite nth_check_at_same, Hi in Hj. cbn in Hj.
    injection Hj as <-. left. rewrite Hid. apply shown_enableLayer.
  - rewrite nth_check_at_other in Hj by exact Hne.
    apply nth_error_In in Hj.
    destruct (Hinv b Hj Hc) as [H | H]; [left | now right].
    now apply shown_enableLayer_mono.
Qed.

Lemma boxes_shown_same pending s s' :
  boxes s' = boxes s -> layers s' = layers s ->
  boxes_shown pending s -> boxes_shown pending s'.
Proof.
  intros Hb Hl H b. rewrite Hb, Hl. apply H.
Qed.

Lemma boxes_shown_imagery_rule pending s e :
  boxes_shown pending s -> boxes_shown pending (imagery_rule s e).
Proof.
  intros H. unfold imagery_rule.
  destruct (imagery_row e); [| exact H].
  destruct (find_chk (str_or (ui_label e) []) (boxes s)) as [i |];
    [| exact H].
  destruct (nth_error (boxes s) i) as [chk |] eqn:E; [| exact H].
  destruct (box_checked chk); [exact H |].
  now apply boxes_shown_check.
Qed.

Lemma boxes_shown_imagery_rules pending rows : forall s,
  boxes_shown pending s -> boxes_shown pending (fold_left imagery_rule rows s).
Proof.
  induction rows as [| e rows IH]; intros s H; [exact H |].
  cbn [fold_left]. apply IH. now apply boxes_shown_imagery_rule.
Qed.

Lemma boxes_shown_restore_layer pending s id :
  boxes_shown pending s -> boxes_shown pending (restore_layer s id).
Proof.
  intros H. unfold restore_layer.
  destruct (find_input id (boxes s)) as [i |]; [| exact H].
  destruct (nth_error (boxes s) i) as [chk |] eqn:E; [| exact H].
  destruct (box_checked chk); [exact H |].
  now apply boxes_shown_check.
Qed.

Lemma boxes_shown_restore pending s :
  boxes_shown pending s -> boxes_shown pending (restoreStateFromSession s).
Proof.
  intros H. unfold restoreStateFromSession.
  destruct (session s) as [state |]; [| exact H].
  assert (H1 : boxes_shown pending
                 (fold_left restore_layer (enabledLayers state) s)).
  { clear - H. revert s H.
    induction (enabledLayers state) as [| id ids IH]; intros s H; [exact H |].
    cbn [fold_left]. apply IH. now apply boxes_shown_restore_layer. }
  destruct (openTabs state) as [| first ts]; [exact H1 |].
  eapply boxes_shown_same; [| | exact H1].
  - now rewrite boxes_activatePdfTab, boxes_restore_tabs.
  - now rewrite layers_activatePdfTab, layers_restore_tabs.
Qed.

Lemma boxes_run_timers ts : forall s, boxes (run_timers ts s) = boxes s.
Proof.
  induction ts as [| id ts IH]; intros s; [reflexivity |].
  cbn [run_timers fold_left]. fold (run_timers ts). now rewrite IH.
Qed.

(** When the timers have fired no box waits for one. *)
Lemma boxes_shown_run_timers ts : forall s,
  boxes_shown ts s -> boxes_shown [] (run_timers ts s).
Proof.
  induction ts as [| id ts IH]; intros s H; [exact H |].
  cbn [run_timers fold_left]. fold (run_timers ts). apply IH.
  intros b Hb Hc. cbn [boxes layers with_layers] in *.
  destruct (H b Hb Hc) as [Hs | [<- | Hin]].
  - left. now apply shown_enableLayer_mono.
  - left. apply shown_enableLayer.
  - now right.
Qed.

(** The overlays registered do not change once the boxes are built. *)
Lemma overlays_on_change b s :
  overlays (layers (on_change b s)) = overlays (layers s).
Proof.
  rewrite layers_on_change.
  destruct (box_checked b);
    [apply overlays_enableLayer | apply overlays_removeLayer].
Qed.

Lemma overlays_imagery_rule s e :
  overlays (layers (imagery_rule s e)) = overlays (layers s).
Proof.
  unfold imagery_rule.
  destruct (imagery_row e); [| reflexivity].
  destruct (find_chk (str_or (ui_label e) []) (boxes s)) as [i |];
    [| reflexivity].
  destruct (nth_error (boxes s) i) as [chk |]; [| reflexivity].
  destruct (box_checked chk); [reflexivity |].
  now rewrite overlays_on_change.
Qed.

Lemma overlays_imagery_rules rows : forall s,
  overlays (layers (fold_left imagery_rule rows s)) = overlays (layers s).
Proof.
  induction rows as [| e rows IH]; intros s; [reflexivity |].
  cbn [fold_left]. rewrite IH. apply overlays_imagery_rule.
Qed.

Lemma overlays_restore_layer s id :
  overlays (layers (restore_layer s id)) = overlays (layers s).
Proof.
  unfold restore_layer.
  destruct (find_input id (boxes s)) as [i |]; [| reflexivity].
  destruct (nth_error (boxes s) i) as [chk |]; [| reflexivity].
  destruct (box_checked chk); [reflexivity |].
  now rewrite overlays_on_change.
Qed.

Lemma overlays_restore s :
  overlays (layers (restoreStateFromSession s)) = overlays (layers s).
Proof.
  unfold restoreStateFromSession.
  destruct (session s) as [state |]; [| reflexivity].
  assert (H1 : overlays (layers (fold_left restore_layer
                                   (enabledLayers state) s))
               = overlays (layers s)).
  { revert s.
    induction (enabledLayers state) as [| id ids IH]; intros s;
      [reflexivity |].
    cbn [fold_left]. rewrite IH. apply overlays_restore_layer. }
  destruct (openTabs state) as [| first ts]; [exact H1 |].
  now rewrite layers_activatePdfTab, layers_restore_tabs.
Qed.

Lemma overlays_run_timers ts : forall s,
  overlays (layers (run_timers ts s)) = overlays (layers s).
Proof.
  induction ts as [| id ts IH]; intros s; [reflexivity |].
  cbn [run_timers fold_left]. fold (run_timers ts). rewrite IH.
  cbn [layers with_layers]. apply overlays_enableLayer.
Qed.

(** X26.  Once the imagery feed is loaded and the timers it set have fired,
    every box that is checked, whether by default, by the imagery rule or by
    the restored session, has all the layer objects of its overlay on the
    map; and every box of the list has an overlay registered under its
    identifier (OSM being registered when the feed arrives). *)
Theorem checked_boxes_are_shown
    (esri_ok : overlay_entry -> bool) (street_ok : bool)
    (rows : list overlay_entry) (s : app) :
  let loaded := load_imagery esri_ok street_ok rows s in
  let s' := run_timers (snd loaded) (fst loaded) in
  (forall b, In b (boxes s') -> box_checked b = true ->
             shown (box_data_id b) (layers s'))
  /\ (get (lit "OSM") (overlays (layers s)) <> None ->
      forall b, In b (boxes s') ->
                get (box_data_id b) (overlays (layers s')) <> None).
Proof.
  cbv zeta. destruct street_ok.
  2: { unfold load_imagery.
       destruct (fold_left (group_row esri_ok) rows ([], layers s)) as [G l].
       cbn. split; [intros b [] | intros _ b []]. }
  pose proof (load_imagery_unfold esri_ok rows s) as H. cbv zeta in H.
  rewrite H. cbn [fst snd]. clear H.
  set (st := fold_left (group_row esri_ok) rows ([], layers s)).
  set (L := enableLayer (lit "Street Overlay") (register_street (snd st))).
  set (p := with_boxes ([street_box true; osm_box false]
                        ++ map entry_box (listed (fst st)))
                       (with_layers L s)).
  set (timers := map ui_label (filter default_checked (listed (fst st)))).
  assert (Hp : boxes_shown timers p).
  { intros b Hb Hc. unfold p in Hb. cbn [boxes with_boxes] in Hb.
    cbn [List.app] in Hb.
    destruct Hb as [<- | [<- | Hb]].
    - left. unfold p. cbn [layers with_boxes with_layers].
      apply shown_enableLayer.
    - discriminate.
    - right. apply in_map_iff in Hb. destruct Hb as [e [<- He]].
      unfold timers. apply in_map_iff. exists e.
      split; [reflexivity |]. apply filter_In. split; [exact He |].
      exact Hc. }
  split.
  - intros b Hb Hc.
    assert (Hfin : boxes_shown []
                     (run_timers timers
                        (restoreStateFromSession
                           (fold_left imagery_rule rows p)))).
    { apply boxes_shown_run_timers. apply boxes_shown_restore.
      now apply boxes_shown_imagery_rules. }
    destruct (Hfin b Hb Hc) as [Hs | []]. exact Hs.
  - intros Hosm b Hb.
    rewrite overlays_run_timers, overlays_restore, overlays_imagery_rules.
    rewrite boxes_run_timers in Hb.
    assert (Hk : In (box_kind_of b)
                    (map box_kind_of
                       ([street_box true; osm_box false]
                        ++ map entry_box (listed (fst st))))).
    { replace (map box_kind_of
                 ([street_box true; osm_box false]
                  ++ map entry_box (listed (fst st))))
        with (map box_kind_of
                (boxes (restoreStateFromSession
                          (fold_left imagery_rule rows p)))).
      - now apply in_map.
      - now rewrite kinds_restoreStateFromSession, kinds_imagery_rules. }
    unfold p. cbn [layers with_boxes with_layers]. unfold L.
    rewrite overlays_enableLayer.
    cbn [List.app map] in Hk.
    unfold box_data_id.
    destruct Hk as [<- | [<- | Hk]].
    + cbn [street_box box_kind_of register_street overlays].
      now rewrite get_set_same.
    + cbn [osm_box box_kind_of]. apply get_register_street_keeps.
      unfold st. rewrite registered_rows. now apply registered_keeps.
    + apply in_map_iff in Hk. destruct Hk as [x [<- Hx]].
      apply in_map_iff in Hx. destruct Hx as [e [<- He]].
      cbn [entry_box box_kind_of]. apply get_register_street_keeps.
      unfold st. rewrite registered_rows. apply registered_all.
      now apply (In_listed esri_ok rows (layers s)).
Qed.

(** ** The session store during the load *)













(** ** Element identifiers *)

Lemma css_safe_char_small c : css_safe_char c = true -> (c < 128)%N.
Proof.
  unfold css_safe_char, is_digit. intros H.
  repeat (apply orb_true_iff in H; destruct H as [H | H]);
    repeat (apply andb_true_iff in H; destruct H as [? H]);
    repeat match goal with
           | H : (_ <=? _)%N = true |- _ => apply N.leb_le in H
           | H : (_ =? _)%N = true |- _ => apply N.eqb_eq in H
           end; lia.
Qed.

(** X28.  [cssSafeId] yields text fit for an element identifier: letters,
    digits, [_] and [-] only.  Text that is already so is returned as it is,
    so applying the function again changes nothing, and the result has as
    many UTF-16 code units as the argument, each unit that is not kept
    giving one underscore. *)
Theorem cssSafeId_safe (s : jstr) :
  forallb css_safe_char (cssSafeId s) = true
  /\ (forallb css_safe_char s = true -> cssSafeId s = s)
  /\ cssSafeId (cssSafeId s) = cssSafeId s
  /\ List.length (utf16 (cssSafeId s)) = List.length (utf16 s).
Proof.
  assert (Hsafe : forall t, forallb css_safe_char (cssSafeId t) = true).
  { induction t as [| c t IH]; [reflexivity |].
    unfold cssSafeId in *. cbn [flat_map]. rewrite forallb_app, IH.
    destruct (css_safe_char c) eqn:E.
    - cbn. now rewrite E.
    - destruct (65535 <? c)%N; reflexivity. }
  assert (Hid : forall t, forallb css_safe_char t = true -> cssSafeId t = t).
  { induction t as [| c t IH]; [reflexivity |].
    cbn [forallb]. intros H. apply andb_true_iff in H. destruct H as [Hc Ht].
    unfold cssSafeId in *. cbn [flat_map]. rewrite Hc, (IH Ht). reflexivity. }
  split; [apply Hsafe |]. split; [apply Hid |].
  split; [apply Hid, Hsafe |].
  induction s as [| c s IH]; [reflexivity |].
  unfold cssSafeId, utf16 in *. cbn [flat_map].
  rewrite flat_map_app, !length_app, IH. f_equal.
  destruct (css_safe_char c) eqn:E.
  - apply css_safe_char_small in E. cbn [flat_map].
    assert ((c <? 65536)%N = true) as -> by (apply N.ltb_lt; lia).
    reflexivity.
  - destruct (65535 <? c)%N eqn:E'.
    + apply N.ltb_lt in E'.
      assert ((c <? 65536)%N = false) as -> by (apply N.ltb_ge; lia).
      reflexivity.
    + apply N.ltb_ge in E'.
      assert ((c <? 65536)%N = true) as -> by (apply N.ltb_lt; lia).
      reflexivity.
Qed.

(** ** The decade selector *)

